(** * esc-lang: the bytecode virtual machine and the scope rules of its compiler

  A shallow embedding of [src/vm.ts] (values, instructions, call frames, the
  fetch/execute loop, the snapshot serializer) and of the scope handling of
  [src/compiler.ts], followed by the properties that the specification states
  about them.

  JavaScript objects that the program compares by identity or mutates in
  place (the arrays behind Tuple and List values, Function objects) live in
  an explicit heap; everything else is passed by value.  A computation is a
  function from a state to a result and a state: an exception keeps the
  mutations made before it, as in JavaScript. *)

From Stdlib Require Import ZArith Floats.
From stdpp Require Import base option list gmap strings.

Local Open Scope Z_scope.
Local Open Scope list_scope.

(** ** JavaScript numbers *)

Module JsNumber.

(** The mathematical integer denoted by a double, when it denotes one. *)
Definition to_integer (x : float) : option Z :=
  match Prim2SF x with
  | S754_zero _ => Some 0
  | S754_finite s m e =>
      let mag :=
        if 0 <=? e then Some (Z.pos m * 2 ^ e)
        else if Z.pos m mod 2 ^ (- e) =? 0 then Some (Z.pos m / 2 ^ (- e))
        else None in
      (fun z => if s then - z else z) <$> mag
  | _ => None
  end.

(** The double of a (small) natural number, such as an array length. *)
Definition of_nat (n : nat) : float := SF2Prim (binary_normalize prec emax (Z.of_nat n) 0 false).

(** [ToString(x)] is an array index: a canonical integer in [0, 2^32 - 2]. *)
Definition array_index (x : float) : option nat :=
  match to_integer x with
  | Some z => if (0 <=? z) && (z <? 2 ^ 32 - 1) then Some (Z.to_nat z) else None
  | None => None
  end.

(** [x === 0] *)
Definition is_zero (x : float) : bool := PrimFloat.eqb x PrimFloat.zero.

(** [x % y]: the remainder of the truncating division, with the sign of the
    dividend; exact, since both operands are dyadic rationals. *)
Definition rem (x y : float) : float :=
  match Prim2SF x, Prim2SF y with
  | S754_nan, _ | _, S754_nan => PrimFloat.nan
  | S754_infinity _, _ => PrimFloat.nan
  | _, S754_zero _ => PrimFloat.nan
  | _, S754_infinity _ => x
  | S754_zero _, _ => x
  | S754_finite sx mx ex, S754_finite _ my ey =>
      let e := Z.min ex ey in
      let r := Z.rem (Z.pos mx * 2 ^ (ex - e)) (Z.pos my * 2 ^ (ey - e)) in
      if r =? 0 then (if sx then PrimFloat.neg_zero else PrimFloat.zero)
      else SF2Prim (binary_normalize prec emax (if sx then - r else r) e false)
  end.

(** What [JSON.stringify] followed by [JSON.parse] leaves of a number: NaN and
    the infinities are written as [null], and minus zero as [0]. *)
Definition json (x : float) : option float :=
  match Prim2SF x with
  | S754_zero _ => Some PrimFloat.zero
  | S754_finite _ _ _ => Some x
  | _ => None
  end.

End JsNumber.

(** ** Enumerations of [vm.ts] *)

Module Opcode.
Inductive t :=
  | PUSH | POP | ADD | SUB | MUL | DIV | LT | GT | LTE | GTE | EQ | GTEQ | NEQ
  | AND | OR | NOT | JUMP | JUMPF | JUMPT | JUMPTF | LOAD | STORE | CALL | RET
  | HALT | PRINT | INPUT | SYSCALL | DATA | INC | DEC | NEG | COPY | SETGL
  | DECLAREGL | LOADGL | NATIVE | NOP | MOD | MAKE_TUPLE | MAKE_LIST
  | SUBSCRIPT | STORE_SUBSCRIPT.

#[global] Instance eq_dec : EqDecision t.
Proof. solve_decision. Defined.
End Opcode.

Module ValueType.
Inductive t :=
  | STRING | NUMBER | BOOLEAN | FUNCTION | NATIVE | SYSCALL | TUPLE | LIST | NULL.

#[global] Instance eq_dec : EqDecision t.
Proof. solve_decision. Defined.
End ValueType.

Module VMStatus.
Inductive t := RUNNING | HALTED | ERROR | SYSCALL.

#[global] Instance eq_dec : EqDecision t.
Proof. solve_decision. Defined.
End VMStatus.

(** ** Values, instructions and the heap *)

(** An object reference: the index of a cell of the heap. *)
Abbreviation loc := nat (only parsing).

(** [class Value]: a tag and a payload.  The payload of a Tuple or a List is a
    reference to the array that holds its elements, the payload of a Function a
    reference to the Function object.  [VNumberNull] is a Number whose payload
    is [null]: what a NaN or an infinity is after it was written to JSON and
    read back. *)
Inductive Value :=
  | VString (value : string)
  | VNumber (value : float)
  | VNumberNull
  | VBoolean (value : bool)
  | VFunction (value : loc)
  | VNative (value : string)
  | VSyscall (value : string)
  | VTuple (value : loc)
  | VList (value : loc)
  | VNull.

(** An entry of a JavaScript array of values: a [Value], or nothing
    ([undefined], a hole, or the [null] that JSON writes for either). *)
Abbreviation Slot := (option Value) (only parsing).

(** What the [value] field of a [Value] holds ([value: any]). *)
Inductive Payload :=
  | PString (s : string)
  | PNumber (x : float)
  | PBoolean (b : bool)
  | PNull
  | PObject (r : loc).

(** [v.type] *)
Definition type_of (v : Value) : ValueType.t :=
  match v with
  | VString _ => ValueType.STRING
  | VNumber _ | VNumberNull => ValueType.NUMBER
  | VBoolean _ => ValueType.BOOLEAN
  | VFunction _ => ValueType.FUNCTION
  | VNative _ => ValueType.NATIVE
  | VSyscall _ => ValueType.SYSCALL
  | VTuple _ => ValueType.TUPLE
  | VList _ => ValueType.LIST
  | VNull => ValueType.NULL
  end.

(** [v.value] *)
Definition value_of (v : Value) : Payload :=
  match v with
  | VString s | VNative s | VSyscall s => PString s
  | VNumber x => PNumber x
  | VBoolean b => PBoolean b
  | VFunction r | VTuple r | VList r => PObject r
  | VNull | VNumberNull => PNull
  end.

(** The payload of a Number: a number, or [None] for [null]. *)
Definition number_payload (v : Value) : option (option float) :=
  match v with
  | VNumber x => Some (Some x)
  | VNumberNull => Some None
  | _ => None
  end.

(** The number an arithmetic operator takes for the payload of a Number:
    [null] counts as 0. *)
Definition to_number (x : option float) : float := default PrimFloat.zero x.

(** [x === 0] on the payload of a Number. *)
Definition is_zero (x : option float) : bool :=
  match x with
  | Some a => JsNumber.is_zero a
  | None => false
  end.

(** [x === y] on payloads. *)
Definition strict_eq (x y : Payload) : bool :=
  match x, y with
  | PString s, PString s' => bool_decide (s = s')
  | PNumber a, PNumber b => PrimFloat.eqb a b
  | PBoolean a, PBoolean b => bool_decide (a = b)
  | PNull, PNull => true
  | PObject r, PObject r' => bool_decide (r = r')
  | _, _ => false
  end.

(** The truth value JavaScript gives a payload in a condition. *)
Definition truthy (x : Payload) : bool :=
  match x with
  | PString s => negb (bool_decide (s = EmptyString))
  | PNumber a => negb (JsNumber.is_zero a || PrimFloat.is_nan a)
  | PBoolean b => b
  | PNull => false
  | PObject _ => true
  end.

Module Instruction.
Record t := mk { type : Opcode.t; lineNumber : nat; value : option nat }.

#[global] Instance eq_dec : EqDecision t.
Proof. solve_decision. Defined.
End Instruction.

Module Function.
Record t := mk { name : string; args : list string; body : list Instruction.t }.

#[global] Instance eq_dec : EqDecision t.
Proof. solve_decision. Defined.
End Function.

(** A cell of the heap: an array with its elements and the properties that are
    not array indices (set by [a[k] = v] with [k] negative, fractional or
    [null]), or a Function object. *)
Inductive HeapCell :=
  | HArray (items : list Slot) (props : list (option float * Slot))
  | HFunction (f : Function.t).

Abbreviation Heap := (list HeapCell) (only parsing).

Module Program.
Record t := mk { text : list Instruction.t; data : list Value }.
End Program.

Module CallFrame.
Record t := mk { ip : Z; stack : list Slot; text : list Instruction.t }.

Definition set_ip (i : Z) (f : t) : t := mk i (stack f) (text f).
Definition set_stack (s : list Slot) (f : t) : t := mk (ip f) s (text f).
End CallFrame.

Module Syscall.
Record t := mk { name : string; args : list Slot }.
End Syscall.

(** ** Errors *)

(** The exceptions of [error.ts] with the arguments they are raised with, the
    JavaScript exceptions the code can run into, and two outcomes of the model
    itself: [Unmodelled] where the code goes on in a way that is not followed
    here, and [HeapFault] for a reference without a cell, which no JavaScript
    state has. *)
Inductive Error :=
  | CompilerBug
  | SyntaxError (line : nat)
  | InvalidType (line : nat) (expected actual : ValueType.t)
  | DivisionByZero (line : nat)
  | IndexError (line : nat)
  | InvalidFormat (line : nat)
  | FunctionArgumentNumberMismatch
      (line : nat) (name : string) (expected : nat) (actual : option nat)
  | NativeFunctionArgumentNumberMismatch
      (line : nat) (name : string) (expected : nat) (actual : option nat)
  | VariableAlreadyDeclared (line : nat) (id : string)
  | VariableNotDeclared (line : nat) (id : string)
  | VariableAlreadyDeclaredInScope (line : nat) (name : string)
  | TypeError
  | CircularStructure
  | Unmodelled
  | HeapFault.

Inductive Result (A : Type) :=
  | Ok (a : A)
  | Throw (e : Error).
Arguments Ok {A} a.
Arguments Throw {A} e.

(** ** Computations over a mutable state *)

Definition M (S A : Type) : Type := S -> Result A * S.

Definition ret {S A} (a : A) : M S A := fun s => (Ok a, s).
Definition throw {S A} (e : Error) : M S A := fun s => (Throw e, s).
Definition bind {S A B} (c : M S A) (k : A -> M S B) : M S B :=
  fun s => match c s with
           | (Ok a, s') => k a s'
           | (Throw e, s') => (Throw e, s')
           end.
Definition gets {S A} (f : S -> A) : M S A := fun s => (Ok (f s), s).
Definition modify {S} (f : S -> S) : M S unit := fun s => (Ok tt, f s).

#[global] Instance M_ret {S} : MRet (M S) := fun A => @ret S A.
#[global] Instance M_bind {S} : MBind (M S) := fun A B k c => @bind S A B c k.

(** ** JavaScript arrays as lists *)

Section Arrays.
Context {A : Type}.

(** [l.pop()] on a non-empty array: the rest and the last element. *)
Fixpoint pop_last (l : list A) : option (list A * A) :=
  match l with
  | [] => None
  | x :: l' =>
      match pop_last l' with
      | None => Some ([], x)
      | Some (r, y) => Some (x :: r, y)
      end
  end.

End Arrays.

(** [l[i]]: nothing when [i] is past the end. *)
Definition js_get (l : list Slot) (i : nat) : Slot := mjoin (l !! i).

(** [l[i] = v]: past the end the array grows, with holes up to [i]. *)
Definition js_set (l : list Slot) (i : nat) (v : Slot) : list Slot :=
  if decide (i < length l)%nat then <[i := v]> l
  else l ++ replicate (i - length l) None ++ [v].

(** Reading and writing [a[k]] for the payload [k] of a Number: an element
    when [k] is an array index, a property of the array object otherwise. *)
Definition same_key (k k' : option float) : bool :=
  match k, k' with
  | Some x, Some y => PrimFloat.Leibniz.eqb x y
  | None, None => true
  | _, _ => false
  end.

Fixpoint prop_get (props : list (option float * Slot)) (k : option float) : Slot :=
  match props with
  | [] => None
  | (k', v) :: rest => if same_key k' k then v else prop_get rest k
  end.

Fixpoint prop_set (props : list (option float * Slot)) (k : option float) (v : Slot)
  : list (option float * Slot) :=
  match props with
  | [] => [(k, v)]
  | (k', v') :: rest =>
      if same_key k' k then (k', v) :: rest else (k', v') :: prop_set rest k v
  end.

Definition array_get (items : list Slot) (props : list (option float * Slot))
    (k : option float) : Slot :=
  match k ≫= JsNumber.array_index with
  | Some i => js_get items i
  | None => prop_get props k
  end.

Definition array_set (items : list Slot) (props : list (option float * Slot))
    (k : option float) (v : Slot) : HeapCell :=
  match k ≫= JsNumber.array_index with
  | Some i => HArray (js_set items i v) props
  | None => HArray items (prop_set props k v)
  end.

(** ** The host registries ([native.ts] and [syscall.ts])

    The registries are not part of the sources at hand; the machine takes them
    as a parameter.  A native function and a preprocessor may read and change
    the heap and may throw. *)

Module NativeInfo.
Record t := mk { args : nat; function : nat -> list Slot -> M Heap Slot }.
End NativeInfo.

Module SyscallInfo.
Record t := mk { syscallId : string; preprocessor : list Slot -> nat -> M Heap (list Slot) }.
End SyscallInfo.

Module Host.
Record t := mk { natives : gmap string NativeInfo.t; syscalls : gmap string SyscallInfo.t }.
End Host.

(** ** JavaScript [Map]s with string keys, in insertion order *)

Module JsMap.
Section JsMap.
Context {V : Type}.

Fixpoint get (m : list (string * V)) (k : string) : option V :=
  match m with
  | [] => None
  | (k', v) :: rest => if decide (k' = k) then Some v else get rest k
  end.

Definition has (m : list (string * V)) (k : string) : bool := bool_decide (is_Some (get m k)).

(** [m.set(k, v)]: an existing key keeps its place, a new one goes last. *)
Fixpoint set (m : list (string * V)) (k : string) (v : V) : list (string * V) :=
  match m with
  | [] => [(k, v)]
  | (k', v') :: rest => if decide (k' = k) then (k', v) :: rest else (k', v') :: set rest k v
  end.

End JsMap.
End JsMap.

(** ** Snapshots

    [serialize(this)] of class-transformer writes the machine as a JSON text,
    and [deserialize(VM, text)] builds a machine from it.  What the text keeps
    of a machine is a tree: an array or a Function object that is referenced
    twice is written twice, a number that is not finite is written [null], an
    entry of an array that is [undefined] is written [null], a property that is
    [undefined] is left out, and properties of an array that are not indices
    are left out.  The model takes that tree for the text; [btoa] and [atob]
    only change the alphabet (strings are sequences of bytes here, the only
    characters [btoa] accepts). *)

#[warnings="-register-all"]
Inductive PlainValue :=
  | PlString (value : string)
  | PlNumber (value : option float)
  | PlBoolean (value : bool)
  | PlFunction (value : Function.t)
  | PlNative (value : string)
  | PlSyscall (value : string)
  | PlTuple (value : list (option PlainValue))
  | PlList (value : list (option PlainValue))
  | PlNull.

Module PlainFrame.
Record t := mk { ip : Z; stack : list (option PlainValue); text : list Instruction.t }.
End PlainFrame.

Module PlainSyscall.
Record t := mk { name : string; args : list (option PlainValue) }.
End PlainSyscall.

Module PlainVM.
Record t := mk {
  data : list PlainValue;
  frames : list PlainFrame.t;
  globals : gmap string PlainValue;
  syscall : option PlainSyscall.t }.
End PlainVM.

Module VMImage.
Record t := mk { state : PlainVM.t; status : VMStatus.t; syscall : option Syscall.t }.
End VMImage.

(** [f] on every element, left to right, up to the first exception. *)
Fixpoint result_map {A B : Type} (f : A -> Result B) (l : list A) : Result (list B) :=
  match l with
  | [] => Ok []
  | x :: rest =>
      match f x with
      | Throw e => Throw e
      | Ok y =>
          match result_map f rest with
          | Throw e => Throw e
          | Ok ys => Ok (y :: ys)
          end
      end
  end.

Definition result_option {A B : Type} (f : A -> Result B) (o : option A) : Result (option B) :=
  match o with
  | None => Ok None
  | Some x => match f x with Ok y => Ok (Some y) | Throw e => Throw e end
  end.

(** The tree of a value.  [anc] holds the arrays the value is nested in: an
    array that contains itself has no tree.  The recursion is on [fuel], one
    unit for each level of nesting. *)
Fixpoint plain_value (fuel : nat) (h : Heap) (anc : list loc) (v : Value) : Result PlainValue :=
  match fuel with
  | O => Throw CircularStructure
  | S fuel' =>
      let array (r : loc) : Result (list (option PlainValue)) :=
        if decide (r ∈ anc) then Throw CircularStructure
        else match h !! r with
             | Some (HArray items _) =>
                 result_map (result_option (plain_value fuel' h (r :: anc))) items
             | _ => Throw HeapFault
             end in
      match v with
      | VString s => Ok (PlString s)
      | VNumber x => Ok (PlNumber (JsNumber.json x))
      | VNumberNull => Ok (PlNumber None)
      | VBoolean b => Ok (PlBoolean b)
      | VFunction r =>
          match h !! r with
          | Some (HFunction f) => Ok (PlFunction f)
          | _ => Throw HeapFault
          end
      | VNative k => Ok (PlNative k)
      | VSyscall k => Ok (PlSyscall k)
      | VTuple r => match array r with Ok l => Ok (PlTuple l) | Throw e => Throw e end
      | VList r => match array r with Ok l => Ok (PlList l) | Throw e => Throw e end
      | VNull => Ok PlNull
      end
  end.

(** Enough fuel for any value of a heap: a nesting of arrays that is deeper
    than the heap has cells goes through one array twice. *)
Definition plain (h : Heap) (v : Value) : Result PlainValue :=
  plain_value (S (length h)) h [] v.

Definition plain_slots (h : Heap) (l : list Slot) : Result (list (option PlainValue)) :=
  result_map (result_option (plain h)) l.

(** A new object on the heap; its reference. *)
Definition heap_alloc (c : HeapCell) : M Heap loc :=
  fun h => (Ok (length h), h ++ [c]).

(** ** The virtual machine ([class VM]) *)

Module VM.

Record t := mk {
  data : list Value;
  frames : list CallFrame.t;
  globals : list (string * Slot);
  syscall : option Syscall.t }.

Definition set_frames (fs : list CallFrame.t) (vm : t) : t :=
  mk (data vm) fs (globals vm) (syscall vm).
Definition set_globals (g : list (string * Slot)) (vm : t) : t :=
  mk (data vm) (frames vm) g (syscall vm).
Definition set_syscall (sc : option Syscall.t) (vm : t) : t :=
  mk (data vm) (frames vm) (globals vm) sc.

(** The state of a computation: the JavaScript heap and the machine. *)
Record State := mkState { heap : Heap; this : t }.

Definition on_this (f : t -> t) (s : State) : State := mkState (heap s) (f (this s)).
Definition on_heap (f : Heap -> Heap) (s : State) : State := mkState (f (heap s)) (this s).

(** A computation on the heap alone, run on the heap of the state. *)
Definition lift_heap {A} (c : M Heap A) : M State A :=
  fun s => let '(r, h) := c (heap s) in (r, mkState h (this s)).

(** [get halted()] *)
Definition halted (vm : t) : bool := bool_decide (frames vm = []).

(** [this.frames[this.frames.length - 1]]; reading a field of it throws when
    there is no frame. *)
Definition top_frame : M State CallFrame.t :=
  fun s => match pop_last (frames (this s)) with
           | Some (_, f) => (Ok f, s)
           | None => (Throw TypeError, s)
           end.

Definition update_top_frame (g : CallFrame.t -> CallFrame.t) : M State unit :=
  fun s => match pop_last (frames (this s)) with
           | Some (rest, f) => (Ok tt, on_this (set_frames (rest ++ [g f])) s)
           | None => (Throw TypeError, s)
           end.

(** [this.stack.push(v)] *)
Definition push (v : Slot) : M State unit :=
  update_top_frame (fun f => CallFrame.set_stack (CallFrame.stack f ++ [v]) f).

(** [this.stack.pop()] of [class Stack], which throws on an empty stack. *)
Definition pop : M State Slot :=
  f ← top_frame;
  match pop_last (CallFrame.stack f) with
  | None => throw CompilerBug
  | Some (rest, v) => update_top_frame (CallFrame.set_stack rest);; mret v
  end.

(** [this.stack.at(-1)] *)
Definition peek : M State Slot :=
  f ← top_frame; mret (mjoin (last (CallFrame.stack f))).

(** Reading [v.type] or [v.value]: a [TypeError] when [v] is [undefined]. *)
Definition defined {S} (v : Slot) : M S Value :=
  match v with
  | Some x => mret x
  | None => throw TypeError
  end.

(** [for (let i = 0; i < n; i++) acc.unshift(this.stack.pop())] *)
Fixpoint pop_args (n : nat) (acc : list Slot) : M State (list Slot) :=
  match n with
  | O => mret acc
  | S n' => v ← pop; pop_args n' (v :: acc)
  end.

(** A new object on the heap; its reference. *)
Definition alloc (c : HeapCell) : M State loc := lift_heap (heap_alloc c).

Definition read_array (r : loc) : M State (list Slot * list (option float * Slot)) :=
  fun s => match heap s !! r with
           | Some (HArray items props) => (Ok (items, props), s)
           | _ => (Throw HeapFault, s)
           end.

Definition read_function (r : loc) : M State Function.t :=
  fun s => match heap s !! r with
           | Some (HFunction f) => (Ok f, s)
           | _ => (Throw HeapFault, s)
           end.

Definition write_cell (r : loc) (c : HeapCell) : M State unit :=
  modify (on_heap (fun h => <[r := c]> h)).

(** [this.data[value]] *)
Definition data_at (value : option nat) : M State Slot :=
  gets (fun s => k ← value; data (this s) !! k).

(** [this.data[value].value] as the name of a global: the names the compiler
    emits are strings; a [Map] key of another kind is not followed. *)
Definition global_id (value : option nat) : M State string :=
  d ← data_at value;
  v ← defined d;
  match value_of v with
  | PString id => mret id
  | _ => throw Unmodelled
  end.

(** [this.ip = value - 1] *)
Definition jump (value : option nat) : M State unit :=
  match value with
  | Some t => update_top_frame (CallFrame.set_ip (Z.of_nat t - 1))
  | None => throw Unmodelled
  end.

(** The numeric binary operators share their checks: [a] is checked before
    [b], and the error reports the operand that failed. *)
Definition numeric_operands (lineNumber : nat) (a b : Slot)
  : M State (option float * option float) :=
  va ← defined a;
  match number_payload va with
  | Some x =>
      vb ← defined b;
      match number_payload vb with
      | Some y => mret (x, y)
      | None => throw (InvalidType lineNumber ValueType.NUMBER (type_of vb))
      end
  | None => throw (InvalidType lineNumber ValueType.NUMBER (type_of va))
  end.

Definition numeric_operand (lineNumber : nat) (a : Slot) : M State (option float) :=
  va ← defined a;
  match number_payload va with
  | Some x => mret x
  | None => throw (InvalidType lineNumber ValueType.NUMBER (type_of va))
  end.

Definition boolean_operands (lineNumber : nat) (a b : Slot) : M State (bool * bool) :=
  va ← defined a;
  match va with
  | VBoolean x =>
      vb ← defined b;
      match vb with
      | VBoolean y => mret (x, y)
      | _ => throw (InvalidType lineNumber ValueType.BOOLEAN (type_of va))
      end
  | _ => throw (InvalidType lineNumber ValueType.BOOLEAN (type_of va))
  end.

Section Execute.
Variable host : Host.t.

(** [CALL] of a native function. *)
Definition call_native (lineNumber : nat) (value : option nat) (key : string) (args : list Slot)
  : M State unit :=
  match Host.natives host !! key with
  | None => throw CompilerBug
  | Some nativeInfo =>
      if decide (Some (NativeInfo.args nativeInfo) = value) then
        result ← lift_heap (NativeInfo.function nativeInfo lineNumber args);
        push result
      else
        throw (NativeFunctionArgumentNumberMismatch
                 lineNumber key (NativeInfo.args nativeInfo) value)
  end.

(** [CALL] of a user function: a new frame whose stack is the callee followed
    by the arguments. *)
Definition call_function (lineNumber : nat) (value : option nat) (func : Value) (r : loc)
    (args : list Slot) : M State unit :=
  f ← read_function r;
  if decide (Some (length (Function.args f)) = value) then
    modify (on_this (fun vm =>
      set_frames (frames vm ++ [CallFrame.mk (-1) (Some func :: args) (Function.body f)]) vm))
  else
    throw (FunctionArgumentNumberMismatch
             lineNumber (Function.name f) (length (Function.args f)) value).

(** [CALL] of a syscall: the machine records the trap and pushes nothing. *)
Definition call_syscall (lineNumber : nat) (syscallName : string) (args : list Slot)
  : M State unit :=
  match Host.syscalls host !! syscallName with
  | None => throw CompilerBug
  | Some syscallInfo =>
      processedArgs ← lift_heap (SyscallInfo.preprocessor syscallInfo args lineNumber);
      if decide (syscallName = "syscall"%string) then
        first ← defined (mjoin (head processedArgs));
        match first with
        | VString syscallId =>
            modify (on_this (set_syscall (Some (Syscall.mk syscallId (tail processedArgs)))))
        | _ => throw (InvalidType lineNumber ValueType.STRING (type_of first))
        end
      else
        modify (on_this (set_syscall
          (Some (Syscall.mk (SyscallInfo.syscallId syscallInfo) processedArgs))))
  end.

(** [private execute(instruction: Instruction)] *)
Definition execute (instruction : Instruction.t) : M State unit :=
  let value := Instruction.value instruction in
  let lineNumber := Instruction.lineNumber instruction in
  match Instruction.type instruction with
  | Opcode.PUSH => d ← data_at value; push d
  | Opcode.POP => pop;; mret tt
  | Opcode.OR =>
      a ← pop; b ← pop;
      '(x, y) ← boolean_operands lineNumber a b;
      push (Some (VBoolean (y || x)))
  | Opcode.AND =>
      a ← pop; b ← pop;
      '(x, y) ← boolean_operands lineNumber a b;
      push (Some (VBoolean (y && x)))
  | Opcode.ADD =>
      a ← pop; b ← pop;
      va ← defined a; vb ← defined b;
      match number_payload va, number_payload vb with
      | Some x, Some y => push (Some (VNumber (to_number y + to_number x)%float))
      | _, _ =>
          match va, vb with
          | VString x, VString y => push (Some (VString (y +:+ x)))
          | VList ra, VList rb =>
              if decide (value = Some 1%nat) then
                '(xs, _) ← read_array ra;
                '(ys, props) ← read_array rb;
                write_cell rb (HArray (ys ++ xs) props);;
                push b
              else
                '(xs, _) ← read_array ra;
                '(ys, _) ← read_array rb;
                r ← alloc (HArray (ys ++ xs) []);
                push (Some (VList r))
          | _, _ => throw (InvalidType lineNumber (type_of va) (type_of vb))
          end
      end
  | Opcode.SUB =>
      a ← pop; b ← pop;
      va ← defined a; vb ← defined b;
      match number_payload va, number_payload vb with
      | Some x, Some y => push (Some (VNumber (to_number y - to_number x)%float))
      | _, _ => throw (InvalidType lineNumber (type_of va) (type_of vb))
      end
  | Opcode.MUL =>
      a ← pop; b ← pop;
      '(x, y) ← numeric_operands lineNumber a b;
      push (Some (VNumber (to_number x * to_number y)%float))
  | Opcode.DIV =>
      a ← pop; b ← pop;
      '(x, y) ← numeric_operands lineNumber a b;
      if is_zero x then throw (DivisionByZero lineNumber)
      else push (Some (VNumber (to_number y / to_number x)%float))
  | Opcode.MOD =>
      a ← pop; b ← pop;
      '(x, y) ← numeric_operands lineNumber a b;
      if is_zero x then throw (DivisionByZero lineNumber)
      else push (Some (VNumber (JsNumber.rem (to_number y) (to_number x))))
  | Opcode.LT =>
      a ← pop; b ← pop;
      '(x, y) ← numeric_operands lineNumber a b;
      push (Some (VBoolean (to_number y <? to_number x)%float))
  | Opcode.GT =>
      a ← pop; b ← pop;
      '(x, y) ← numeric_operands lineNumber a b;
      push (Some (VBoolean (to_number x <? to_number y)%float))
  | Opcode.LTE =>
      a ← pop; b ← pop;
      '(x, y) ← numeric_operands lineNumber a b;
      push (Some (VBoolean (to_number y <=? to_number x)%float))
  | Opcode.GTE =>
      a ← pop; b ← pop;
      '(x, y) ← numeric_operands lineNumber a b;
      push (Some (VBoolean (to_number x <=? to_number y)%float))
  | Opcode.EQ =>
      a ← pop; b ← pop;
      va ← defined a; vb ← defined b;
      push (Some (VBoolean
        (bool_decide (type_of va = type_of vb) && strict_eq (value_of vb) (value_of va))))
  | Opcode.NEQ =>
      a ← pop; b ← pop;
      va ← defined a; vb ← defined b;
      push (Some (VBoolean
        (negb (bool_decide (type_of va = type_of vb))
         || negb (strict_eq (value_of vb) (value_of va)))))
  | Opcode.JUMP => jump value
  | Opcode.JUMPF =>
      c ← pop; vc ← defined c;
      if truthy (value_of vc) then mret tt else jump value
  | Opcode.JUMPT =>
      c ← pop; vc ← defined c;
      if truthy (value_of vc) then jump value else mret tt
  | Opcode.CALL =>
      args ← pop_args (default 0%nat value) [];
      func ← pop;
      vf ← defined func;
      match vf with
      | VNative key => call_native lineNumber value key args
      | VFunction r => call_function lineNumber value vf r args
      | VSyscall syscallName => call_syscall lineNumber syscallName args
      | _ => throw (InvalidType lineNumber ValueType.FUNCTION (type_of vf))
      end
  | Opcode.RET =>
      fs ← gets (fun s => frames (this s));
      match pop_last fs with
      | Some (below, callee) =>
          match pop_last below with
          | Some (rest, caller) =>
              result ← (if decide (value = Some 1%nat) then pop else mret (Some VNull));
              let caller' := CallFrame.set_stack (CallFrame.stack caller ++ [result]) caller in
              modify (on_this (set_frames (rest ++ [caller'])))
          | None => throw TypeError
          end
      | None => throw TypeError
      end
  | Opcode.DATA => d ← data_at value; push d
  | Opcode.STORE =>
      top ← peek;
      match value with
      | Some i => update_top_frame (fun f => CallFrame.set_stack (js_set (CallFrame.stack f) i top) f)
      | None => throw Unmodelled
      end
  | Opcode.LOAD =>
      f ← top_frame;
      push (i ← value; js_get (CallFrame.stack f) i)
  | Opcode.DECLAREGL =>
      id ← global_id value;
      g ← gets (fun s => globals (this s));
      if JsMap.has g id then throw (VariableAlreadyDeclared lineNumber id)
      else
        v ← pop;
        modify (on_this (fun vm => set_globals (JsMap.set (globals vm) id v) vm))
  | Opcode.LOADGL =>
      id ← global_id value;
      g ← gets (fun s => globals (this s));
      if JsMap.has g id then push (mjoin (JsMap.get g id))
      else throw (VariableNotDeclared lineNumber id)
  | Opcode.SETGL =>
      id ← global_id value;
      g ← gets (fun s => globals (this s));
      if JsMap.has g id then
        top ← peek;
        modify (on_this (fun vm => set_globals (JsMap.set (globals vm) id top) vm))
      else throw (VariableNotDeclared lineNumber id)
  | Opcode.NEG =>
      a ← pop; x ← numeric_operand lineNumber a;
      push (Some (VNumber (- to_number x)%float))
  | Opcode.INC =>
      a ← pop; x ← numeric_operand lineNumber a;
      push (Some (VNumber (to_number x + 1)%float))
  | Opcode.DEC =>
      a ← pop; x ← numeric_operand lineNumber a;
      push (Some (VNumber (to_number x - 1)%float))
  | Opcode.COPY => a ← pop; push a;; push a
  | Opcode.MAKE_TUPLE =>
      elements ← pop_args (default 0%nat value) [];
      r ← alloc (HArray elements []);
      push (Some (VTuple r))
  | Opcode.MAKE_LIST =>
      elements ← pop_args (default 0%nat value) [];
      r ← alloc (HArray elements []);
      push (Some (VList r))
  | Opcode.SUBSCRIPT =>
      key ← pop; container ← pop;
      vc ← defined container;
      match vc with
      | VTuple r | VList r =>
          vk ← defined key;
          match number_payload vk with
          | Some k =>
              '(items, props) ← read_array r;
              if (JsNumber.of_nat (length items) <? to_number k)%float
              then throw (IndexError lineNumber)
              else push (array_get items props k)
          | None => throw (InvalidType lineNumber ValueType.NUMBER (type_of vk))
          end
      | _ => throw (InvalidType lineNumber ValueType.TUPLE (type_of vc))
      end
  | Opcode.STORE_SUBSCRIPT =>
      key ← pop; name ← pop;
      vn ← defined name;
      match vn with
      | VList r =>
          vk ← defined key;
          match number_payload vk with
          | Some k =>
              v ← pop;
              '(items, props) ← read_array r;
              write_cell r (array_set items props k v);;
              push v
          | None => throw (InvalidType lineNumber ValueType.NUMBER (type_of vn))
          end
      | _ => throw (InvalidType lineNumber ValueType.LIST (type_of vn))
      end
  | Opcode.NOT =>
      a ← pop; va ← defined a;
      match va with
      | VBoolean x => push (Some (VBoolean (negb x)))
      | _ => throw (InvalidType lineNumber ValueType.BOOLEAN (type_of va))
      end
  | Opcode.NOP => mret tt
  | _ => throw CompilerBug
  end.

(** One turn of the loop of [run]: fetch, execute, advance, and drop the frame
    when its instruction pointer has left its text. *)
Definition fetch : M State Instruction.t :=
  f ← top_frame;
  match (if decide (0 <= CallFrame.ip f) then CallFrame.text f !! Z.to_nat (CallFrame.ip f)
         else None) with
  | Some instruction => mret instruction
  | None => throw TypeError
  end.

Definition cycle : M State unit :=
  instruction ← fetch;
  execute instruction;;
  update_top_frame (fun f => CallFrame.set_ip (CallFrame.ip f + 1) f);;
  f ← top_frame;
  if decide (Z.of_nat (length (CallFrame.text f)) <= CallFrame.ip f) then
    modify (on_this (fun vm => set_frames (removelast (frames vm)) vm))
  else mret tt.

(** [this.frames.length > 0 && !this.syscall] *)
Definition running (vm : t) : bool :=
  negb (bool_decide (frames vm = [])) && negb (bool_decide (is_Some (syscall vm))).

(** [while (steps-- > 0 && ...) { ... }] *)
Fixpoint loop (steps : nat) : M State unit :=
  match steps with
  | O => mret tt
  | S steps' => fun s => if running (this s) then (cycle;; loop steps') s else (Ok tt, s)
  end.

(** The status [run] reports. *)
Definition status_of (vm : t) : VMStatus.t :=
  if bool_decide (is_Some (syscall vm)) then VMStatus.SYSCALL
  else if bool_decide (frames vm = []) then VMStatus.HALTED
  else VMStatus.RUNNING.

End Execute.

(** [serialize(this)]: the tree of the machine. *)
Definition plain_frame (h : Heap) (f : CallFrame.t) : Result PlainFrame.t :=
  match plain_slots h (CallFrame.stack f) with
  | Ok st => Ok (PlainFrame.mk (CallFrame.ip f) st (CallFrame.text f))
  | Throw e => Throw e
  end.

Definition plain_syscall (h : Heap) (sc : Syscall.t) : Result PlainSyscall.t :=
  match plain_slots h (Syscall.args sc) with
  | Ok l => Ok (PlainSyscall.mk (Syscall.name sc) l)
  | Throw e => Throw e
  end.

(** A global bound to [undefined] is left out of the text. *)
Fixpoint plain_globals (h : Heap) (g : list (string * Slot))
  : Result (list (string * PlainValue)) :=
  match g with
  | [] => Ok []
  | (k, None) :: rest => plain_globals h rest
  | (k, Some v) :: rest =>
      match plain h v with
      | Throw e => Throw e
      | Ok p =>
          match plain_globals h rest with
          | Throw e => Throw e
          | Ok ps => Ok ((k, p) :: ps)
          end
      end
  end.

Definition plain_vm (s : State) : Result PlainVM.t :=
  let h := heap s in
  match result_map (plain h) (data (this s)) with
  | Throw e => Throw e
  | Ok d =>
      match result_map (plain_frame h) (frames (this s)) with
      | Throw e => Throw e
      | Ok fs =>
          match plain_globals h (globals (this s)) with
          | Throw e => Throw e
          | Ok g =>
              match result_option (plain_syscall h) (syscall (this s)) with
              | Throw e => Throw e
              | Ok sc => Ok (PlainVM.mk d fs (list_to_map g) sc)
              end
          end
      end
  end.

(** [private serialize(status, syscall): VMImage] *)
Definition serialize (status : VMStatus.t) (syscall : option Syscall.t) : M State VMImage.t :=
  fun s => match plain_vm s with
           | Ok p => (Ok (VMImage.mk p status syscall), s)
           | Throw e => (Throw e, s)
           end.

(** [public run(steps: number): VMImage] for a finite number of steps. *)
Definition run (host : Host.t) (steps : nat) : M State VMImage.t :=
  loop host steps;;
  vm ← gets this;
  serialize (status_of vm) (syscall vm).

(** [run()] with the default [steps = Infinity]: the loop is left after some
    number of turns, and the image is the one [run] gives for that number. *)
Definition run_unbounded (host : Host.t) (s : State) (r : Result VMImage.t) (s' : State) : Prop :=
  exists n : nat,
    run host n s = (r, s') /\
    match loop host n s with
    | (Ok _, s1) => running (this s1) = false
    | (Throw _, _) => True
    end.

(** [deserialize(VM, text)]: the objects of the tree are built anew.  A number
    that was written [null] comes back as a Number whose payload is [null]. *)
Fixpoint unplain_value (p : PlainValue) : M Heap Value :=
  let array (l : list (option PlainValue)) : M Heap loc :=
    items ← (fix go (l : list (option PlainValue)) : M Heap (list Slot) :=
               match l with
               | [] => mret []
               | None :: rest => vs ← go rest; mret (None :: vs)
               | Some p' :: rest => v ← unplain_value p'; vs ← go rest; mret (Some v :: vs)
               end) l;
    heap_alloc (HArray items []) in
  match p with
  | PlString s => mret (VString s)
  | PlNumber (Some x) => mret (VNumber x)
  | PlNumber None => mret VNumberNull
  | PlBoolean b => mret (VBoolean b)
  | PlFunction f => r ← heap_alloc (HFunction f); mret (VFunction r)
  | PlNative k => mret (VNative k)
  | PlSyscall k => mret (VSyscall k)
  | PlTuple l => r ← array l; mret (VTuple r)
  | PlList l => r ← array l; mret (VList r)
  | PlNull => mret VNull
  end.

Fixpoint unplain_values (l : list PlainValue) : M Heap (list Value) :=
  match l with
  | [] => mret []
  | p :: rest => v ← unplain_value p; vs ← unplain_values rest; mret (v :: vs)
  end.

Fixpoint unplain_slots (l : list (option PlainValue)) : M Heap (list Slot) :=
  match l with
  | [] => mret []
  | None :: rest => vs ← unplain_slots rest; mret (None :: vs)
  | Some p :: rest => v ← unplain_value p; vs ← unplain_slots rest; mret (Some v :: vs)
  end.

Definition unplain_frame (f : PlainFrame.t) : M Heap CallFrame.t :=
  st ← unplain_slots (PlainFrame.stack f);
  mret (CallFrame.mk (PlainFrame.ip f) st (PlainFrame.text f)).

Fixpoint unplain_frames (l : list PlainFrame.t) : M Heap (list CallFrame.t) :=
  match l with
  | [] => mret []
  | f :: rest => f' ← unplain_frame f; fs ← unplain_frames rest; mret (f' :: fs)
  end.

Fixpoint unplain_globals (l : list (string * PlainValue)) : M Heap (list (string * Slot)) :=
  match l with
  | [] => mret []
  | (k, p) :: rest => v ← unplain_value p; g ← unplain_globals rest; mret ((k, Some v) :: g)
  end.

Definition unplain_vm (p : PlainVM.t) : M Heap t :=
  d ← unplain_values (PlainVM.data p);
  fs ← unplain_frames (PlainVM.frames p);
  g ← unplain_globals (map_to_list (PlainVM.globals p));
  mret (mk d fs g None).

(** [public static deserialize(image: VMImage, arg: Value): VM].  [arg] is
    [None] for [undefined]. *)
Definition deserialize (image : VMImage.t) (arg : Slot) : M Heap t :=
  vm ← unplain_vm (VMImage.state image);
  match arg with
  | Some _ =>
      if decide (VMImage.status image = VMStatus.SYSCALL) then
        match pop_last (frames vm) with
        | Some (rest, f) =>
            mret (set_frames (rest ++ [CallFrame.set_stack (CallFrame.stack f ++ [arg]) f]) vm)
        | None => throw TypeError
        end
      else mret vm
  | None => mret vm
  end.

(** [public static create(program: Program): VM] *)
Definition create (host : Host.t) (program : Program.t) : t :=
  let natives := (fun name => (name, Some (VNative name))) <$> (map_to_list (Host.natives host)).*1 in
  let syscalls := (map_to_list (Host.syscalls host)).*1 in
  mk (Program.data program)
     [CallFrame.mk 0 [] (Program.text program)]
     (foldl (fun g name => JsMap.set g name (Some (VSyscall name))) natives syscalls)
     None.

End VM.

(** ** The abstract syntax the compiler consumes

    The lexer and the parser are not part of the sources at hand; the tokens
    and the nodes are the ones [compiler.ts] names, with the fields it reads. *)

Module TokenType.
Inductive t :=
  | NUMBER | STRING | TRUE | FALSE | NULL
  | MINUS | NOT | INC | DEC | PLUS | MUL | DIV | MOD
  | EQ | NEQ | LT | LTE | GT | GTE | AND | OR
  | ASSIGN | PLUS_ASSIGN | MINUS_ASSIGN | MUL_ASSIGN | DIV_ASSIGN | MOD_ASSIGN
  | OTHER.

#[global] Instance eq_dec : EqDecision t.
Proof. solve_decision. Defined.
End TokenType.

Module Token.
Record t := mk { type : TokenType.t; value : string }.
End Token.

Module AST.
#[warnings="-register-all"]
Inductive ASTNode :=
  | Literal (value : Token.t) (lineNumber : nat)
  | Identifier (name : Token.t) (lineNumber : nat)
  | BinaryOperation (lhs : ASTNode) (op : Token.t) (rhs : ASTNode) (lineNumber : nat)
  | UnaryOperation (op : Token.t) (rand : ASTNode) (prefix : bool) (lineNumber : nat)
  | VariableAssignment (name : ASTNode) (op : Token.t) (value : ASTNode) (lineNumber : nat)
  | VariableDeclaration (name : Token.t) (value : ASTNode) (lineNumber : nat)
  | ExpressionStatement (expression : ASTNode) (lineNumber : nat)
  | Block (nodes : list ASTNode) (lineNumber : nat)
  | If (condition then_ : ASTNode) (else_ : option ASTNode) (lineNumber : nat)
  | While (condition body : ASTNode) (lineNumber : nat)
  | For (init condition update body : ASTNode) (lineNumber : nat)
  | BreakStatement (lineNumber : nat)
  | ContinueStatement (lineNumber : nat)
  | FunctionDeclaration (name : Token.t) (params : list Token.t) (body : ASTNode)
      (lineNumber : nat)
  | Return (value : option ASTNode) (lineNumber : nat)
  | Call (func : ASTNode) (args : list ASTNode) (lineNumber : nat)
  | Tuple (elements : list ASTNode) (lineNumber : nat)
  | List (elements : list ASTNode) (lineNumber : nat)
  | Subscript (name key : ASTNode) (lineNumber : nat)
  | EmptyStatement (lineNumber : nat)
  | ImportStatement (lineNumber : nat).

Definition lineNumber (node : ASTNode) : nat :=
  match node with
  | Literal _ l | Identifier _ l | BinaryOperation _ _ _ l | UnaryOperation _ _ _ l
  | VariableAssignment _ _ _ l | VariableDeclaration _ _ l | ExpressionStatement _ l
  | Block _ l | If _ _ _ l | While _ _ l | For _ _ _ _ l | BreakStatement l
  | ContinueStatement l | FunctionDeclaration _ _ _ l | Return _ l | Call _ _ l
  | Tuple _ l | List _ l | Subscript _ _ l | EmptyStatement l | ImportStatement l => l
  end.
End AST.

(** ** The compiler ([class Compiler]) *)

Module Local.
Record t := mk { name : string; depth : nat }.
End Local.

Module Compiler.
Import AST.

(** The fields of a compiler.  An instruction that is patched after it was
    emitted is known by its index in [text], which only grows. *)
Record t := mk {
  text : list Instruction.t;
  data : list Value;
  locals : list Local.t;
  depth : nat;
  breaks : list (list nat);
  continues : list (list nat) }.

Record State := mkState { heap : Heap; this : t }.

Definition on_this (f : t -> t) (s : State) : State := mkState (heap s) (f (this s)).

Definition set_text (x : list Instruction.t) (c : t) : t :=
  mk x (data c) (locals c) (depth c) (breaks c) (continues c).
Definition set_data (x : list Value) (c : t) : t :=
  mk (text c) x (locals c) (depth c) (breaks c) (continues c).
Definition set_locals (x : list Local.t) (c : t) : t :=
  mk (text c) (data c) x (depth c) (breaks c) (continues c).
Definition set_depth (x : nat) (c : t) : t :=
  mk (text c) (data c) (locals c) x (breaks c) (continues c).
Definition set_breaks (x : list (list nat)) (c : t) : t :=
  mk (text c) (data c) (locals c) (depth c) x (continues c).
Definition set_continues (x : list (list nat)) (c : t) : t :=
  mk (text c) (data c) (locals c) (depth c) (breaks c) x.

(** [constructor(ast, locals?, data?)] *)
Definition new (locals : list Local.t) (data : list Value) : t := mk [] data locals 0 [] [].

(** [private emitText(opcode, lineNumber, value?)]; the index of the
    instruction in [text]. *)
Definition emitText (opcode : Opcode.t) (lineNumber : nat) (value : option nat) : M State nat :=
  fun s => (Ok (length (text (this s))),
            on_this (fun c => set_text (text c ++ [Instruction.mk opcode lineNumber value]) c) s).

(** [this.program.data.push(constant)]; [this.program.data.length - 1]. *)
Definition pushData (constant : Value) : M State nat :=
  fun s => (Ok (length (data (this s))), on_this (fun c => set_data (data c ++ [constant]) c) s).

(** [instruction.value = target] for the instruction at [index]. *)
Definition patch (index target : nat) : M State unit :=
  modify (on_this (fun c =>
    set_text (alter (fun i => Instruction.mk (Instruction.type i) (Instruction.lineNumber i)
                                (Some target)) index (text c)) c)).

Fixpoint patch_all (indices : list nat) (target : nat) : M State unit :=
  match indices with
  | [] => mret tt
  | i :: rest => patch i target;; patch_all rest target
  end.

(** [this.locals.findIndex(local => local.name === name)] *)
Fixpoint findIndex (locals : list Local.t) (name : string) : option nat :=
  match locals with
  | [] => None
  | l :: rest => if decide (Local.name l = name) then Some 0%nat else S <$> findIndex rest name
  end.

(** The last index at which [name] stands in [locals]: the loop of
    [loadVariable], from the innermost local outwards. *)
Fixpoint findLastIndex (locals : list Local.t) (name : string) : option nat :=
  match locals with
  | [] => None
  | l :: rest =>
      match findLastIndex rest name with
      | Some i => Some (S i)
      | None => if decide (Local.name l = name) then Some 0%nat else None
      end
  end.

(** [private loadVariable(name, node)] *)
Definition loadVariable (name : string) (lineNumber : nat) : M State unit :=
  ls ← gets (fun s => locals (this s));
  match findLastIndex ls name with
  | Some i => emitText Opcode.LOAD lineNumber (Some i);; mret tt
  | None =>
      k ← pushData (VString name);
      emitText Opcode.LOADGL lineNumber (Some k);; mret tt
  end.

(** [private declareVariable(name, node)] *)
Definition declareVariable (name : string) (lineNumber : nat) : M State unit :=
  d ← gets (fun s => depth (this s));
  if decide (d = 0%nat) then
    k ← pushData (VString name);
    emitText Opcode.DECLAREGL lineNumber (Some k);; mret tt
  else
    ls ← gets (fun s => locals (this s));
    match findIndex ls name with
    | None => modify (on_this (fun c => set_locals (locals c ++ [Local.mk name d]) c))
    | Some _ => throw (VariableAlreadyDeclaredInScope lineNumber name)
    end.

(** [private assignVariable(name, node)] *)
Definition assignVariable (name : string) (lineNumber : nat) : M State unit :=
  d ← gets (fun s => depth (this s));
  ls ← gets (fun s => locals (this s));
  match (if decide (d = 0%nat) then None else findIndex ls name) with
  | None =>
      k ← pushData (VString name);
      emitText Opcode.SETGL lineNumber (Some k);; mret tt
  | Some index => emitText Opcode.STORE lineNumber (Some index);; mret tt
  end.

(** The loop at the end of [block]: one [POP] for every local that is deeper
    than the depth the block leaves. *)
Fixpoint popLocals (n : nat) (lineNumber : nat) : M State unit :=
  match n with
  | O => mret tt
  | S n' =>
      d ← gets (fun s => depth (this s));
      ls ← gets (fun s => locals (this s));
      match pop_last ls with
      | Some (rest, l) =>
          if decide (Local.depth l <= d)%nat then mret tt
          else
            emitText Opcode.POP lineNumber None;;
            modify (on_this (set_locals rest));;
            popLocals n' lineNumber
      | None => mret tt
      end
  end.

(** [this.breaks.push([])] and [this.breaks.pop()], and the same for
    [continues]. *)
Definition enterLoop : M State unit :=
  modify (on_this (fun c => set_continues (continues c ++ [[]]) (set_breaks (breaks c ++ [[]]) c))).

Definition leaveLoop : M State (list nat * list nat) :=
  fun s => match pop_last (breaks (this s)), pop_last (continues (this s)) with
           | Some (bs, b), Some (cs, c) =>
               (Ok (b, c), on_this (fun x => set_continues cs (set_breaks bs x)) s)
           | _, _ => (Throw TypeError, s)
           end.

(** The opcode of a binary operator. *)
Definition binaryOpcode (type : TokenType.t) : option Opcode.t :=
  match type with
  | TokenType.PLUS => Some Opcode.ADD
  | TokenType.MINUS => Some Opcode.SUB
  | TokenType.MUL => Some Opcode.MUL
  | TokenType.DIV => Some Opcode.DIV
  | TokenType.EQ => Some Opcode.EQ
  | TokenType.NEQ => Some Opcode.NEQ
  | TokenType.LT => Some Opcode.LT
  | TokenType.LTE => Some Opcode.LTE
  | TokenType.GT => Some Opcode.GT
  | TokenType.GTE => Some Opcode.GTE
  | TokenType.AND => Some Opcode.AND
  | TokenType.OR => Some Opcode.OR
  | TokenType.MOD => Some Opcode.MOD
  | _ => None
  end.

Definition unaryOpcode (type : TokenType.t) : option Opcode.t :=
  match type with
  | TokenType.MINUS => Some Opcode.NEG
  | TokenType.NOT => Some Opcode.NOT
  | TokenType.INC => Some Opcode.INC
  | TokenType.DEC => Some Opcode.DEC
  | _ => None
  end.

(** The instruction of a compound assignment; [+=] is [ADD] with operand 1. *)
Definition assignOpcode (type : TokenType.t) : option (Opcode.t * option nat) :=
  match type with
  | TokenType.PLUS_ASSIGN => Some (Opcode.ADD, Some 1%nat)
  | TokenType.MINUS_ASSIGN => Some (Opcode.SUB, None)
  | TokenType.MUL_ASSIGN => Some (Opcode.MUL, None)
  | TokenType.DIV_ASSIGN => Some (Opcode.DIV, None)
  | TokenType.MOD_ASSIGN => Some (Opcode.MOD, None)
  | _ => None
  end.

Section Codegen.
(** [parseFloat] of JavaScript. *)
Variable parseFloat : string -> float.

(** [private literal(node)]: the constant of a literal token. *)
Definition constant (token : Token.t) : option Value :=
  match Token.type token with
  | TokenType.NUMBER => Some (VNumber (parseFloat (Token.value token)))
  | TokenType.STRING => Some (VString (Token.value token))
  | TokenType.TRUE => Some (VBoolean true)
  | TokenType.FALSE => Some (VBoolean false)
  | TokenType.NULL => Some VNull
  | _ => None
  end.

(** [private codegen(node)] with the methods it dispatches to. *)
Fixpoint codegen (node : ASTNode) : M State unit :=
  let each := fix each (nodes : list ASTNode) : M State unit :=
    match nodes with
    | [] => mret tt
    | child :: rest => codegen child;; each rest
    end in
  match node with
  | Literal value line =>
      match constant value with
      | Some c => k ← pushData c; emitText Opcode.DATA line (Some k);; mret tt
      | None => throw CompilerBug
      end
  | Call func args line =>
      codegen func;;
      each args;;
      emitText Opcode.CALL line (Some (length args));; mret tt
  | Return value line =>
      match value with
      | Some v => codegen v;; emitText Opcode.RET line (Some 1%nat);; mret tt
      | None => emitText Opcode.RET line (Some 0%nat);; mret tt
      end
  | Identifier name line => loadVariable (Token.value name) line
  | BinaryOperation lhs op rhs line =>
      codegen lhs;;
      codegen rhs;;
      match binaryOpcode (Token.type op) with
      | Some opcode => emitText opcode line None;; mret tt
      | None => throw CompilerBug
      end
  | UnaryOperation op rand prefix line =>
      match unaryOpcode (Token.type op) with
      | None => throw CompilerBug
      | Some opcode =>
          if bool_decide (opcode = Opcode.INC \/ opcode = Opcode.DEC) then
            match rand with
            | Identifier name _ =>
                loadVariable (Token.value name) line;;
                (if prefix then mret tt else emitText Opcode.COPY line None;; mret tt);;
                emitText opcode line None;;
                assignVariable (Token.value name) line;;
                (if prefix then mret tt else emitText Opcode.POP line None;; mret tt)
            | _ => throw (SyntaxError line)
            end
          else
            codegen rand;;
            emitText opcode line None;; mret tt
      end
  | VariableAssignment name op value line =>
      (if decide (Token.type op = TokenType.ASSIGN) then mret tt else codegen name);;
      codegen value;;
      (if decide (Token.type op = TokenType.ASSIGN) then mret tt
       else match assignOpcode (Token.type op) with
            | Some (opcode, operand) => emitText opcode line operand;; mret tt
            | None => throw CompilerBug
            end);;
      match name with
      | Identifier id _ => assignVariable (Token.value id) line
      | Subscript container key line' =>
          codegen container;;
          codegen key;;
          emitText Opcode.STORE_SUBSCRIPT line' None;; mret tt
      | _ => throw (SyntaxError line)
      end
  | VariableDeclaration name value line =>
      codegen value;;
      declareVariable (Token.value name) line
  | Block nodes line =>
      modify (on_this (fun c => set_depth (S (depth c)) c));;
      each nodes;;
      modify (on_this (fun c => set_depth (pred (depth c)) c));;
      n ← gets (fun s => length (locals (this s)));
      popLocals n line
  | If condition then_ else_ line =>
      codegen condition;;
      jumpf ← emitText Opcode.JUMPF line None;
      codegen then_;;
      after_then ← gets (fun s => length (text (this s)));
      patch jumpf after_then;;
      match else_ with
      | Some e =>
          jump ← emitText Opcode.JUMP line None;
          patch jumpf (S after_then);;
          codegen e;;
          after_else ← gets (fun s => length (text (this s)));
          patch jump after_else
      | None => mret tt
      end
  | While condition body line =>
      enterLoop;;
      start ← gets (fun s => length (text (this s)));
      codegen condition;;
      jumpf ← emitText Opcode.JUMPF line None;
      codegen body;;
      emitText Opcode.JUMP line (Some start);;
      exit ← gets (fun s => length (text (this s)));
      patch jumpf exit;;
      '(bs, cs) ← leaveLoop;
      patch_all bs exit;;
      patch_all cs start
  | For init condition update body line =>
      enterLoop;;
      codegen init;;
      start ← gets (fun s => length (text (this s)));
      codegen condition;;
      jumpf ← emitText (match condition with
                        | EmptyStatement _ => Opcode.NOP
                        | _ => Opcode.JUMPF
                        end) line None;
      codegen body;;
      updateStart ← gets (fun s => length (text (this s)));
      codegen update;;
      emitText Opcode.JUMP line (Some start);;
      exit ← gets (fun s => length (text (this s)));
      patch jumpf exit;;
      '(bs, cs) ← leaveLoop;
      patch_all bs exit;;
      patch_all cs updateStart
  | FunctionDeclaration name params body line =>
      let args := Token.value <$> params in
      let fname := Token.value name in
      fun s =>
        let r := length (heap s) in
        let h := heap s ++ [HFunction (Function.mk fname args [])] in
        let d := data (this s) ++ [VFunction r] in
        let index := length (data (this s)) in
        let inner_locals := Local.mk fname 0 :: ((fun a => Local.mk a 1) <$> args) in
        match codegen body (mkState h (new inner_locals d)) with
        | (Throw e, inner) => (Throw e, mkState (heap inner) (set_data (data (this inner)) (this s)))
        | (Ok _, inner) =>
            let fbody := text (this inner) ++ [Instruction.mk Opcode.RET line (Some 0%nat)] in
            let h' := <[r := HFunction (Function.mk fname args fbody)]> (heap inner) in
            (emitText Opcode.DATA line (Some index);;
             declareVariable fname line)
              (mkState h' (set_data (data (this inner)) (this s)))
        end
  | ExpressionStatement expression line =>
      codegen expression;;
      emitText Opcode.POP line None;; mret tt
  | EmptyStatement line => emitText Opcode.NOP line None;; mret tt
  | BreakStatement line =>
      bs ← gets (fun s => breaks (this s));
      match pop_last bs with
      | None => throw (SyntaxError line)
      | Some (outer, innermost) =>
          instruction ← emitText Opcode.JUMP line None;
          modify (on_this (set_breaks (outer ++ [innermost ++ [instruction]])))
      end
  | ContinueStatement line =>
      cs ← gets (fun s => continues (this s));
      match pop_last cs with
      | None => throw (SyntaxError line)
      | Some (outer, innermost) =>
          instruction ← emitText Opcode.JUMP line None;
          modify (on_this (set_continues (outer ++ [innermost ++ [instruction]])))
      end
  | Tuple elements line =>
      each elements;;
      emitText Opcode.MAKE_TUPLE line (Some (length elements));; mret tt
  | List elements line =>
      each elements;;
      emitText Opcode.MAKE_LIST line (Some (length elements));; mret tt
  | Subscript name key line =>
      codegen name;;
      codegen key;;
      emitText Opcode.SUBSCRIPT line None;; mret tt
  | ImportStatement _ => throw CompilerBug
  end.

(** [public run(): Program] *)
Fixpoint run_nodes (ast : list ASTNode) : M State unit :=
  match ast with
  | [] => mret tt
  | node :: rest => codegen node;; run_nodes rest
  end.

Definition run (ast : list ASTNode) : M State Program.t :=
  run_nodes ast;;
  c ← gets this;
  mret (Program.mk (text c) (data c)).

(** The program of a syntax tree, compiled by a new compiler on heap [h]. *)
Definition compile (ast : list ASTNode) (h : Heap) : Result Program.t * Heap :=
  let '(r, s) := run ast (mkState h (new [] [])) in (r, heap s).

End Codegen.
End Compiler.

(** ** Notions used to state the properties *)

(** The state of a machine whose innermost frame is [(ip, stack, text)], above
    the frames [rest]. *)
Definition machine (h : Heap) (d : list Value) (rest : list CallFrame.t)
    (ip : Z) (stack : list Slot) (text : list Instruction.t)
    (g : list (string * Slot)) (sc : option Syscall.t) : VM.State :=
  VM.mkState h (VM.mk d (rest ++ [CallFrame.mk ip stack text]) g sc).

(** Equality as the specification words it: the same tag, and payloads that
    are equal as data, element by element for Tuples and Lists.  [fuel] bounds
    the nesting. *)
Fixpoint structurally_equal (fuel : nat) (h : Heap) (a b : Value) : bool :=
  match fuel with
  | O => false
  | S fuel' =>
      let elements (r r' : loc) : bool :=
        match h !! r, h !! r' with
        | Some (HArray xs _), Some (HArray ys _) =>
            bool_decide (length xs = length ys)
            && forallb (fun p => match p with
                                 | (Some x, Some y) => structurally_equal fuel' h x y
                                 | (None, None) => true
                                 | _ => false
                                 end) (zip xs ys)
        | _, _ => false
        end in
      match a, b with
      | VString s, VString s' => bool_decide (s = s')
      | VNumber x, VNumber y => PrimFloat.eqb x y
      | VNumberNull, VNumberNull => true
      | VBoolean x, VBoolean y => bool_decide (x = y)
      | VFunction r, VFunction r' =>
          match h !! r, h !! r' with
          | Some (HFunction f), Some (HFunction f') => bool_decide (f = f')
          | _, _ => false
          end
      | VNative k, VNative k' => bool_decide (k = k')
      | VSyscall k, VSyscall k' => bool_decide (k = k')
      | VTuple r, VTuple r' => elements r r'
      | VList r, VList r' => elements r r'
      | VNull, VNull => true
      | _, _ => false
      end
  end.

(** Equality as [===] decides it on two values of one tag: equal text, numbers
    that are equal as doubles, equal truth values, and for a Tuple, a List or a
    Function the very same object. *)
Inductive identical : Value -> Value -> Prop :=
  | identical_string (s : string) : identical (VString s) (VString s)
  | identical_number (x y : float) : PrimFloat.eqb x y = true -> identical (VNumber x) (VNumber y)
  | identical_number_null : identical VNumberNull VNumberNull
  | identical_boolean (b : bool) : identical (VBoolean b) (VBoolean b)
  | identical_function (r : loc) : identical (VFunction r) (VFunction r)
  | identical_native (k : string) : identical (VNative k) (VNative k)
  | identical_syscall (k : string) : identical (VSyscall k) (VSyscall k)
  | identical_tuple (r : loc) : identical (VTuple r) (VTuple r)
  | identical_list (r : loc) : identical (VList r) (VList r)
  | identical_null : identical VNull VNull.

(** A local of the name was declared at the depth the compiler is at: in the
    same scope, since the locals of a block are dropped when it ends. *)
Definition declared_in_same_scope (c : Compiler.t) (name : string) : bool :=
  existsb (fun l => bool_decide (Local.name l = name /\ Local.depth l = Compiler.depth c))
    (Compiler.locals c).

(** A local of the name is in the list of locals, at whatever depth. *)
Definition declared_in_locals (c : Compiler.t) (name : string) : bool :=
  existsb (fun l => bool_decide (Local.name l = name)) (Compiler.locals c).

(** A host, programs and a syntax tree to run the definitions on. *)
Module Sample.

Definition preprocessor : list Slot -> nat -> M Heap (list Slot) := fun args _ => mret args.

Definition host : Host.t :=
  Host.mk
    (list_to_map [("print"%string, NativeInfo.mk 1 (fun _ _ => mret (Some VNull)))])
    (list_to_map [("syscall"%string, SyscallInfo.mk "syscall" preprocessor);
                  ("input"%string, SyscallInfo.mk "input" preprocessor)]).

(** [parseFloat] on a string of decimal digits. *)
Fixpoint digits (s : string) (acc : float) : float :=
  match s with
  | EmptyString => acc
  | String c rest =>
      digits rest (acc * 10 + JsNumber.of_nat (Ascii.nat_of_ascii c - 48))%float
  end.

Definition parseFloat (s : string) : float := digits s 0%float.

Definition number (s : string) : AST.ASTNode := AST.Literal (Token.mk TokenType.NUMBER s) 1.
Definition text (s : string) : AST.ASTNode := AST.Literal (Token.mk TokenType.STRING s) 1.
Definition name (s : string) : Token.t := Token.mk TokenType.OTHER s.
Definition op (t : TokenType.t) : Token.t := Token.mk t "".

(** [{ let a = 1; { let a = 2; } }] *)
Definition shadowing : list AST.ASTNode :=
  [AST.Block
     [AST.VariableDeclaration (name "a") (number "1") 1;
      AST.Block [AST.VariableDeclaration (name "a") (number "2") 2] 2] 1].

(** [return;] at the top level *)
Definition top_level_return : Program.t :=
  Program.mk [Instruction.mk Opcode.RET 1 (Some 0%nat)] [].

(** A program whose last instruction calls the syscall [input]. *)
Definition trap_at_end : Program.t :=
  Program.mk [Instruction.mk Opcode.DATA 1 (Some 0%nat);
              Instruction.mk Opcode.CALL 1 (Some 0%nat)]
             [VSyscall "input"].

(** [input();] as the compiler emits it: the call is followed by a [POP]. *)
Definition trap_then_pop : Program.t :=
  Program.mk [Instruction.mk Opcode.LOADGL 1 (Some 0%nat);
              Instruction.mk Opcode.CALL 1 (Some 0%nat);
              Instruction.mk Opcode.POP 1 None]
             [VString "input"].


(** The machine of [trap_then_pop] and of [trap_at_end] after the two turns
    that take it to the trap. *)
Definition trapped : VM.State :=
  (VM.loop host 2 (VM.mkState [] (VM.create host trap_then_pop))).2.

Definition trapped_at_end : VM.State :=
  (VM.loop host 2 (VM.mkState [] (VM.create host trap_at_end))).2.

(** The machine of [trap_then_pop] before its first step, and the image
    [run] returns for a machine. *)
Definition fresh : VM.State := VM.mkState [] (VM.create host trap_then_pop).

Definition image_of (s : VM.State) : VMImage.t :=
  match (VM.run host 0 s).1 with
  | Ok image => image
  | Throw _ => VMImage.mk (PlainVM.mk [] [] ∅ None) VMStatus.ERROR None
  end.





End Sample.

(** The states a machine goes through: it is created from a program or
    rebuilt from an image, and each turn of the loop of [run] takes it from a
    state to the next, also when the turn ends in an exception. *)
Inductive reachable (host : Host.t) : VM.State -> Prop :=
  | reachable_create (h : Heap) (program : Program.t) :
      reachable host (VM.mkState h (VM.create host program))
  | reachable_deserialize (image : VMImage.t) (arg : Slot) (h h' : Heap) (vm : VM.t) :
      VM.deserialize image arg h = (Ok vm, h') ->
      reachable host (VM.mkState h' vm)
  | reachable_cycle (s s' : VM.State) (r : Result unit) :
      reachable host s ->
      VM.running (VM.this s) = true ->
      VM.cycle host s = (r, s') ->
      reachable host s'.

(** The instruction before the instruction pointer of a frame is a [CALL]. *)
Definition after_call (f : CallFrame.t) : Prop :=
  exists i : Instruction.t,
    0 <= CallFrame.ip f - 1
    /\ CallFrame.text f !! Z.to_nat (CallFrame.ip f - 1) = Some i
    /\ Instruction.type i = Opcode.CALL.

(** A computation that leaves the pending syscall as it is. *)
Definition keeps_syscall {A : Type} (c : M VM.State A) : Prop :=
  forall (s s' : VM.State) (r : Result A),
    c s = (r, s') -> VM.syscall (VM.this s') = VM.syscall (VM.this s).

(** A computation that changes nothing of the frames but the stack of the
    innermost one, and leaves the pending syscall as it is. *)
Definition keeps_frames {A : Type} (c : M VM.State A) : Prop :=
  forall (s s' : VM.State) (r : Result A),
    c s = (r, s') ->
    VM.syscall (VM.this s') = VM.syscall (VM.this s)
    /\ forall (rest : list CallFrame.t) (f : CallFrame.t),
         VM.frames (VM.this s) = rest ++ [f] ->
         exists st : list Slot,
           VM.frames (VM.this s') = rest ++ [CallFrame.set_stack st f].










(** A computation that leaves the constants of the machine as they are and
    takes no name away from the globals. *)
Definition keeps_names {A : Type} (c : M VM.State A) : Prop :=
  forall (s s' : VM.State) (r : Result A),
    c s = (r, s') ->
    VM.data (VM.this s') = VM.data (VM.this s)
    /\ forall id : string,
         JsMap.has (VM.globals (VM.this s)) id = true ->
         JsMap.has (VM.globals (VM.this s')) id = true.

(** The state of a frame that goes on at [target]: the frame is dropped when
    [target] is past its last instruction, as the loop of [run] does after
    each instruction. *)
Definition goes_on_at (target : Z) (h : Heap) (d : list Value) (rest : list CallFrame.t)
    (stack : list Slot) (text : list Instruction.t) (g : list (string * Slot))
    (sc : option Syscall.t) : VM.State :=
  if decide (Z.of_nat (length text) <= target)
  then VM.mkState h (VM.mk d rest g sc)
  else machine h d rest target stack text g sc.

(** How many nodes a syntax tree has. *)
Fixpoint node_size (node : AST.ASTNode) : nat :=
  match node with
  | AST.Literal _ _ | AST.Identifier _ _ | AST.BreakStatement _ | AST.ContinueStatement _
  | AST.EmptyStatement _ | AST.ImportStatement _ => 1
  | AST.BinaryOperation lhs _ rhs _ => S (node_size lhs + node_size rhs)
  | AST.UnaryOperation _ rand _ _ => S (node_size rand)
  | AST.VariableAssignment name _ value _ => S (node_size name + node_size value)
  | AST.VariableDeclaration _ value _ => S (node_size value)
  | AST.ExpressionStatement expression _ => S (node_size expression)
  | AST.Block nodes _ => S (list_sum (List.map node_size nodes))
  | AST.If condition then_ else_ _ =>
      S (node_size condition + node_size then_
         + match else_ with Some e => node_size e | None => 0 end)
  | AST.While condition body _ => S (node_size condition + node_size body)
  | AST.For init condition update body _ =>
      S (node_size init + node_size condition + node_size update + node_size body)
  | AST.FunctionDeclaration _ _ body _ => S (node_size body)
  | AST.Return value _ => S (match value with Some v => node_size v | None => 0 end)
  | AST.Call func args _ => S (node_size func + list_sum (List.map node_size args))
  | AST.Tuple elements _ | AST.List elements _ => S (list_sum (List.map node_size elements))
  | AST.Subscript name key _ => S (node_size name + node_size key)
  end.

(** A computation of the compiler keeps a property of its state, however it
    ends; and started in a state with property [P], when it ends without an
    exception it returns a value and a state with property [Q]. *)
Definition stable {A : Type} (I : Compiler.State -> Prop) (c : M Compiler.State A) : Prop :=
  forall (s s' : Compiler.State) (r : Result A), I s -> c s = (r, s') -> I s'.

Definition establishes {A : Type} (P : Compiler.State -> Prop) (c : M Compiler.State A)
    (Q : A -> Compiler.State -> Prop) : Prop :=
  forall (s s' : Compiler.State) (a : A), P s -> c s = (Ok a, s') -> Q a s'.

(** The instructions of [t] are in [t'] at their indices, up to their
    operands: what patching leaves of an instruction. *)
Definition same_opcodes (t t' : list Instruction.t) : Prop :=
  forall (i : nat) (x : Instruction.t),
    t !! i = Some x ->
    exists y : Instruction.t,
      t' !! i = Some y
      /\ Instruction.type y = Instruction.type x
      /\ Instruction.lineNumber y = Instruction.lineNumber x.

(** The state of a compiler holds the constants [d0], the objects [h0] and the
    instructions [t0] where they were. *)
Definition grown_from (d0 : list Value) (h0 : Heap) (t0 : list Instruction.t)
    (s : Compiler.State) : Prop :=
  d0 `prefix_of` Compiler.data (Compiler.this s)
  /\ h0 `prefix_of` Compiler.heap s
  /\ same_opcodes t0 (Compiler.text (Compiler.this s)).

(** The compiler that [function] makes for the body of a declaration, with
    the Function object it has put among the constants, and the state of the
    declaring compiler once the body is compiled: the constants are shared,
    and the Function object has received its body. *)
Definition function_compiler (name : Token.t) (params : list Token.t) (s : Compiler.State)
  : Compiler.State :=
  Compiler.mkState
    (Compiler.heap s ++ [HFunction (Function.mk (Token.value name) (Token.value <$> params) [])])
    (Compiler.new
       (Local.mk (Token.value name) 0
        :: ((fun a => Local.mk a 1) <$> (Token.value <$> params)))
       (Compiler.data (Compiler.this s) ++ [VFunction (length (Compiler.heap s))])).

Definition function_compiled (name : Token.t) (params : list Token.t) (line : nat)
    (s inner : Compiler.State) : Compiler.State :=
  Compiler.mkState
    (<[length (Compiler.heap s) :=
         HFunction (Function.mk (Token.value name) (Token.value <$> params)
                      (Compiler.text (Compiler.this inner)
                       ++ [Instruction.mk Opcode.RET line (Some 0%nat)]))]>
       (Compiler.heap inner))
    (Compiler.set_data (Compiler.data (Compiler.this inner)) (Compiler.this s)).

(** No two locals of a compiler have one name. *)
Definition unique_names (s : Compiler.State) : Prop :=
  NoDup (Local.name <$> Compiler.locals (Compiler.this s)).

(** The state of a compiler that has emitted one more instruction. *)
Definition emitted (opcode : Opcode.t) (line : nat) (value : option nat) (s : Compiler.State)
  : Compiler.State :=
  Compiler.on_this (fun c => Compiler.set_text
    (Compiler.text c ++ [Instruction.mk opcode line value]) c) s.

(** Where a compiler stands: at depth [d], inside [nb] loops that collect
    breaks and [nc] that collect continues, with the locals [ls0] followed by
    locals of depth [d], of which there are none at depth 0. *)
Definition scoped (ls0 : list Local.t) (d nb nc : nat) (s : Compiler.State) : Prop :=
  Compiler.depth (Compiler.this s) = d
  /\ length (Compiler.breaks (Compiler.this s)) = nb
  /\ length (Compiler.continues (Compiler.this s)) = nc
  /\ exists new : list Local.t,
       Compiler.locals (Compiler.this s) = ls0 ++ new
       /\ Forall (fun l => Local.depth l = d) new
       /\ (d = 0%nat -> new = []).

(** How deep a compiler is in blocks and in loops. *)
Definition nested (d nb nc : nat) (s : Compiler.State) : Prop :=
  Compiler.depth (Compiler.this s) = d
  /\ length (Compiler.breaks (Compiler.this s)) = nb
  /\ length (Compiler.continues (Compiler.this s)) = nc.

(** The opcodes whose operand is an index of the text. *)
Definition jump_opcode (opcode : Opcode.t) : bool :=
  match opcode with
  | Opcode.JUMP | Opcode.JUMPF | Opcode.JUMPT => true
  | _ => false
  end.

(** Every jump of a text has a target, and the target is an index of the text
    or the index after its last instruction, where the frame ends. *)
Definition jumps_patched (text : list Instruction.t) : Prop :=
  forall (i : nat) (x : Instruction.t),
    text !! i = Some x ->
    jump_opcode (Instruction.type x) = true ->
    exists t : nat, Instruction.value x = Some t /\ (t <= length text)%nat.

Definition functions_patched (h : Heap) : Prop :=
  forall (r : loc) (f : Function.t),
    h !! r = Some (HFunction f) -> jumps_patched (Function.body f).

(** The jumps of a compiler at work: a jump has a target within the text, or
    it waits for its target, as one of the instructions [extra] that the
    method at work holds or as a break or a continue of a loop that is open. *)
Definition jumps_pending (extra : list nat) (s : Compiler.State) : Prop :=
  forall (i : nat) (x : Instruction.t),
    Compiler.text (Compiler.this s) !! i = Some x ->
    jump_opcode (Instruction.type x) = true ->
    match Instruction.value x with
    | Some t => (t <= length (Compiler.text (Compiler.this s)))%nat
    | None =>
        i ∈ extra
        \/ (exists l, l ∈ Compiler.breaks (Compiler.this s) /\ i ∈ l)
        \/ (exists l, l ∈ Compiler.continues (Compiler.this s) /\ i ∈ l)
    end.

(** The state of a compiler that has patched an instruction. *)
Definition patched (index target : nat) (s : Compiler.State) : Compiler.State :=
  Compiler.on_this (fun c =>
    Compiler.set_text
      (alter (fun i => Instruction.mk (Instruction.type i) (Instruction.lineNumber i)
                         (Some target)) index (Compiler.text c)) c) s.

(** The functions on the heap of a compiler have their jumps patched. *)
Definition heap_patched (s : Compiler.State) : Prop := functions_patched (Compiler.heap s).

(** * Properties *)

(** ** Arithmetic of the model on sample numbers *)

Example to_integer_3 : JsNumber.to_integer 3%float = Some 3.
Proof. reflexivity. Qed.

Example to_integer_half : JsNumber.to_integer 0.5%float = None.
Proof. reflexivity. Qed.

Example of_nat_3 : JsNumber.of_nat 3 = 3%float.
Proof. reflexivity. Qed.

Example array_index_negative : JsNumber.array_index (-1)%float = None.
Proof. reflexivity. Qed.

Example rem_7_3 : JsNumber.rem 7%float 3%float = 1%float.
Proof. reflexivity. Qed.

Example rem_negative : JsNumber.rem (-7.5)%float 2%float = (-1.5)%float.
Proof. reflexivity. Qed.

Example rem_by_zero : PrimFloat.is_nan (JsNumber.rem 7%float 0%float) = true.
Proof. reflexivity. Qed.

Example js_set_grows :
  js_set [Some VNull] 3 (Some (VBoolean true)) = [Some VNull; None; None; Some (VBoolean true)].
Proof. reflexivity. Qed.

(** ** Arrays and maps *)

Section ArrayFacts.
Context {A : Type}.

Lemma pop_last_snoc (l : list A) (x : A) : pop_last (l ++ [x]) = Some (l, x).
Proof. induction l as [|y l IH]; simpl; [reflexivity | rewrite IH; reflexivity]. Qed.

Lemma pop_last_Some (l r : list A) (x : A) : pop_last l = Some (r, x) -> l = r ++ [x].
Proof.
  revert r. induction l as [|y l IH]; simpl; intros r H; [discriminate|].
  destruct (pop_last l) as [[r' z]|] eqn:E.
  - inversion H; subst. rewrite (IH r' eq_refl). reflexivity.
  - destruct l; [inversion H; reflexivity|].
    simpl in E. destruct (pop_last l) as [[? ?]|]; discriminate.
Qed.

Lemma pop_last_None (l : list A) : pop_last l = None -> l = [].
Proof.
  destruct l as [|y l]; [reflexivity|]. simpl.
  destruct (pop_last l) as [[? ?]|]; discriminate.
Qed.
End ArrayFacts.

Lemma js_get_set (l : list Slot) (i : nat) (v : Slot) : js_get (js_set l i v) i = v.
Proof.
  unfold js_get, js_set. destruct (decide (i < length l)%nat) as [Hlt|Hge].
  - rewrite list_lookup_insert_eq by exact Hlt. reflexivity.
  - rewrite lookup_app_r by lia.
    rewrite list_lookup_middle by (rewrite length_replicate; reflexivity). reflexivity.
Qed.

Lemma JsMap_get_set {V : Type} (m : list (string * V)) (k k' : string) (v : V) :
  JsMap.get (JsMap.set m k v) k' = if decide (k = k') then Some v else JsMap.get m k'.
Proof.
  induction m as [|[k0 v0] m IH]; simpl.
  - destruct (decide (k = k')); reflexivity.
  - destruct (decide (k0 = k)) as [->|Hne]; simpl.
    + destruct (decide (k = k')); reflexivity.
    + rewrite IH. destruct (decide (k0 = k')) as [->|]; [|reflexivity].
      destruct (decide (k = k')); [congruence | reflexivity].
Qed.

(** ** Running a computation step by step *)

Section Steps.
Context {S A B : Type}.

Lemma bind_ok (c : M S A) (k : A -> M S B) (s s' : S) (a : A) :
  c s = (Ok a, s') -> (c ≫= k) s = k a s'.
Proof. intros H. unfold mbind, M_bind, bind. rewrite H. reflexivity. Qed.

Lemma bind_throw (c : M S A) (k : A -> M S B) (s s' : S) (e : Error) :
  c s = (Throw e, s') -> (c ≫= k) s = (Throw e, s').
Proof. intros H. unfold mbind, M_bind, bind. rewrite H. reflexivity. Qed.

Lemma ret_bind (a : A) (k : A -> M S B) (s : S) : (mret a ≫= k) s = k a s.
Proof. reflexivity. Qed.

Lemma bind_inv (c : M S A) (k : A -> M S B) (s s' : S) (r : Result B) :
  (c ≫= k) s = (r, s') ->
  (exists a s1, c s = (Ok a, s1) /\ k a s1 = (r, s'))
  \/ (exists e, c s = (Throw e, s') /\ r = Throw e).
Proof.
  unfold mbind, M_bind, bind. destruct (c s) as [[a|e] s1]; intros H.
  - left. eauto.
  - right. inversion H; subst. eauto.
Qed.
End Steps.

(** The primitives of the machine on a state given by its innermost frame. *)
Section Machine.
Variables (h : Heap) (d : list Value) (rest : list CallFrame.t) (ip : Z)
  (text : list Instruction.t) (g : list (string * Slot)) (sc : option Syscall.t).

Lemma top_frame_machine (st : list Slot) :
  VM.top_frame (machine h d rest ip st text g sc)
  = (Ok (CallFrame.mk ip st text), machine h d rest ip st text g sc).
Proof. unfold VM.top_frame, machine. cbn. rewrite pop_last_snoc. reflexivity. Qed.

Lemma update_top_frame_machine (st : list Slot) (f : CallFrame.t -> CallFrame.t) :
  VM.update_top_frame f (machine h d rest ip st text g sc)
  = (Ok tt, VM.mkState h (VM.mk d (rest ++ [f (CallFrame.mk ip st text)]) g sc)).
Proof. unfold VM.update_top_frame, machine. cbn. rewrite pop_last_snoc. reflexivity. Qed.

Lemma push_machine (st : list Slot) (v : Slot) :
  VM.push v (machine h d rest ip st text g sc)
  = (Ok tt, machine h d rest ip (st ++ [v]) text g sc).
Proof. unfold VM.push. rewrite update_top_frame_machine. reflexivity. Qed.

Lemma pop_machine (st : list Slot) (v : Slot) :
  VM.pop (machine h d rest ip (st ++ [v]) text g sc)
  = (Ok v, machine h d rest ip st text g sc).
Proof.
  unfold VM.pop. rewrite (bind_ok _ _ _ _ _ (top_frame_machine _)). cbn.
  rewrite pop_last_snoc. rewrite (bind_ok _ _ _ _ _ (update_top_frame_machine _ _)).
  reflexivity.
Qed.

Lemma pop_machine_empty :
  VM.pop (machine h d rest ip [] text g sc)
  = (Throw CompilerBug, machine h d rest ip [] text g sc).
Proof. unfold VM.pop. rewrite (bind_ok _ _ _ _ _ (top_frame_machine _)). reflexivity. Qed.

Lemma pop_args_machine (args : list Slot) (st acc : list Slot) :
  VM.pop_args (length args) acc (machine h d rest ip (st ++ args) text g sc)
  = (Ok (args ++ acc), machine h d rest ip st text g sc).
Proof.
  revert acc. induction args as [|x args IH] using rev_ind; intros acc.
  - rewrite app_nil_r. reflexivity.
  - rewrite length_app, Nat.add_comm. simpl. rewrite app_assoc.
    rewrite (bind_ok _ _ _ _ _ (pop_machine _ _)). rewrite IH, <- app_assoc. reflexivity.
Qed.

Lemma read_array_machine (st : list Slot) (r : loc) (items : list Slot)
    (props : list (option float * Slot)) :
  h !! r = Some (HArray items props) ->
  VM.read_array r (machine h d rest ip st text g sc)
  = (Ok (items, props), machine h d rest ip st text g sc).
Proof. intros H. unfold VM.read_array, machine. cbn. rewrite H. reflexivity. Qed.

Lemma read_function_machine (st : list Slot) (r : loc) (f : Function.t) :
  h !! r = Some (HFunction f) ->
  VM.read_function r (machine h d rest ip st text g sc)
  = (Ok f, machine h d rest ip st text g sc).
Proof. intros H. unfold VM.read_function, machine. cbn. rewrite H. reflexivity. Qed.
End Machine.

(** [st ++ [x; y]] as the stack [st ++ [x]] with [y] pushed. *)
Ltac snoc2 st x y :=
  replace (st ++ [x; y]) with ((st ++ [x]) ++ [y]) by (rewrite <- app_assoc; reflexivity).

(** Unfold [execute] at a given instruction. *)
Ltac unfold_execute :=
  unfold VM.execute; cbn [Instruction.type Instruction.value Instruction.lineNumber].

(** Run the two [pop]s that most instructions start with. *)
Ltac pop2 :=
  rewrite !(bind_ok _ _ _ _ _ (pop_machine _ _ _ _ _ _ _ _ _)); cbn [VM.defined];
  rewrite ?ret_bind.

(** ** [EQ] and [NEQ] *)

Lemma identical_strict_eq (a b : Value) :
  bool_decide (type_of a = type_of b) && strict_eq (value_of b) (value_of a) = true
  <-> identical b a.
Proof.
  split.
  - intros H. apply andb_prop in H as [Ht Hv]. apply bool_decide_eq_true in Ht.
    destruct a, b; simpl in Ht, Hv; try discriminate;
      try (apply bool_decide_eq_true in Hv; subst); try constructor; exact Hv.
  - intros H. destruct H; simpl; rewrite ?bool_decide_eq_true_2 by reflexivity;
      try reflexivity. assumption.
Qed.

Lemma identical_same_tag (a b : Value) : identical a b -> type_of a = type_of b.
Proof. intros H. destruct H; reflexivity. Qed.

(** C1, as the code has it: [EQ] pops [a] and [b] and pushes Boolean true
    exactly when they carry the same tag and their payloads are identical under
    [===] (equal strings, numbers equal as doubles, equal booleans, both null,
    and for Tuples, Lists and Functions the very same object, not an
    element-wise comparison); values of distinct tags compare unequal; [NEQ]
    pushes the negation. *)
Theorem eq_compares_tag_and_identity (host : Host.t) (h : Heap) (d : list Value)
    (rest : list CallFrame.t) (ip : Z) (st : list Slot) (text : list Instruction.t)
    (g : list (string * Slot)) (sc : option Syscall.t) (a b : Value) (line : nat)
    (v v' : option nat) :
  exists e : bool,
    VM.execute host (Instruction.mk Opcode.EQ line v)
      (machine h d rest ip (st ++ [Some b; Some a]) text g sc)
    = (Ok tt, machine h d rest ip (st ++ [Some (VBoolean e)]) text g sc)
    /\ VM.execute host (Instruction.mk Opcode.NEQ line v')
         (machine h d rest ip (st ++ [Some b; Some a]) text g sc)
       = (Ok tt, machine h d rest ip (st ++ [Some (VBoolean (negb e))]) text g sc)
    /\ (e = true <-> identical b a)
    /\ (type_of b <> type_of a -> e = false).
Proof.
  exists (bool_decide (type_of a = type_of b) && strict_eq (value_of b) (value_of a)).
  snoc2 st (Some b) (Some a). repeat split.
  - unfold_execute. pop2. rewrite push_machine. reflexivity.
  - unfold_execute. pop2. rewrite push_machine, negb_andb. reflexivity.
  - apply identical_strict_eq.
  - apply identical_strict_eq.
  - intros Hne. rewrite bool_decide_eq_false_2 by congruence. reflexivity.
Qed.

(** C1, as the claim words it, fails: two Tuples that hold equal elements in
    two arrays are structurally equal, and [EQ] pushes false for them. *)
Lemma eq_structural_counterexample :
  let h := [HArray [Some (VNumber 1); Some (VNumber 2)] [];
            HArray [Some (VNumber 1); Some (VNumber 2)] []] in
  structurally_equal 2 h (VTuple 0) (VTuple 1) = true
  /\ VM.execute Sample.host (Instruction.mk Opcode.EQ 1 None)
       (machine h [] [] 0 [Some (VTuple 0); Some (VTuple 1)] [] [] None)
     = (Ok tt, machine h [] [] 0 [Some (VBoolean false)] [] [] None).
Proof. split; reflexivity. Qed.

(** C10: on the same two operands [NEQ] pushes the negation of the Boolean
    that [EQ] pushes. *)
Theorem neq_is_negation_of_eq (host : Host.t) (h : Heap) (d : list Value)
    (rest : list CallFrame.t) (ip : Z) (st : list Slot) (text : list Instruction.t)
    (g : list (string * Slot)) (sc : option Syscall.t) (a b : Value) (line line' : nat)
    (v v' : option nat) :
  exists e : bool,
    VM.execute host (Instruction.mk Opcode.EQ line v)
      (machine h d rest ip (st ++ [Some b; Some a]) text g sc)
    = (Ok tt, machine h d rest ip (st ++ [Some (VBoolean e)]) text g sc)
    /\ VM.execute host (Instruction.mk Opcode.NEQ line' v')
         (machine h d rest ip (st ++ [Some b; Some a]) text g sc)
       = (Ok tt, machine h d rest ip (st ++ [Some (VBoolean (negb e))]) text g sc).
Proof.
  eexists. snoc2 st (Some b) (Some a). split.
  - unfold_execute. pop2. rewrite push_machine. reflexivity.
  - unfold_execute. pop2. rewrite push_machine, negb_andb. reflexivity.
Qed.

(** ** [SUBSCRIPT] *)

(** What [SUBSCRIPT] does on an array and a number: the bound it checks is
    [length < key]. *)
Lemma subscript_array (host : Host.t) (h : Heap) (d : list Value) (rest : list CallFrame.t)
    (ip : Z) (st : list Slot) (text : list Instruction.t) (g : list (string * Slot))
    (sc : option Syscall.t) (r : loc) (items : list Slot) (props : list (option float * Slot))
    (k : float) (line : nat) (v : option nat) :
  h !! r = Some (HArray items props) ->
  VM.execute host (Instruction.mk Opcode.SUBSCRIPT line v)
    (machine h d rest ip (st ++ [Some (VList r); Some (VNumber k)]) text g sc)
  = if (JsNumber.of_nat (length items) <? k)%float
    then (Throw (IndexError line), machine h d rest ip st text g sc)
    else (Ok tt, machine h d rest ip (st ++ [array_get items props (Some k)]) text g sc).
Proof.
  intros Hr. snoc2 st (Some (VList r)) (Some (VNumber k)). unfold_execute. pop2.
  cbn [number_payload].
  rewrite (bind_ok _ _ _ _ _ (read_array_machine _ _ _ _ _ _ _ _ _ _ _ Hr)).
  change (to_number (Some k)) with k.
  destruct (JsNumber.of_nat (length items) <? k)%float; [reflexivity|].
  apply push_machine.
Qed.

(** C2 at the inputs where the code departs from it: on a List of three
    elements the keys 3 (the length) and -1 are out of range, and [SUBSCRIPT]
    pushes [undefined] for them instead of raising IndexError; key 4 raises it
    and key 1 reads the element. *)
Theorem subscript_out_of_range_reads_undefined (host : Host.t) (d : list Value)
    (rest : list CallFrame.t) (ip : Z) (st : list Slot) (text : list Instruction.t)
    (g : list (string * Slot)) (sc : option Syscall.t) (line : nat) (v : option nat) :
  let h := [HArray [Some (VNumber 10); Some (VNumber 20); Some (VNumber 30)] []] in
  let subscript (k : float) :=
    VM.execute host (Instruction.mk Opcode.SUBSCRIPT line v)
      (machine h d rest ip (st ++ [Some (VList 0); Some (VNumber k)]) text g sc) in
  subscript 3%float = (Ok tt, machine h d rest ip (st ++ [None]) text g sc)
  /\ subscript (-1)%float = (Ok tt, machine h d rest ip (st ++ [None]) text g sc)
  /\ subscript 4%float = (Throw (IndexError line), machine h d rest ip st text g sc)
  /\ subscript 1%float = (Ok tt, machine h d rest ip (st ++ [Some (VNumber 20)]) text g sc).
Proof.
  cbv zeta. repeat split; (erewrite subscript_array by reflexivity); reflexivity.
Qed.

(** ** [RET] *)

(** With a caller below the returning frame, [RET 1] moves the top of the
    stack to the caller and [RET f] for another [f] gives it Null; the
    returning frame is dropped. *)
Lemma ret_returns_to_caller (host : Host.t) (h : Heap) (d : list Value)
    (rest : list CallFrame.t) (caller : CallFrame.t) (ip : Z) (st : list Slot)
    (text : list Instruction.t) (g : list (string * Slot)) (sc : option Syscall.t)
    (x : Slot) (line : nat) (f : option nat) :
  VM.execute host (Instruction.mk Opcode.RET line f)
    (machine h d (rest ++ [caller]) ip (st ++ [x]) text g sc)
  = (Ok tt,
     VM.mkState h (VM.mk d
       (rest ++ [CallFrame.set_stack
                   (CallFrame.stack caller ++ [if decide (f = Some 1%nat) then x else Some VNull])
                   caller])
       g sc)).
Proof.
  unfold_execute. unfold machine at 1. unfold gets, mbind, M_bind, bind. cbn.
  rewrite !pop_last_snoc.
  destruct (decide (f = Some 1%nat)) as [->|Hf].
  - fold (machine h d (rest ++ [caller]) ip (st ++ [x]) text g sc).
    rewrite pop_machine. reflexivity.
  - reflexivity.
Qed.

(** C3 at the input where the code departs from it: [RET] executed in the
    only frame throws a [TypeError], since there is no caller frame to push
    on, whatever its operand; [run] on the program [return;] throws as well
    and reports no status. *)
Theorem ret_in_last_frame_throws (host : Host.t) (h : Heap) (d : list Value) (ip : Z)
    (st : list Slot) (text : list Instruction.t) (g : list (string * Slot))
    (sc : option Syscall.t) (line : nat) (f : option nat) :
  VM.execute host (Instruction.mk Opcode.RET line f) (machine h d [] ip st text g sc)
  = (Throw TypeError, machine h d [] ip st text g sc)
  /\ VM.run host 1 (VM.mkState h (VM.create host Sample.top_level_return))
     = (Throw TypeError, VM.mkState h (VM.create host Sample.top_level_return)).
Proof. split; reflexivity. Qed.

(** ** [CALL] of a user function *)

(** C8: [CALL n] with the arguments [args] above a Function on the stack.  If
    the function does not declare [n] parameters the machine throws
    FunctionArgumentNumberMismatch; otherwise it pushes a frame whose stack is
    the callee followed by the arguments in the order they were pushed, with
    [ip = -1] and the body of the callee as its text. *)
Theorem call_function_pushes_frame (host : Host.t) (h : Heap) (d : list Value)
    (rest : list CallFrame.t) (ip : Z) (st : list Slot) (text : list Instruction.t)
    (g : list (string * Slot)) (sc : option Syscall.t) (r : loc) (f : Function.t)
    (args : list Slot) (line : nat) :
  h !! r = Some (HFunction f) ->
  let n := length args in
  let before := machine h d rest ip (st ++ [Some (VFunction r)] ++ args) text g sc in
  let call := VM.execute host (Instruction.mk Opcode.CALL line (Some n)) before in
  (length (Function.args f) <> n ->
   call = (Throw (FunctionArgumentNumberMismatch line (Function.name f)
                    (length (Function.args f)) (Some n)),
           machine h d rest ip st text g sc))
  /\ (length (Function.args f) = n ->
      call = (Ok tt,
              VM.mkState h (VM.mk d
                (rest ++ [CallFrame.mk ip st text;
                          CallFrame.mk (-1) (Some (VFunction r) :: args) (Function.body f)])
                g sc))).
Proof.
  intros Hr. cbv zeta. rewrite app_assoc. unfold_execute. cbn [default from_option]. unfold id.
  rewrite (bind_ok _ _ _ _ _ (pop_args_machine _ _ _ _ _ _ _ _ _ _)).
  rewrite (bind_ok _ _ _ _ _ (pop_machine _ _ _ _ _ _ _ _ _)). cbn [VM.defined].
  rewrite ret_bind, app_nil_r. unfold VM.call_function.
  rewrite (bind_ok _ _ _ _ _ (read_function_machine _ _ _ _ _ _ _ _ _ _ Hr)).
  split; intros Hn.
  - destruct (decide (Some (length (Function.args f)) = Some (length args))) as [E|E].
    + inversion E. contradiction.
    + reflexivity.
  - rewrite Hn. destruct (decide (Some (length args) = Some (length args))) as [E|E];
      [|contradiction].
    unfold modify, machine, VM.on_this, VM.set_frames. cbn. rewrite <- app_assoc. reflexivity.
Qed.

(** C8 on a function of two parameters called with two arguments. *)
Lemma call_function_pushes_frame_witness :
  let f := Function.mk "f" ["x"; "y"]%string [Instruction.mk Opcode.RET 1 (Some 0%nat)] in
  VM.execute Sample.host (Instruction.mk Opcode.CALL 1 (Some 2%nat))
    (machine [HFunction f] [] [] 5
       [Some (VFunction 0); Some (VNumber 1); Some (VNumber 2)] [] [] None)
  = (Ok tt,
     VM.mkState [HFunction f] (VM.mk []
       [CallFrame.mk 5 [] [];
        CallFrame.mk (-1) [Some (VFunction 0); Some (VNumber 1); Some (VNumber 2)]
          [Instruction.mk Opcode.RET 1 (Some 0%nat)]]
       [] None)).
Proof.
  cbv zeta.
  apply (proj2 (call_function_pushes_frame Sample.host
           [HFunction (Function.mk "f" ["x"; "y"]%string
                          [Instruction.mk Opcode.RET 1 (Some 0%nat)])]
           [] [] 5 [] [] [] None 0%nat _
           [Some (VNumber 1); Some (VNumber 2)] 1%nat eq_refl)).
  reflexivity.
Defined.

(** ** [ADD] on two Lists *)

(** C9: [ADD] on the Lists [left] (pushed first) and [right].  With operand 1
    the array of [left] receives the elements of [right] in place, and the
    reference that was on the stack is pushed again: every value that refers to
    that array sees the longer list, and no other object changes.  With any
    other operand a new array holds the concatenation, and no object that
    existed changes. *)
Theorem add_lists (host : Host.t) (h : Heap) (d : list Value) (rest : list CallFrame.t)
    (ip : Z) (st : list Slot) (text : list Instruction.t) (g : list (string * Slot))
    (sc : option Syscall.t) (left right : loc) (xs ys : list Slot)
    (px py : list (option float * Slot)) (line : nat) (flag : option nat) :
  h !! left = Some (HArray xs px) ->
  h !! right = Some (HArray ys py) ->
  let before := machine h d rest ip (st ++ [Some (VList left); Some (VList right)]) text g sc in
  let h1 := <[left := HArray (xs ++ ys) px]> h in
  let h2 := h ++ [HArray (xs ++ ys) []] in
  (VM.execute host (Instruction.mk Opcode.ADD line (Some 1%nat)) before
   = (Ok tt, machine h1 d rest ip (st ++ [Some (VList left)]) text g sc)
   /\ h1 !! left = Some (HArray (xs ++ ys) px)
   /\ forall r : loc, r <> left -> h1 !! r = h !! r)
  /\ (flag <> Some 1%nat ->
      VM.execute host (Instruction.mk Opcode.ADD line flag) before
      = (Ok tt, machine h2 d rest ip (st ++ [Some (VList (length h))]) text g sc)
      /\ h !! length h = None
      /\ h2 !! length h = Some (HArray (xs ++ ys) [])
      /\ forall r : loc, (r < length h)%nat -> h2 !! r = h !! r).
Proof.
  intros Hl Hr. cbv zeta. snoc2 st (Some (VList left)) (Some (VList right)).
  assert (Hlt : (left < length h)%nat) by (apply lookup_lt_is_Some; eauto).
  split; [split; [|split]|].
  - unfold_execute. pop2. cbn [number_payload].
    destruct (decide (Some 1%nat = Some 1%nat)) as [_|E]; [|contradiction].
    rewrite (bind_ok _ _ _ _ _ (read_array_machine _ _ _ _ _ _ _ _ _ _ _ Hr)).
    rewrite (bind_ok _ _ _ _ _ (read_array_machine _ _ _ _ _ _ _ _ _ _ _ Hl)).
    unfold VM.write_cell, modify, mbind, M_bind, bind. cbn.
    apply push_machine.
  - apply list_lookup_insert_eq. exact Hlt.
  - intros r Hne. apply list_lookup_insert_ne. congruence.
  - intros Hflag. split; [|split; [|split]].
    + unfold_execute. pop2. cbn [number_payload].
      destruct (decide (flag = Some 1%nat)) as [E|_]; [contradiction|].
      rewrite (bind_ok _ _ _ _ _ (read_array_machine _ _ _ _ _ _ _ _ _ _ _ Hr)).
      rewrite (bind_ok _ _ _ _ _ (read_array_machine _ _ _ _ _ _ _ _ _ _ _ Hl)).
      unfold VM.alloc, VM.lift_heap, heap_alloc, mbind, M_bind, bind. cbn.
      apply push_machine.
    + apply lookup_ge_None. lia.
    + rewrite lookup_app_r by lia. rewrite Nat.sub_diag. reflexivity.
    + intros r Hr'. apply lookup_app_l. exact Hr'.
Qed.

(** C9 on the lists [[1]] and [[2]]. *)
Lemma add_lists_witness :
  VM.execute Sample.host (Instruction.mk Opcode.ADD 1 (Some 1%nat))
    (machine [HArray [Some (VNumber 1)] []; HArray [Some (VNumber 2)] []] [] [] 0
       [Some (VList 0); Some (VList 1)] [] [] None)
  = (Ok tt,
     machine [HArray [Some (VNumber 1); Some (VNumber 2)] []; HArray [Some (VNumber 2)] []]
       [] [] 0 [Some (VList 0)] [] [] None).
Proof.
  apply (proj1 (proj1 (add_lists Sample.host
           [HArray [Some (VNumber 1)] []; HArray [Some (VNumber 2)] []]
           [] [] 0 [] [] [] None 0%nat 1%nat _ _ _ _ 1%nat None eq_refl eq_refl))).
Defined.

(** ** Declarations at an inner depth *)

Lemma findIndex_declared (locals : list Local.t) (name : string) :
  is_Some (Compiler.findIndex locals name)
  <-> existsb (fun l => bool_decide (Local.name l = name)) locals = true.
Proof.
  induction locals as [|l locals IH]; simpl.
  - split; [intros [? ?]; discriminate | discriminate].
  - destruct (decide (Local.name l = name)) as [E|E].
    + rewrite bool_decide_eq_true_2 by exact E. simpl. split; eauto.
    + rewrite bool_decide_eq_false_2 by exact E. simpl. rewrite <- IH.
      destruct (Compiler.findIndex locals name); simpl; split; intros [? ?];
        eauto; discriminate.
Qed.

(** C4, as the code has it: at an inner depth [declareVariable] raises
    VariableAlreadyDeclaredInScope exactly when some local already has the
    name, at whatever depth it was declared (the same scope, an enclosing
    block, the parameters or the name of the function); otherwise it records
    the local at the current depth and emits nothing.  A local of an
    enclosing scope cannot be shadowed. *)
Theorem declareVariable_at_inner_depth (h : Heap) (text : list Instruction.t)
    (data : list Value) (locals : list Local.t) (d : nat) (bs cs : list (list nat))
    (name : string) (line : nat) :
  let c := Compiler.mk text data locals (S d) bs cs in
  Compiler.declareVariable name line (Compiler.mkState h c)
  = if declared_in_locals c name
    then (Throw (VariableAlreadyDeclaredInScope line name), Compiler.mkState h c)
    else (Ok tt, Compiler.mkState h
                   (Compiler.mk text data (locals ++ [Local.mk name (S d)]) (S d) bs cs)).
Proof.
  cbv zeta. unfold Compiler.declareVariable, declared_in_locals.
  unfold gets, mbind, M_bind, bind. cbn.
  destruct (decide (S d = 0%nat)) as [E|_]; [discriminate|]. cbn.
  pose proof (findIndex_declared locals name) as H.
  destruct (Compiler.findIndex locals name) as [i|].
  - rewrite (proj1 H) by eauto. reflexivity.
  - destruct (existsb _ locals); [|reflexivity].
    destruct (proj2 H eq_refl) as [? ?]. discriminate.
Qed.

(** C4, as the claim words it, fails: with the local [a] of depth 1 and the
    compiler at depth 2, no local of that name was declared in the same scope,
    and declaring [a] raises all the same; the compiler rejects
    [{ let a = 1; { let a = 2; } }]. *)
Lemma declareVariable_shadowing_counterexample :
  let c := Compiler.mk [] [] [Local.mk "a" 1] 2 [] [] in
  declared_in_same_scope c "a" = false
  /\ Compiler.declareVariable "a" 2 (Compiler.mkState [] c)
     = (Throw (VariableAlreadyDeclaredInScope 2 "a"), Compiler.mkState [] c)
  /\ Compiler.compile Sample.parseFloat Sample.shadowing []
     = (Throw (VariableAlreadyDeclaredInScope 2 "a"), []).
Proof. repeat split; reflexivity. Qed.

(** ** The pending syscall *)

Section KeepsSyscall.
Context {A B : Type}.

Lemma keeps_bind (c : M VM.State A) (k : A -> M VM.State B) :
  keeps_syscall c -> (forall a, keeps_syscall (k a)) -> keeps_syscall (c ≫= k).
Proof.
  intros Hc Hk s s' r H. apply bind_inv in H as [(a & s1 & H1 & H2)|(e & H1 & _)].
  - rewrite (Hk a _ _ _ H2). eapply Hc, H1.
  - eapply Hc, H1.
Qed.

Lemma keeps_ret (a : A) : keeps_syscall (mret a : M VM.State A).
Proof. intros s s' r H. inversion H. reflexivity. Qed.

Lemma keeps_throw (e : Error) : keeps_syscall (throw e : M VM.State A).
Proof. intros s s' r H. inversion H. reflexivity. Qed.

Lemma keeps_gets (f : VM.State -> A) : keeps_syscall (gets f).
Proof. intros s s' r H. inversion H. reflexivity. Qed.

Lemma keeps_lift_heap (c : M Heap A) : keeps_syscall (VM.lift_heap c).
Proof.
  intros s s' r H. unfold VM.lift_heap in H. destruct (c (VM.heap s)). inversion H.
  reflexivity.
Qed.

Lemma keeps_frames_syscall (c : M VM.State A) : keeps_frames c -> keeps_syscall c.
Proof. intros Hc s s' r H. apply (Hc s s' r H). Qed.

Lemma keeps_frames_bind (c : M VM.State A) (k : A -> M VM.State B) :
  keeps_frames c -> (forall a, keeps_frames (k a)) -> keeps_frames (c ≫= k).
Proof.
  intros Hc Hk s s' r H. apply bind_inv in H as [(a & s1 & H1 & H2)|(e & H1 & _)].
  - destruct (Hc _ _ _ H1) as [Hs1 Hf1]. destruct (Hk a _ _ _ H2) as [Hs2 Hf2].
    split; [congruence|]. intros rest f Hfs.
    destruct (Hf1 rest f Hfs) as [st1 E1]. destruct (Hf2 _ _ E1) as [st2 E2].
    exists st2. exact E2.
  - exact (Hc _ _ _ H1).
Qed.

Lemma keeps_frames_pure (c : M VM.State A) :
  (forall s, exists r, c s = (r, s)) -> keeps_frames c.
Proof.
  intros Hc s s' r H. destruct (Hc s) as [r' E]. rewrite E in H. inversion H; subst.
  split; [reflexivity|]. intros rest f Hfs. exists (CallFrame.stack f).
  rewrite Hfs. destruct f; reflexivity.
Qed.
End KeepsSyscall.

Lemma keeps_frames_top_frame : keeps_frames VM.top_frame.
Proof.
  apply keeps_frames_pure. intros s. unfold VM.top_frame.
  destruct (pop_last _) as [[? ?]|]; eauto.
Qed.

Lemma keeps_frames_update_stack (st : list Slot -> list Slot) :
  keeps_frames (VM.update_top_frame (fun f => CallFrame.set_stack (st (CallFrame.stack f)) f)).
Proof.
  intros s s' r H. unfold VM.update_top_frame in H.
  destruct (pop_last (VM.frames (VM.this s))) as [[rest0 f0]|] eqn:E.
  - inversion H; subst. split; [reflexivity|]. intros rest f Hfs.
    apply pop_last_Some in E. rewrite E in Hfs. apply app_inj_tail in Hfs as [-> ->].
    exists (st (CallFrame.stack f)). reflexivity.
  - inversion H; subst. split; [reflexivity|]. intros rest f Hfs.
    apply pop_last_None in E. rewrite E in Hfs. destruct rest; discriminate.
Qed.

Lemma keeps_frames_push (v : Slot) : keeps_frames (VM.push v).
Proof. apply (keeps_frames_update_stack (fun st => st ++ [v])). Qed.

Lemma keeps_frames_pop : keeps_frames VM.pop.
Proof.
  unfold VM.pop. apply keeps_frames_bind; [apply keeps_frames_top_frame|]. intros f.
  destruct (pop_last (CallFrame.stack f)) as [[rest v]|].
  - apply keeps_frames_bind.
    + apply (keeps_frames_update_stack (fun _ => rest)).
    + intros _. apply keeps_frames_pure. intros s. eexists. reflexivity.
  - apply keeps_frames_pure. intros s. eexists. reflexivity.
Qed.

Lemma keeps_frames_pop_args (n : nat) (acc : list Slot) : keeps_frames (VM.pop_args n acc).
Proof.
  revert acc. induction n as [|n IH]; intros acc; simpl.
  - apply keeps_frames_pure. intros s. eexists. reflexivity.
  - apply keeps_frames_bind; [apply keeps_frames_pop|]. intros v. apply IH.
Qed.

Lemma keeps_frames_defined (v : Slot) : keeps_frames (VM.defined v).
Proof. apply keeps_frames_pure. intros s. destruct v; eexists; reflexivity. Qed.

Lemma keeps_update_top_frame (f : CallFrame.t -> CallFrame.t) :
  keeps_syscall (VM.update_top_frame f).
Proof.
  intros s s' r H. unfold VM.update_top_frame in H.
  destruct (pop_last _) as [[? ?]|]; inversion H; reflexivity.
Qed.

Lemma keeps_modify_this (f : VM.t -> VM.t) :
  (forall vm, VM.syscall (f vm) = VM.syscall vm) -> keeps_syscall (modify (VM.on_this f)).
Proof. intros Hf s s' r H. inversion H. apply Hf. Qed.

Lemma keeps_modify_heap (f : Heap -> Heap) : keeps_syscall (modify (VM.on_heap f)).
Proof. intros s s' r H. inversion H. reflexivity. Qed.

Lemma keeps_read_array (r : loc) : keeps_syscall (VM.read_array r).
Proof.
  intros s s' x H. unfold VM.read_array in H.
  destruct (VM.heap s !! r) as [[? ?|?]|]; inversion H; reflexivity.
Qed.

Lemma keeps_read_function (r : loc) : keeps_syscall (VM.read_function r).
Proof.
  intros s s' x H. unfold VM.read_function in H.
  destruct (VM.heap s !! r) as [[? ?|?]|]; inversion H; reflexivity.
Qed.

(** Decompose a computation into the primitives, each of which leaves the
    pending syscall as it is. *)
Ltac keeps :=
  repeat first
    [ apply keeps_bind; [|intros]
    | apply keeps_ret
    | apply keeps_throw
    | apply keeps_gets
    | apply keeps_lift_heap
    | apply keeps_update_top_frame
    | apply keeps_modify_heap
    | apply keeps_read_array
    | apply keeps_read_function
    | apply keeps_frames_syscall;
      first [ apply keeps_frames_pop | apply keeps_frames_push | apply keeps_frames_pop_args
            | apply keeps_frames_defined | apply keeps_frames_top_frame ]
    | apply keeps_modify_this; intros; reflexivity
    | match goal with
      | |- keeps_syscall (match ?x with _ => _ end) => destruct x
      end ].

Lemma keeps_peek : keeps_syscall VM.peek.
Proof. unfold VM.peek. keeps. Qed.

Lemma keeps_alloc (c : HeapCell) : keeps_syscall (VM.alloc c).
Proof. unfold VM.alloc. keeps. Qed.

Lemma keeps_write_cell (r : loc) (c : HeapCell) : keeps_syscall (VM.write_cell r c).
Proof. unfold VM.write_cell. keeps. Qed.

Lemma keeps_data_at (value : option nat) : keeps_syscall (VM.data_at value).
Proof. unfold VM.data_at. keeps. Qed.

Lemma keeps_global_id (value : option nat) : keeps_syscall (VM.global_id value).
Proof. unfold VM.global_id. keeps. Qed.

Lemma keeps_jump (value : option nat) : keeps_syscall (VM.jump value).
Proof. unfold VM.jump. keeps. Qed.

Lemma keeps_numeric_operands (line : nat) (a b : Slot) :
  keeps_syscall (VM.numeric_operands line a b).
Proof. unfold VM.numeric_operands. keeps. Qed.

Lemma keeps_numeric_operand (line : nat) (a : Slot) :
  keeps_syscall (VM.numeric_operand line a).
Proof. unfold VM.numeric_operand. keeps. Qed.

Lemma keeps_boolean_operands (line : nat) (a b : Slot) :
  keeps_syscall (VM.boolean_operands line a b).
Proof. unfold VM.boolean_operands. keeps. Qed.

Lemma keeps_call_native (host : Host.t) (line : nat) (value : option nat) (key : string)
    (args : list Slot) :
  keeps_syscall (VM.call_native host line value key args).
Proof. unfold VM.call_native. keeps. Qed.

Lemma keeps_call_function (line : nat) (value : option nat) (func : Value) (r : loc)
    (args : list Slot) :
  keeps_syscall (VM.call_function line value func r args).
Proof. unfold VM.call_function. keeps. Qed.

(** Every instruction but [CALL] leaves the pending syscall as it is. *)
Lemma keeps_execute (host : Host.t) (i : Instruction.t) :
  Instruction.type i <> Opcode.CALL -> keeps_syscall (VM.execute host i).
Proof.
  intros Hi. unfold VM.execute.
  destruct (Instruction.type i); try contradiction;
    keeps;
    first [ apply keeps_data_at | apply keeps_boolean_operands | apply keeps_numeric_operands
          | apply keeps_numeric_operand | apply keeps_write_cell | apply keeps_alloc
          | apply keeps_jump | apply keeps_peek | apply keeps_global_id | idtac ].
Qed.

(** [CALL] of a syscall leaves the frames as they are, and sets the pending
    syscall only when it ends without an exception. *)
Lemma call_syscall_effect (host : Host.t) (line : nat) (name : string) (args : list Slot)
    (s s' : VM.State) (r : Result unit) :
  VM.syscall (VM.this s) = None ->
  VM.call_syscall host line name args s = (r, s') ->
  VM.frames (VM.this s') = VM.frames (VM.this s)
  /\ (VM.syscall (VM.this s') = None \/ r = Ok tt).
Proof.
  intros Hs H. unfold VM.call_syscall in H.
  destruct (Host.syscalls host !! name) as [info|]; [|inversion H; subst; auto].
  apply bind_inv in H as [(processed & s1 & H1 & H2)|(e & H1 & _)].
  - unfold VM.lift_heap in H1.
    destruct (SyscallInfo.preprocessor info args line (VM.heap s)) as [r1 h1].
    inversion H1; subst; clear H1.
    destruct (decide (name = "syscall"%string)).
    + apply bind_inv in H2 as [(first & s2 & H2 & H3)|(e' & H2 & _)].
      * destruct (mjoin (head processed)); inversion H2; subst; clear H2.
        destruct first; inversion H3; subst; auto.
      * destruct (mjoin (head processed)); inversion H2; subst; auto.
    + inversion H2; subst. auto.
  - unfold VM.lift_heap in H1.
    destruct (SyscallInfo.preprocessor info args line (VM.heap s)) as [r1 h1].
    inversion H1; subst. auto.
Qed.

(** Where [execute] of a [CALL] sets the pending syscall, it ends without an
    exception and has changed no frame but for the stack of the innermost. *)
Lemma execute_call (host : Host.t) (i : Instruction.t) (s s' : VM.State) (r : Result unit) :
  Instruction.type i = Opcode.CALL ->
  VM.syscall (VM.this s) = None ->
  VM.execute host i s = (r, s') ->
  VM.syscall (VM.this s') = None
  \/ (r = Ok tt
      /\ forall (rest : list CallFrame.t) (f : CallFrame.t),
           VM.frames (VM.this s) = rest ++ [f] ->
           exists st : list Slot, VM.frames (VM.this s') = rest ++ [CallFrame.set_stack st f]).
Proof.
  intros Hi Hs H. unfold VM.execute in H. rewrite Hi in H.
  assert (Hpre : keeps_frames
            (VM.pop_args (default 0%nat (Instruction.value i)) []
             ≫= fun args => VM.pop ≫= fun func => VM.defined func
             ≫= fun vf => mret (args, vf))).
  { apply keeps_frames_bind; [apply keeps_frames_pop_args|]. intros args.
    apply keeps_frames_bind; [apply keeps_frames_pop|]. intros func.
    apply keeps_frames_bind; [apply keeps_frames_defined|]. intros vf.
    apply keeps_frames_pure. intros ?. eexists. reflexivity. }
  apply bind_inv in H as [(args & s1 & H1 & H)|(e & H1 & _)].
  2:{ left. rewrite (keeps_frames_syscall _ (keeps_frames_pop_args _ _) _ _ _ H1). exact Hs. }
  apply bind_inv in H as [(func & s2 & H2 & H)|(e & H2 & _)].
  2:{ left. rewrite (keeps_frames_syscall _ keeps_frames_pop _ _ _ H2).
      rewrite (keeps_frames_syscall _ (keeps_frames_pop_args _ _) _ _ _ H1). exact Hs. }
  apply bind_inv in H as [(vf & s3 & H3 & H)|(e & H3 & _)].
  2:{ left. destruct func; inversion H3; subst.
      rewrite (keeps_frames_syscall _ keeps_frames_pop _ _ _ H2).
      rewrite (keeps_frames_syscall _ (keeps_frames_pop_args _ _) _ _ _ H1). exact Hs. }
  assert (Hpre3 : (VM.pop_args (default 0%nat (Instruction.value i)) []
             ≫= fun args => VM.pop ≫= fun func => VM.defined func
             ≫= fun vf => mret (args, vf)) s = (Ok (args, vf), s3)).
  { rewrite (bind_ok _ _ _ _ _ H1), (bind_ok _ _ _ _ _ H2), (bind_ok _ _ _ _ _ H3).
    reflexivity. }
  destruct (Hpre _ _ _ Hpre3) as [Hs3 Hf3]. rewrite Hs in Hs3.
  destruct vf;
    try (inversion H; subst; left; exact Hs3).
  - left. rewrite (keeps_call_function _ _ _ _ _ _ _ _ H). exact Hs3.
  - left. rewrite (keeps_call_native _ _ _ _ _ _ _ _ H). exact Hs3.
  - destruct (call_syscall_effect _ _ _ _ _ _ _ Hs3 H) as [Hfr [Hnone|Hok]].
    + left. exact Hnone.
    + right. split; [exact Hok|]. intros rest f Hfs. rewrite Hfr. apply Hf3, Hfs.
Qed.

(** [fetch] reads the instruction at the instruction pointer of the innermost
    frame and changes nothing. *)
Lemma fetch_inv (s s' : VM.State) (r : Result Instruction.t) :
  VM.fetch s = (r, s') ->
  s' = s
  /\ forall i : Instruction.t, r = Ok i ->
       exists (rest : list CallFrame.t) (f : CallFrame.t),
         VM.frames (VM.this s) = rest ++ [f]
         /\ 0 <= CallFrame.ip f
         /\ CallFrame.text f !! Z.to_nat (CallFrame.ip f) = Some i.
Proof.
  unfold VM.fetch, VM.top_frame, mbind, M_bind, bind. intros H.
  destruct (pop_last (VM.frames (VM.this s))) as [[rest f]|] eqn:Efs.
  - apply pop_last_Some in Efs.
    destruct (decide (0 <= CallFrame.ip f)) as [Hip|Hip].
    + destruct (CallFrame.text f !! Z.to_nat (CallFrame.ip f)) as [i'|] eqn:Ei;
        inversion H; subst; (split; [reflexivity|]); intros i Hi; inversion Hi; subst.
      exists rest, f. auto.
    + inversion H; subst. split; [reflexivity|]. intros i Hi. discriminate.
  - inversion H; subst. split; [reflexivity|]. intros i Hi. discriminate.
Qed.

(** A turn of the loop that ends with the pending syscall set has executed a
    [CALL] without an exception; the frame of the call is one instruction
    further, or gone when the call was its last instruction. *)
Lemma cycle_sets_syscall (host : Host.t) (s s' : VM.State) (r : Result unit)
    (sc : Syscall.t) :
  VM.syscall (VM.this s) = None ->
  VM.cycle host s = (r, s') ->
  VM.syscall (VM.this s') = Some sc ->
  r = Ok tt
  /\ exists (rest : list CallFrame.t) (f : CallFrame.t),
       VM.frames (VM.this s) = rest ++ [f]
       /\ after_call (CallFrame.set_ip (CallFrame.ip f + 1) f)
       /\ if decide (CallFrame.ip f + 1 < Z.of_nat (length (CallFrame.text f)))
          then exists st : list Slot,
                 VM.frames (VM.this s')
                 = rest ++ [CallFrame.mk (CallFrame.ip f + 1) st (CallFrame.text f)]
          else VM.frames (VM.this s') = rest.
Proof.
  intros Hs H Hsc. unfold VM.cycle in H.
  apply bind_inv in H as [(i & s0 & Hfetch & H)|(e & Hfetch & _)].
  2:{ apply fetch_inv in Hfetch as [-> _]. congruence. }
  apply fetch_inv in Hfetch as [-> Hfetch].
  destruct (Hfetch i eq_refl) as (rest & f & Efs & Hip & Ei). clear Hfetch.
  rename s into s0.
  assert (Hcall : forall r1 s1, VM.execute host i s0 = (r1, s1) ->
            VM.syscall (VM.this s1) = Some sc ->
            Instruction.type i = Opcode.CALL /\ r1 = Ok tt
            /\ exists st : list Slot,
                 VM.frames (VM.this s1) = rest ++ [CallFrame.set_stack st f]).
  { intros r1 s1 He Hsc1.
    destruct (decide (Instruction.type i = Opcode.CALL)) as [Hi|Hi].
    - destruct (execute_call _ _ _ _ _ Hi Hs He) as [Hnone|[Hok Hfr]]; [congruence|].
      split; [exact Hi|]. split; [exact Hok|]. apply Hfr, Efs.
    - rewrite (keeps_execute host i Hi _ _ _ He) in Hsc1. congruence. }
  apply bind_inv in H as [([] & s1 & He & H)|(e & He & _)].
  2:{ destruct (Hcall _ _ He Hsc) as (_ & Habs & _). discriminate. }
  assert (Hsc1 : VM.syscall (VM.this s1) = Some sc).
  { assert (K : keeps_syscall
              (VM.update_top_frame (fun f => CallFrame.set_ip (CallFrame.ip f + 1) f)
               ≫= fun _ => VM.top_frame ≫= fun f =>
                  if decide (Z.of_nat (length (CallFrame.text f)) <= CallFrame.ip f)
                  then modify (VM.on_this
                                 (fun vm => VM.set_frames (removelast (VM.frames vm)) vm))
                  else mret tt)) by keeps.
    rewrite <- (K _ _ _ H). exact Hsc. }
  destruct (Hcall _ _ He Hsc1) as (Hi & _ & st & Hfr).
  unfold VM.update_top_frame, VM.top_frame, mbind, M_bind, bind in H.
  rewrite Hfr, pop_last_snoc in H. cbn in H. rewrite pop_last_snoc in H. cbn in H.
  split.
  - destruct (decide (Z.of_nat (length (CallFrame.text f)) <= CallFrame.ip f + 1));
      inversion H; reflexivity.
  - exists rest, f. split; [exact Efs|]. split.
    + exists i. cbn. replace (CallFrame.ip f + 1 - 1) with (CallFrame.ip f) by lia. auto.
    + destruct (decide (Z.of_nat (length (CallFrame.text f)) <= CallFrame.ip f + 1)) as [Hle|Hgt].
      * destruct (decide (CallFrame.ip f + 1 < Z.of_nat (length (CallFrame.text f))));
          [lia|]. inversion H; subst. cbn. rewrite removelast_last. reflexivity.
      * destruct (decide (CallFrame.ip f + 1 < Z.of_nat (length (CallFrame.text f))));
          [|lia]. inversion H; subst. cbn. exists st. reflexivity.
Qed.

(** While a syscall is pending the loop of [run] makes no turn. *)
Lemma loop_pending (host : Host.t) (n : nat) (s : VM.State) :
  is_Some (VM.syscall (VM.this s)) -> VM.loop host n s = (Ok tt, s).
Proof.
  intros Hsc. destruct n as [|n]; [reflexivity|]. simpl. unfold VM.running.
  rewrite (bool_decide_eq_true_2 _ Hsc), andb_false_r. reflexivity.
Qed.

Lemma reachable_loop (host : Host.t) (n : nat) (s s' : VM.State) (r : Result unit) :
  reachable host s -> VM.loop host n s = (r, s') -> reachable host s'.
Proof.
  revert s. induction n as [|n IH]; intros s Hs H.
  - inversion H; subst. exact Hs.
  - simpl in H. destruct (VM.running (VM.this s)) eqn:Hrun.
    + apply bind_inv in H as [([] & s1 & H1 & H2)|(e & H1 & _)].
      * eapply IH; [|exact H2]. eapply reachable_cycle; eauto.
      * eapply reachable_cycle; eauto.
    + inversion H; subst. exact Hs.
Qed.

Lemma deserialize_clears_syscall (image : VMImage.t) (arg : Slot) (h h' : Heap) (vm : VM.t) :
  VM.deserialize image arg h = (Ok vm, h') -> VM.syscall vm = None.
Proof.
  unfold VM.deserialize. intros H.
  apply bind_inv in H as [(vm0 & h0 & H0 & H)|(e & _ & Habs)]; [|discriminate].
  assert (Hvm0 : VM.syscall vm0 = None).
  { unfold VM.unplain_vm in H0.
    apply bind_inv in H0 as [(d & h1 & _ & H0)|(e & _ & Habs)]; [|discriminate].
    apply bind_inv in H0 as [(fs & h2 & _ & H0)|(e & _ & Habs)]; [|discriminate].
    apply bind_inv in H0 as [(g & h3 & _ & H0)|(e & _ & Habs)]; [|discriminate].
    inversion H0. reflexivity. }
  destruct arg as [v|]; [|inversion H; subst; exact Hvm0].
  destruct (decide (VMImage.status image = VMStatus.SYSCALL)); [|inversion H; subst; exact Hvm0].
  destruct (pop_last (VM.frames vm0)) as [[rest f]|]; inversion H; subst. exact Hvm0.
Qed.

(** C7, as the code has it: a reachable state in which a syscall is pending
    was entered by a turn of the loop that executed a [CALL] without an
    exception from a state with no pending syscall; in it [run] makes no step
    and returns what [serialize] gives for the status SYSCALL; and when the
    [CALL] was not the last instruction of its frame, the frames are not empty
    and the innermost one stands on the instruction after the [CALL].  When
    the [CALL] was the last instruction of its frame, that frame has been
    dropped. *)
Theorem pending_syscall_after_call (host : Host.t) (s : VM.State) (sc : Syscall.t) :
  reachable host s ->
  VM.syscall (VM.this s) = Some sc ->
  (forall n : nat, VM.run host n s = VM.serialize VMStatus.SYSCALL (Some sc) s)
  /\ exists (prev : VM.State) (rest : list CallFrame.t) (f : CallFrame.t),
       reachable host prev
       /\ VM.syscall (VM.this prev) = None
       /\ VM.cycle host prev = (Ok tt, s)
       /\ VM.frames (VM.this prev) = rest ++ [f]
       /\ after_call (CallFrame.set_ip (CallFrame.ip f + 1) f)
       /\ if decide (CallFrame.ip f + 1 < Z.of_nat (length (CallFrame.text f)))
          then exists st : list Slot,
                 VM.frames (VM.this s)
                 = rest ++ [CallFrame.mk (CallFrame.ip f + 1) st (CallFrame.text f)]
          else VM.frames (VM.this s) = rest.
Proof.
  intros Hreach Hsc. split.
  - intros n. unfold VM.run.
    rewrite (bind_ok _ _ _ _ _ (loop_pending host n s (ex_intro _ sc Hsc))).
    unfold gets, mbind, M_bind, bind, VM.status_of. rewrite Hsc.
    rewrite bool_decide_eq_true_2 by eauto. reflexivity.
  - destruct Hreach as [h program|image arg h h' vm Hd|prev s r Hprev Hrun Hcycle].
    + discriminate.
    + apply deserialize_clears_syscall in Hd. cbn in Hsc. congruence.
    + assert (Hnone : VM.syscall (VM.this prev) = None).
      { unfold VM.running in Hrun. apply andb_prop in Hrun as [_ Hrun].
        apply negb_true_iff, bool_decide_eq_false in Hrun.
        destruct (VM.syscall (VM.this prev)); [exfalso; eauto | reflexivity]. }
      destruct (cycle_sets_syscall _ _ _ _ _ Hnone Hcycle Hsc) as (-> & rest & f & Hf & Hc & Hfr).
      exists prev, rest, f. auto 10.
Qed.

(** C7 on the machine of [input();] after it has trapped. *)
Lemma pending_syscall_after_call_witness :
  VM.run Sample.host 7 Sample.trapped
  = VM.serialize VMStatus.SYSCALL (Some (Syscall.mk "input" [])) Sample.trapped.
Proof.
  apply (proj1 (pending_syscall_after_call Sample.host Sample.trapped (Syscall.mk "input" [])
                  (reachable_loop Sample.host 2 _ _ (Ok tt)
                     (reachable_create Sample.host [] Sample.trap_then_pop) eq_refl)
                  eq_refl) 7%nat).
Defined.

(** C7, as the claim words it, fails: the machine of a program that ends with
    the [CALL] of a syscall is reached with the syscall pending and no frame
    left, and [run] reports the status SYSCALL for it. *)
Lemma pending_syscall_counterexample :
  VM.loop Sample.host 2 (VM.mkState [] (VM.create Sample.host Sample.trap_at_end))
  = (Ok tt, Sample.trapped_at_end)
  /\ VM.syscall (VM.this Sample.trapped_at_end) = Some (Syscall.mk "input" [])
  /\ VM.frames (VM.this Sample.trapped_at_end) = []
  /\ exists image : VMImage.t,
       VM.run Sample.host 1 Sample.trapped_at_end = (Ok image, Sample.trapped_at_end)
       /\ VMImage.status image = VMStatus.SYSCALL.
Proof.
  repeat split. eexists. split; reflexivity.
Qed.

(** ** Snapshots: writing a machine and reading it back *)








Lemma result_map_ext {A B : Type} (f g : A -> Result B) (l : list A) (l' : list B) :
  (forall x y, f x = Ok y -> g x = Ok y) ->
  result_map f l = Ok l' -> result_map g l = Ok l'.
Proof.
  intros Hfg. revert l'. induction l as [|x l IH]; simpl; intros l' H; [exact H|].
  destruct (f x) as [y|] eqn:E; [|discriminate]. rewrite (Hfg _ _ E).
  destruct (result_map f l) as [ys|]; [|discriminate]. rewrite (IH _ eq_refl). exact H.
Qed.

Lemma result_option_ext {A B : Type} (f g : A -> Result B) (o : option A) (o' : option B) :
  (forall x y, f x = Ok y -> g x = Ok y) ->
  result_option f o = Ok o' -> result_option g o = Ok o'.
Proof.
  intros Hfg H. destruct o as [x|]; simpl in *; [|exact H].
  destruct (f x) as [y|] eqn:E; [|discriminate]. rewrite (Hfg _ _ E). exact H.
Qed.

(** The tree of a value stays the same with more fuel and in a heap that has
    grown. *)
Lemma plain_value_mono (fuel fuel' : nat) (h more : Heap) (anc : list loc) (v : Value)
    (p : PlainValue) :
  plain_value fuel h anc v = Ok p -> (fuel <= fuel')%nat ->
  plain_value fuel' (h ++ more) anc v = Ok p.
Proof.
  revert fuel' anc v p. induction fuel as [|fuel IH]; intros fuel' anc v p H Hle;
    [discriminate|].
  destruct fuel' as [|fuel']; [lia|].
  destruct v; simpl in H |- *; try exact H.
  - destruct (h !! value) as [[? ?|f]|] eqn:E; inversion H; subst.
    rewrite (lookup_app_l_Some _ _ _ _ E). reflexivity.
  - destruct (decide (value ∈ anc)); [discriminate|].
    destruct (h !! value) as [[items props|f]|] eqn:E; try discriminate.
    rewrite (lookup_app_l_Some _ _ _ _ E).
    destruct (result_map _ items) as [l|] eqn:El; inversion H; subst.
    erewrite result_map_ext; [reflexivity| |exact El].
    intros x y. apply result_option_ext. intros x' y' Hx. apply IH; [exact Hx|lia].
  - destruct (decide (value ∈ anc)); [discriminate|].
    destruct (h !! value) as [[items props|f]|] eqn:E; try discriminate.
    rewrite (lookup_app_l_Some _ _ _ _ E).
    destruct (result_map _ items) as [l|] eqn:El; inversion H; subst.
    erewrite result_map_ext; [reflexivity| |exact El].
    intros x y. apply result_option_ext. intros x' y' Hx. apply IH; [exact Hx|lia].
Qed.

Lemma result_map_eq {A B : Type} (f g : A -> Result B) (l : list A) :
  (forall x, f x = g x) -> result_map f l = result_map g l.
Proof.
  intros Hfg. induction l as [|x l IH]; simpl; [reflexivity|]. rewrite Hfg, IH. reflexivity.
Qed.

(** Distinct arrays of a heap are no more than its cells. *)
Lemma ancestors_bounded (h : Heap) (anc : list loc) :
  NoDup anc -> (forall r, r ∈ anc -> (r < length h)%nat) -> (length anc <= length h)%nat.
Proof.
  intros Hnd Hlt.
  assert (H : (length anc <= length (seq 0 (length h)))%nat).
  { apply submseteq_length, NoDup_submseteq; [exact Hnd|].
    intros r Hr. apply elem_of_seq. specialize (Hlt r Hr). lia. }
  rewrite length_seq in H. exact H.
Qed.

(** The fuel is never what decides: with as many units as the heap has cells
    that are not among the ancestors, and one more, one more unit changes
    nothing, whether the value has a tree or not. *)
Lemma plain_value_fuel (fuel : nat) (h : Heap) (anc : list loc) (v : Value) :
  NoDup anc -> (forall r, r ∈ anc -> (r < length h)%nat) ->
  (length h < fuel + length anc)%nat ->
  plain_value (S fuel) h anc v = plain_value fuel h anc v.
Proof.
  revert anc v. induction fuel as [|fuel IH]; intros anc v Hnd Hlt Hfuel.
  { pose proof (ancestors_bounded h anc Hnd Hlt). simpl in Hfuel. lia. }
  assert (Harr : forall r items props, r ∉ anc -> h !! r = Some (HArray items props) ->
            result_map (result_option (plain_value (S fuel) h (r :: anc))) items
            = result_map (result_option (plain_value fuel h (r :: anc))) items).
  { intros r items props Hr E. apply result_map_eq. intros [x|]; [|reflexivity].
    unfold result_option. rewrite IH; [reflexivity | | |].
    - constructor; assumption.
    - intros r' [->|Hr']%elem_of_cons; [eapply lookup_lt_Some, E | apply Hlt, Hr'].
    - simpl. lia. }
  destruct v; try reflexivity.
  - change (plain_value (S (S fuel)) h anc (VTuple value))
      with (match (if decide (value ∈ anc) then Throw CircularStructure
                   else match h !! value with
                        | Some (HArray items _) =>
                            result_map (result_option (plain_value (S fuel) h (value :: anc))) items
                        | _ => Throw HeapFault
                        end) with Ok l => Ok (PlTuple l) | Throw e => Throw e end).
    change (plain_value (S fuel) h anc (VTuple value))
      with (match (if decide (value ∈ anc) then Throw CircularStructure
                   else match h !! value with
                        | Some (HArray items _) =>
                            result_map (result_option (plain_value fuel h (value :: anc))) items
                        | _ => Throw HeapFault
                        end) with Ok l => Ok (PlTuple l) | Throw e => Throw e end).
    destruct (decide (value ∈ anc)); [reflexivity|].
    destruct (h !! value) as [[items props|f]|] eqn:E; try reflexivity.
    rewrite (Harr _ _ _ n E). reflexivity.
  - change (plain_value (S (S fuel)) h anc (VList value))
      with (match (if decide (value ∈ anc) then Throw CircularStructure
                   else match h !! value with
                        | Some (HArray items _) =>
                            result_map (result_option (plain_value (S fuel) h (value :: anc))) items
                        | _ => Throw HeapFault
                        end) with Ok l => Ok (PlList l) | Throw e => Throw e end).
    change (plain_value (S fuel) h anc (VList value))
      with (match (if decide (value ∈ anc) then Throw CircularStructure
                   else match h !! value with
                        | Some (HArray items _) =>
                            result_map (result_option (plain_value fuel h (value :: anc))) items
                        | _ => Throw HeapFault
                        end) with Ok l => Ok (PlList l) | Throw e => Throw e end).
    destruct (decide (value ∈ anc)); [reflexivity|].
    destruct (h !! value) as [[items props|f]|] eqn:E; try reflexivity.
    rewrite (Harr _ _ _ n E). reflexivity.
Qed.

(** [plain] has all the fuel a value of the heap can use: what it returns,
    a tree or an exception, is what any larger amount of fuel returns. *)
Lemma plain_enough_fuel (fuel : nat) (h : Heap) (v : Value) :
  (S (length h) <= fuel)%nat -> plain_value fuel h [] v = plain h v.
Proof.
  unfold plain. induction 1 as [|fuel Hle IH]; [reflexivity|].
  rewrite plain_value_fuel; [exact IH | constructor | intros r Hr; inversion Hr | simpl; lia].
Qed.










Lemma plain_grows (h more : Heap) (v : Value) (p : PlainValue) :
  plain h v = Ok p -> plain (h ++ more) v = Ok p.
Proof.
  unfold plain. intros H. eapply plain_value_mono; [exact H|]. rewrite length_app. lia.
Qed.

Lemma plain_slots_grows (h more : Heap) (l : list Slot) (ps : list (option PlainValue)) :
  plain_slots h l = Ok ps -> plain_slots (h ++ more) l = Ok ps.
Proof.
  unfold plain_slots. apply result_map_ext. intros x y. apply result_option_ext.
  intros v p. apply plain_grows.
Qed.











Lemma run_0 (host : Host.t) (s : VM.State) :
  VM.run host 0 s
  = match VM.plain_vm s with
    | Ok p => (Ok (VMImage.mk p (VM.status_of (VM.this s)) (VM.syscall (VM.this s))), s)
    | Throw e => (Throw e, s)
    end.
Proof. reflexivity. Qed.











(** * Further properties of the machine *)

(** ** Operands *)

(** An instruction that takes an operand from an empty stack throws the
    CompilerBug of [Stack.pop] and changes nothing; one that takes two operands
    from a stack of one throws it after it has taken the one. *)
Theorem execute_stack_underflow (host : Host.t) (h : Heap) (d : list Value)
    (rest : list CallFrame.t) (ip : Z) (text : list Instruction.t)
    (g : list (string * Slot)) (sc : option Syscall.t) (op : Opcode.t) (line : nat)
    (v : option nat) :
  op ∈ [Opcode.POP; Opcode.OR; Opcode.AND; Opcode.ADD; Opcode.SUB; Opcode.MUL; Opcode.DIV;
        Opcode.MOD; Opcode.LT; Opcode.GT; Opcode.LTE; Opcode.GTE; Opcode.EQ; Opcode.NEQ;
        Opcode.JUMPF; Opcode.JUMPT; Opcode.CALL; Opcode.NEG; Opcode.INC; Opcode.DEC;
        Opcode.COPY; Opcode.SUBSCRIPT; Opcode.STORE_SUBSCRIPT; Opcode.NOT] ->
  VM.execute host (Instruction.mk op line v) (machine h d rest ip [] text g sc)
  = (Throw CompilerBug, machine h d rest ip [] text g sc)
  /\ (op ∈ [Opcode.OR; Opcode.AND; Opcode.ADD; Opcode.SUB; Opcode.MUL; Opcode.DIV;
            Opcode.MOD; Opcode.LT; Opcode.GT; Opcode.LTE; Opcode.GTE; Opcode.EQ;
            Opcode.NEQ; Opcode.SUBSCRIPT; Opcode.STORE_SUBSCRIPT] ->
      forall x : Slot,
        VM.execute host (Instruction.mk op line v) (machine h d rest ip [x] text g sc)
        = (Throw CompilerBug, machine h d rest ip [] text g sc)).
Proof.
  intros Hop. split.
  - repeat (apply elem_of_cons in Hop as [->|Hop]);
      try (unfold_execute; rewrite (bind_throw _ _ _ _ _ (pop_machine_empty _ _ _ _ _ _ _));
           reflexivity);
      [|inversion Hop].
    unfold_execute. destruct v as [[|n]|]; cbn [default from_option id VM.pop_args].
    + rewrite ret_bind, (bind_throw _ _ _ _ _ (pop_machine_empty _ _ _ _ _ _ _)). reflexivity.
    + rewrite (bind_throw _ _ _ _ _ (bind_throw _ _ _ _ _ (pop_machine_empty _ _ _ _ _ _ _))).
      reflexivity.
    + rewrite ret_bind, (bind_throw _ _ _ _ _ (pop_machine_empty _ _ _ _ _ _ _)). reflexivity.

  - clear Hop. intros Hop x.
    repeat (apply elem_of_cons in Hop as [->|Hop]);
      try (unfold_execute;
           rewrite (bind_ok _ _ _ _ _ (pop_machine _ _ _ _ _ _ _ [] x));
           rewrite (bind_throw _ _ _ _ _ (pop_machine_empty _ _ _ _ _ _ _));
           reflexivity).
    inversion Hop.
Qed.

(** [POP] on an empty stack. *)
Lemma execute_stack_underflow_witness :
  VM.execute Sample.host (Instruction.mk Opcode.POP 1 None) (machine [] [] [] 0 [] [] [] None)
  = (Throw CompilerBug, machine [] [] [] 0 [] [] [] None).
Proof.
  apply (execute_stack_underflow Sample.host [] [] [] 0 [] [] None Opcode.POP 1 None).
  constructor.
Defined.

(** ** Arithmetic and logic *)

Lemma bind_eq {S A B : Type} (c : M S A) (k : A -> M S B) (s : S) :
  (c ≫= k) s = match c s with
               | (Ok a, s') => k a s'
               | (Throw e, s') => (Throw e, s')
               end.
Proof. reflexivity. Qed.

Lemma boolean_operands_values (line : nat) (a b : Value) (s : VM.State) :
  VM.boolean_operands line (Some a) (Some b) s
  = match a, b with
    | VBoolean x, VBoolean y => (Ok (x, y), s)
    | _, _ => (Throw (InvalidType line ValueType.BOOLEAN (type_of a)), s)
    end.
Proof. destruct a; try reflexivity; destruct b; reflexivity. Qed.

Lemma numeric_operands_numbers (line : nat) (x y : float) (s : VM.State) :
  VM.numeric_operands line (Some (VNumber x)) (Some (VNumber y)) s = (Ok (Some x, Some y), s).
Proof. reflexivity. Qed.

(** [DIV] and [MOD] on two Numbers: a divisor that is [=== 0], minus zero
    included, raises DivisionByZero once both operands are gone from the
    stack; any other divisor, NaN included, gives the quotient or the
    remainder. *)
Theorem div_mod_by_zero (host : Host.t) (h : Heap) (d : list Value)
    (rest : list CallFrame.t) (ip : Z) (st : list Slot) (text : list Instruction.t)
    (g : list (string * Slot)) (sc : option Syscall.t) (x y : float) (line : nat)
    (v : option nat) :
  let before := machine h d rest ip (st ++ [Some (VNumber y); Some (VNumber x)]) text g sc in
  let after (r : float) := machine h d rest ip (st ++ [Some (VNumber r)]) text g sc in
  VM.execute host (Instruction.mk Opcode.DIV line v) before
  = (if JsNumber.is_zero x then (Throw (DivisionByZero line), machine h d rest ip st text g sc)
     else (Ok tt, after (y / x)%float))
  /\ VM.execute host (Instruction.mk Opcode.MOD line v) before
     = (if JsNumber.is_zero x then (Throw (DivisionByZero line), machine h d rest ip st text g sc)
        else (Ok tt, after (JsNumber.rem y x)))
  /\ JsNumber.is_zero PrimFloat.neg_zero = true
  /\ JsNumber.is_zero PrimFloat.nan = false.
Proof.
  cbv zeta. snoc2 st (Some (VNumber y)) (Some (VNumber x)).
  split; [|split; [|split; reflexivity]].
  - unfold_execute. pop2. rewrite (bind_ok _ _ _ _ _ (numeric_operands_numbers _ _ _ _)).
    cbn [is_zero to_number default from_option].
    destruct (JsNumber.is_zero x); [reflexivity | apply push_machine].
  - unfold_execute. pop2. rewrite (bind_ok _ _ _ _ _ (numeric_operands_numbers _ _ _ _)).
    cbn [is_zero to_number default from_option].
    destruct (JsNumber.is_zero x); [reflexivity | apply push_machine].
Qed.

(** The operators that take two Numbers check the operand on top of the stack
    first: when it is no Number the InvalidType they raise names its tag, and
    the tag of the other operand only when the top one is a Number.  Both
    operands are gone from the stack. *)
Theorem numeric_operand_types (host : Host.t) (h : Heap) (d : list Value)
    (rest : list CallFrame.t) (ip : Z) (st : list Slot) (text : list Instruction.t)
    (g : list (string * Slot)) (sc : option Syscall.t) (op : Opcode.t) (a b : Value)
    (line : nat) (v : option nat) :
  op ∈ [Opcode.MUL; Opcode.DIV; Opcode.MOD; Opcode.LT; Opcode.GT; Opcode.LTE; Opcode.GTE] ->
  type_of a <> ValueType.NUMBER \/ type_of b <> ValueType.NUMBER ->
  VM.execute host (Instruction.mk op line v)
    (machine h d rest ip (st ++ [Some b; Some a]) text g sc)
  = (Throw (InvalidType line ValueType.NUMBER
              (if decide (type_of a = ValueType.NUMBER) then type_of b else type_of a)),
     machine h d rest ip st text g sc).
Proof.
  intros Hop Hty. snoc2 st (Some b) (Some a).
  assert (Hnum : VM.numeric_operands line (Some a) (Some b)
                   (machine h d rest ip st text g sc)
                 = (Throw (InvalidType line ValueType.NUMBER
                             (if decide (type_of a = ValueType.NUMBER)
                              then type_of b else type_of a)),
                    machine h d rest ip st text g sc)).
  { unfold VM.numeric_operands. cbn [VM.defined]. rewrite !ret_bind.
    destruct a; cbn [number_payload type_of];
      try (destruct (decide _) as [E|E]; [discriminate E | reflexivity]);
      (destruct (decide _) as [_|E]; [|contradiction]);
      rewrite ret_bind;
      destruct b; cbn [number_payload type_of] in Hty |- *; try reflexivity;
      destruct Hty as [Hty|Hty]; contradiction. }
  repeat (apply elem_of_cons in Hop as [->|Hop]);
    try (unfold_execute; pop2; rewrite (bind_throw _ _ _ _ _ Hnum); reflexivity).
  inversion Hop.
Qed.

(** [1 < true] *)
Lemma numeric_operand_types_witness :
  VM.execute Sample.host (Instruction.mk Opcode.LT 7 None)
    (machine [] [] [] 0 [Some (VNumber 1); Some (VBoolean true)] [] [] None)
  = (Throw (InvalidType 7 ValueType.NUMBER ValueType.BOOLEAN), machine [] [] [] 0 [] [] [] None).
Proof.
  apply (numeric_operand_types Sample.host [] [] [] 0 [] [] [] None Opcode.LT
           (VBoolean true) (VNumber 1) 7 None).
  - do 4 constructor.
  - left. discriminate.
Defined.

(** [OR] and [AND] take two Booleans, the one pushed first on the left.  When
    either operand is no Boolean the InvalidType they raise names the tag of
    the operand on top of the stack, also when that one is a Boolean. *)
Theorem and_or_operands (host : Host.t) (h : Heap) (d : list Value)
    (rest : list CallFrame.t) (ip : Z) (st : list Slot) (text : list Instruction.t)
    (g : list (string * Slot)) (sc : option Syscall.t) (a b : Value) (line : nat)
    (v : option nat) :
  let before := machine h d rest ip (st ++ [Some b; Some a]) text g sc in
  let outcome (f : bool -> bool -> bool) :=
    match a, b with
    | VBoolean x, VBoolean y =>
        (Ok tt, machine h d rest ip (st ++ [Some (VBoolean (f y x))]) text g sc)
    | _, _ =>
        (Throw (InvalidType line ValueType.BOOLEAN (type_of a)),
         machine h d rest ip st text g sc)
    end in
  VM.execute host (Instruction.mk Opcode.OR line v) before = outcome orb
  /\ VM.execute host (Instruction.mk Opcode.AND line v) before = outcome andb.
Proof.
  cbv zeta. snoc2 st (Some b) (Some a).
  split; unfold_execute; pop2; rewrite bind_eq, boolean_operands_values;
    destruct a; try reflexivity; destruct b; try reflexivity; apply push_machine.
Qed.

(** [ADD] adds two Numbers and joins two Strings, the one pushed first on the
    left; [SUB] subtracts the Number on top from the one below.  On operands
    of two tags, or of one tag that is none of Number, String and List, [ADD]
    raises an InvalidType that names the tag of the operand on top as the
    expected one and the other as the actual one; so does [SUB] unless both
    are Numbers. *)
Theorem add_sub_operands (host : Host.t) (h : Heap) (d : list Value)
    (rest : list CallFrame.t) (ip : Z) (st : list Slot) (text : list Instruction.t)
    (g : list (string * Slot)) (sc : option Syscall.t) (line : nat) (v : option nat) :
  let run (op : Opcode.t) (b a : Value) :=
    VM.execute host (Instruction.mk op line v)
      (machine h d rest ip (st ++ [Some b; Some a]) text g sc) in
  let pushed (r : Value) := (Ok tt, machine h d rest ip (st ++ [Some r]) text g sc) in
  let mismatch (b a : Value) :=
    (Throw (InvalidType line (type_of a) (type_of b)), machine h d rest ip st text g sc) in
  (forall x y : float, run Opcode.ADD (VNumber y) (VNumber x) = pushed (VNumber (y + x)%float))
  /\ (forall x y : string, run Opcode.ADD (VString y) (VString x) = pushed (VString (y +:+ x)))
  /\ (forall x y : float, run Opcode.SUB (VNumber y) (VNumber x) = pushed (VNumber (y - x)%float))
  /\ (forall a b : Value,
        type_of a <> type_of b
        \/ type_of a ∉ [ValueType.NUMBER; ValueType.STRING; ValueType.LIST] ->
        run Opcode.ADD b a = mismatch b a)
  /\ (forall a b : Value,
        type_of a <> ValueType.NUMBER \/ type_of b <> ValueType.NUMBER ->
        run Opcode.SUB b a = mismatch b a).
Proof.
  cbv zeta. repeat split.
  - intros x y. snoc2 st (Some (VNumber y)) (Some (VNumber x)). unfold_execute. pop2.
    cbn [number_payload]. apply push_machine.
  - intros x y. snoc2 st (Some (VString y)) (Some (VString x)). unfold_execute. pop2.
    cbn [number_payload]. apply push_machine.
  - intros x y. snoc2 st (Some (VNumber y)) (Some (VNumber x)). unfold_execute. pop2.
    cbn [number_payload]. apply push_machine.
  - intros a b Hty. snoc2 st (Some b) (Some a). unfold_execute. pop2.
    destruct a, b; cbn [number_payload type_of] in Hty |- *; try reflexivity;
      exfalso; destruct Hty as [Hty|Hty]; try (apply Hty; reflexivity);
      apply Hty; repeat constructor.
  - intros a b Hty. snoc2 st (Some b) (Some a). unfold_execute. pop2.
    destruct a, b; cbn [number_payload type_of] in Hty |- *; try reflexivity;
      exfalso; destruct Hty as [Hty|Hty]; apply Hty; reflexivity.
Qed.

(** ** Globals *)

Lemma JsMap_has_get {V : Type} (m : list (string * V)) (k : string) :
  JsMap.has m k = true <-> is_Some (JsMap.get m k).
Proof. unfold JsMap.has. apply bool_decide_eq_true. Qed.

Lemma JsMap_has_set {V : Type} (m : list (string * V)) (k k' : string) (v : V) :
  JsMap.has (JsMap.set m k v) k' = if decide (k = k') then true else JsMap.has m k'.
Proof.
  unfold JsMap.has. rewrite JsMap_get_set. destruct (decide (k = k')); [|reflexivity].
  apply bool_decide_eq_true_2. eauto.
Qed.

(** [m.set] keeps the keys in their places when the key is there. *)
Lemma JsMap_set_keys {V : Type} (m : list (string * V)) (k : string) (v : V) :
  (JsMap.set m k v).*1 = if JsMap.has m k then m.*1 else m.*1 ++ [k].
Proof.
  induction m as [|[k0 v0] m IH]; [reflexivity|]. cbn [JsMap.set].
  unfold JsMap.has in *. cbn [JsMap.get].
  destruct (decide (k0 = k)) as [->|Hne].
  - rewrite bool_decide_eq_true_2 by eauto. reflexivity.
  - cbn [fmap list_fmap]. rewrite IH.
    destruct (bool_decide (is_Some (JsMap.get m k))); reflexivity.
Qed.

Lemma gets_bind {S A B : Type} (f : S -> A) (k : A -> M S B) (s : S) :
  (gets f ≫= k) s = k (f s) s.
Proof. reflexivity. Qed.

Lemma peek_machine (h : Heap) (d : list Value) (rest : list CallFrame.t) (ip : Z)
    (st : list Slot) (text : list Instruction.t) (g : list (string * Slot))
    (sc : option Syscall.t) :
  VM.peek (machine h d rest ip st text g sc)
  = (Ok (mjoin (last st)), machine h d rest ip st text g sc).
Proof. unfold VM.peek. rewrite (bind_ok _ _ _ _ _ (top_frame_machine _ _ _ _ _ _ _ _)). reflexivity. Qed.

Lemma global_id_machine (h : Heap) (d : list Value) (rest : list CallFrame.t) (ip : Z)
    (st : list Slot) (text : list Instruction.t) (g : list (string * Slot))
    (sc : option Syscall.t) (value : nat) (id : string) :
  d !! value = Some (VString id) ->
  VM.global_id (Some value) (machine h d rest ip st text g sc)
  = (Ok id, machine h d rest ip st text g sc).
Proof.
  intros H. unfold VM.global_id, VM.data_at, gets, mbind, M_bind, bind. cbn. rewrite H.
  reflexivity.
Qed.

(** A global that was declared can be loaded: [DECLAREGL] takes the value on
    top of the stack as the value of a name that is not a global yet, and a
    [LOADGL] of the name pushes it again.  Declaring the name once more raises
    VariableAlreadyDeclared and leaves the stack as it is. *)
Theorem global_declare_load (host : Host.t) (h : Heap) (d : list Value)
    (rest : list CallFrame.t) (ip : Z) (st : list Slot) (text : list Instruction.t)
    (g : list (string * Slot)) (sc : option Syscall.t) (k k' : nat) (id : string)
    (v : Slot) (line line' : nat) :
  d !! k = Some (VString id) ->
  d !! k' = Some (VString id) ->
  JsMap.has g id = false ->
  let g' := JsMap.set g id v in
  (VM.execute host (Instruction.mk Opcode.DECLAREGL line (Some k))
   ≫= fun _ => VM.execute host (Instruction.mk Opcode.LOADGL line' (Some k')))
    (machine h d rest ip (st ++ [v]) text g sc)
  = (Ok tt, machine h d rest ip (st ++ [v]) text g' sc)
  /\ forall st' : list Slot,
       VM.execute host (Instruction.mk Opcode.DECLAREGL line' (Some k'))
         (machine h d rest ip st' text g' sc)
       = (Throw (VariableAlreadyDeclared line' id), machine h d rest ip st' text g' sc).
Proof.
  intros Hk Hk' Hg. cbv zeta. split.
  - rewrite bind_eq. unfold_execute.
    rewrite (bind_ok _ _ _ _ _ (global_id_machine _ _ _ _ _ _ _ _ k id Hk)).
    rewrite gets_bind. cbn [VM.globals VM.this machine]. rewrite Hg.
    rewrite (bind_ok _ _ _ _ _ (pop_machine _ _ _ _ _ _ _ _ _)).
    unfold modify, VM.on_this, VM.set_globals, machine. cbn.
    fold (machine h d rest ip st text (JsMap.set g id v) sc).
    rewrite (bind_ok _ _ _ _ _ (global_id_machine _ _ _ _ _ _ _ _ k' id Hk')).
    rewrite gets_bind. cbn [VM.globals VM.this machine].
    rewrite JsMap_has_set, JsMap_get_set. destruct (decide (id = id)); [|contradiction].
    apply push_machine.
  - intros st'. unfold_execute.
    rewrite (bind_ok _ _ _ _ _ (global_id_machine _ _ _ _ _ _ _ _ k' id Hk')).
    rewrite gets_bind. cbn [VM.globals VM.this machine].
    rewrite JsMap_has_set. destruct (decide (id = id)); [|contradiction]. reflexivity.
Qed.

(** [let x = 1; x] at the top level. *)
Lemma global_declare_load_witness :
  (VM.execute Sample.host (Instruction.mk Opcode.DECLAREGL 1 (Some 0%nat))
   ≫= fun _ => VM.execute Sample.host (Instruction.mk Opcode.LOADGL 2 (Some 1%nat)))
    (machine [] [VString "x"; VString "x"] [] 1 [Some (VNumber 1)] [] [] None)
  = (Ok tt, machine [] [VString "x"; VString "x"] [] 1 [Some (VNumber 1)] []
              [("x"%string, Some (VNumber 1))] None).
Proof.
  apply (global_declare_load Sample.host [] [VString "x"; VString "x"] [] 1 [] [] [] None
           0 1 "x" (Some (VNumber 1)) 1 2); reflexivity.
Defined.

(** A name that is no global can be neither loaded nor assigned: [LOADGL] and
    [SETGL] raise VariableNotDeclared and change nothing. *)
Theorem global_not_declared (host : Host.t) (h : Heap) (d : list Value)
    (rest : list CallFrame.t) (ip : Z) (st : list Slot) (text : list Instruction.t)
    (g : list (string * Slot)) (sc : option Syscall.t) (k : nat) (id : string) (line : nat) :
  d !! k = Some (VString id) ->
  JsMap.has g id = false ->
  let s := machine h d rest ip st text g sc in
  VM.execute host (Instruction.mk Opcode.LOADGL line (Some k)) s
  = (Throw (VariableNotDeclared line id), s)
  /\ VM.execute host (Instruction.mk Opcode.SETGL line (Some k)) s
     = (Throw (VariableNotDeclared line id), s).
Proof.
  intros Hk Hg. cbv zeta.
  split; unfold_execute; rewrite (bind_ok _ _ _ _ _ (global_id_machine _ _ _ _ _ _ _ _ k id Hk));
    rewrite gets_bind; cbn [VM.globals VM.this machine]; rewrite Hg;
    reflexivity.
Qed.

(** Loading [x] when nothing declares it. *)
Lemma global_not_declared_witness :
  VM.execute Sample.host (Instruction.mk Opcode.LOADGL 3 (Some 0%nat))
    (machine [] [VString "x"] [] 0 [] [] [] None)
  = (Throw (VariableNotDeclared 3 "x"), machine [] [VString "x"] [] 0 [] [] [] None).
Proof.
  apply (global_not_declared Sample.host [] [VString "x"] [] 0 [] [] [] None 0 "x" 3);
    reflexivity.
Defined.

(** [SETGL] gives a declared global the value on top of the stack and leaves
    that value where it is; the global keeps its place among the globals and
    no other global changes. *)
Theorem global_assign (host : Host.t) (h : Heap) (d : list Value)
    (rest : list CallFrame.t) (ip : Z) (st : list Slot) (text : list Instruction.t)
    (g : list (string * Slot)) (sc : option Syscall.t) (k : nat) (id : string) (v : Slot)
    (line : nat) :
  d !! k = Some (VString id) ->
  JsMap.has g id = true ->
  let g' := JsMap.set g id v in
  VM.execute host (Instruction.mk Opcode.SETGL line (Some k))
    (machine h d rest ip (st ++ [v]) text g sc)
  = (Ok tt, machine h d rest ip (st ++ [v]) text g' sc)
  /\ JsMap.get g' id = Some v
  /\ (forall id' : string, id' <> id -> JsMap.get g' id' = JsMap.get g id')
  /\ g'.*1 = g.*1.
Proof.
  intros Hk Hg. cbv zeta. split; [|split; [|split]].
  - unfold_execute. rewrite (bind_ok _ _ _ _ _ (global_id_machine _ _ _ _ _ _ _ _ k id Hk)).
    rewrite gets_bind. cbn [VM.globals VM.this machine]. rewrite Hg.
    rewrite (bind_ok _ _ _ _ _ (peek_machine _ _ _ _ _ _ _ _)), last_snoc. reflexivity.
  - rewrite JsMap_get_set. destruct (decide (id = id)); [reflexivity | contradiction].
  - intros id' Hne. rewrite JsMap_get_set. destruct (decide (id = id')); [congruence|].
    reflexivity.
  - rewrite JsMap_set_keys, Hg. reflexivity.
Qed.

(** [x = 2] for the global [x]. *)
Lemma global_assign_witness :
  VM.execute Sample.host (Instruction.mk Opcode.SETGL 1 (Some 0%nat))
    (machine [] [VString "x"] [] 0 [Some (VNumber 2)] []
       [("x"%string, Some (VNumber 1))] None)
  = (Ok tt, machine [] [VString "x"] [] 0 [Some (VNumber 2)] []
              [("x"%string, Some (VNumber 2))] None).
Proof.
  apply (global_assign Sample.host [] [VString "x"] [] 0 [] []
           [("x"%string, Some (VNumber 1))] None 0 "x" (Some (VNumber 2)) 1);
    reflexivity.
Defined.

(** ** The globals of a new machine *)

Lemma elem_of_keys {V : Type} (m : gmap string V) (k : string) :
  k ∈ (map_to_list m).*1 <-> is_Some (m !! k).
Proof.
  split.
  - intros H. apply list_elem_of_fmap in H as ([k' v] & -> & H).
    apply elem_of_map_to_list in H. eauto.
  - intros [v Hv]. apply list_elem_of_fmap. exists (k, v). split; [reflexivity|].
    apply elem_of_map_to_list. exact Hv.
Qed.

Lemma JsMap_get_fmap {V : Type} (f : string -> V) (names : list string) (k : string) :
  JsMap.get ((fun name => (name, f name)) <$> names) k
  = if decide (k ∈ names) then Some (f k) else None.
Proof.
  induction names as [|n names IH]; cbn [fmap list_fmap JsMap.get].
  - destruct (decide (k ∈ [])) as [H|_]; [inversion H | reflexivity].
  - destruct (decide (n = k)) as [->|Hne].
    + destruct (decide (k ∈ k :: names)) as [_|H]; [reflexivity|].
      exfalso. apply H. constructor.
    + rewrite IH. destruct (decide (k ∈ names)) as [H|H];
        destruct (decide (k ∈ n :: names)) as [H'|H']; try reflexivity.
      * exfalso. apply H'. constructor. exact H.
      * apply elem_of_cons in H' as [->|H']; contradiction.
Qed.

Lemma JsMap_get_foldl_set {V : Type} (f : string -> V) (names : list string)
    (m : list (string * V)) (k : string) :
  JsMap.get (foldl (fun g name => JsMap.set g name (f name)) m names) k
  = if decide (k ∈ names) then Some (f k) else JsMap.get m k.
Proof.
  revert m. induction names as [|n names IH]; intros m; cbn [foldl].
  - destruct (decide (k ∈ [])) as [H|_]; [inversion H | reflexivity].
  - rewrite IH, JsMap_get_set.
    destruct (decide (k ∈ names)) as [H|H];
      destruct (decide (k ∈ n :: names)) as [H'|H']; try reflexivity.
    + exfalso. apply H'. constructor. exact H.
    + apply elem_of_cons in H' as [->|H']; [|contradiction].
      destruct (decide (n = n)); [reflexivity | contradiction].
    + destruct (decide (n = k)) as [->|_]; [|reflexivity].
      exfalso. apply H'. constructor.
Qed.

(** [create] declares every name of the two registries as a global before
    the program runs: the name of a syscall is bound to the Syscall value of
    that name, also when a native function has the same name, the name of a
    native function to its Native value, and nothing else is a global. *)
Theorem create_declares_host_names (host : Host.t) (program : Program.t) (name : string) :
  JsMap.get (VM.globals (VM.create host program)) name
  = if decide (is_Some (Host.syscalls host !! name)) then Some (Some (VSyscall name))
    else if decide (is_Some (Host.natives host !! name)) then Some (Some (VNative name))
    else None.
Proof.
  unfold VM.create. cbn [VM.globals].
  rewrite (JsMap_get_foldl_set (fun name => Some (VSyscall name))).
  rewrite (JsMap_get_fmap (fun name => Some (VNative name))).
  destruct (decide (name ∈ (map_to_list (Host.syscalls host)).*1)) as [H|H];
    destruct (decide (is_Some (Host.syscalls host !! name))) as [H'|H'];
    try reflexivity; try (apply elem_of_keys in H; contradiction);
    try (apply elem_of_keys in H'; contradiction).
  destruct (decide (name ∈ (map_to_list (Host.natives host)).*1)) as [K|K];
    destruct (decide (is_Some (Host.natives host !! name))) as [K'|K'];
    try reflexivity; [apply elem_of_keys in K | apply elem_of_keys in K']; contradiction.
Qed.

(** ** What no instruction changes *)

Section KeepsNames.
Context {A B : Type}.

Lemma keeps_names_bind (c : M VM.State A) (k : A -> M VM.State B) :
  keeps_names c -> (forall a, keeps_names (k a)) -> keeps_names (c ≫= k).
Proof.
  intros Hc Hk s s' r H. apply bind_inv in H as [(a & s1 & H1 & H2)|(e & H1 & _)].
  - destruct (Hc _ _ _ H1) as [Hd1 Hg1]. destruct (Hk a _ _ _ H2) as [Hd2 Hg2].
    split; [congruence|]. intros id Hid. apply Hg2, Hg1, Hid.
  - exact (Hc _ _ _ H1).
Qed.

(** A computation that changes nothing of a machine but its frames, its heap
    and its pending syscall. *)
Lemma keeps_names_same (c : M VM.State A) :
  (forall s s' r, c s = (r, s') ->
     VM.data (VM.this s') = VM.data (VM.this s)
     /\ VM.globals (VM.this s') = VM.globals (VM.this s)) ->
  keeps_names c.
Proof.
  intros Hc s s' r H. destruct (Hc _ _ _ H) as [Hd Hg]. split; [exact Hd|].
  rewrite Hg. auto.
Qed.

Lemma keeps_names_ret (a : A) : keeps_names (mret a : M VM.State A).
Proof. apply keeps_names_same. intros s s' r H. inversion H. auto. Qed.

Lemma keeps_names_throw (e : Error) : keeps_names (throw e : M VM.State A).
Proof. apply keeps_names_same. intros s s' r H. inversion H. auto. Qed.

Lemma keeps_names_gets (f : VM.State -> A) : keeps_names (gets f).
Proof. apply keeps_names_same. intros s s' r H. inversion H. auto. Qed.

Lemma keeps_names_lift_heap (c : M Heap A) : keeps_names (VM.lift_heap c).
Proof.
  apply keeps_names_same. intros s s' r H. unfold VM.lift_heap in H.
  destruct (c (VM.heap s)). inversion H. auto.
Qed.
End KeepsNames.

Lemma keeps_names_top_frame : keeps_names VM.top_frame.
Proof.
  apply keeps_names_same. intros s s' r H. unfold VM.top_frame in H.
  destruct (pop_last _) as [[? ?]|]; inversion H; auto.
Qed.

Lemma keeps_names_update_top_frame (f : CallFrame.t -> CallFrame.t) :
  keeps_names (VM.update_top_frame f).
Proof.
  apply keeps_names_same. intros s s' r H. unfold VM.update_top_frame in H.
  destruct (pop_last _) as [[? ?]|]; inversion H; auto.
Qed.

Lemma keeps_names_modify_this (f : VM.t -> VM.t) :
  (forall vm, VM.data (f vm) = VM.data vm /\ VM.globals (f vm) = VM.globals vm) ->
  keeps_names (modify (VM.on_this f)).
Proof. intros Hf. apply keeps_names_same. intros s s' r H. inversion H. apply Hf. Qed.

Lemma keeps_names_modify_heap (f : Heap -> Heap) : keeps_names (modify (VM.on_heap f)).
Proof. apply keeps_names_same. intros s s' r H. inversion H. auto. Qed.

Lemma keeps_names_read_array (r : loc) : keeps_names (VM.read_array r).
Proof.
  apply keeps_names_same. intros s s' x H. unfold VM.read_array in H.
  destruct (VM.heap s !! r) as [[? ?|?]|]; inversion H; auto.
Qed.

Lemma keeps_names_read_function (r : loc) : keeps_names (VM.read_function r).
Proof.
  apply keeps_names_same. intros s s' x H. unfold VM.read_function in H.
  destruct (VM.heap s !! r) as [[? ?|?]|]; inversion H; auto.
Qed.

(** [globals.set] is the one change the globals see. *)
Lemma keeps_names_set_global (id : string) (v : Slot) :
  keeps_names (modify (VM.on_this (fun vm =>
    VM.set_globals (JsMap.set (VM.globals vm) id v) vm))).
Proof.
  intros s s' r H. inversion H; subst. split; [reflexivity|]. intros id' Hid. cbn.
  rewrite JsMap_has_set. destruct (decide (id = id')); [reflexivity | exact Hid].
Qed.

(** Decompose a computation into primitives that keep the constants and the
    names of the globals. *)
Ltac names_kept :=
  repeat first
    [ apply keeps_names_bind; [|intros]
    | apply keeps_names_ret
    | apply keeps_names_throw
    | apply keeps_names_gets
    | apply keeps_names_lift_heap
    | apply keeps_names_top_frame
    | apply keeps_names_update_top_frame
    | apply keeps_names_modify_heap
    | apply keeps_names_read_array
    | apply keeps_names_read_function
    | apply keeps_names_set_global
    | apply keeps_names_modify_this; intros; split; reflexivity
    | match goal with
      | |- keeps_names (match ?x with _ => _ end) => destruct x
      | |- keeps_names (let '(_, _) := ?x in _) => destruct x
      end ].

Lemma keeps_names_pop : keeps_names VM.pop.
Proof. unfold VM.pop. names_kept. Qed.

Lemma keeps_names_push (v : Slot) : keeps_names (VM.push v).
Proof. unfold VM.push. names_kept. Qed.

Lemma keeps_names_pop_args (n : nat) (acc : list Slot) : keeps_names (VM.pop_args n acc).
Proof.
  revert acc. induction n as [|n IH]; intros acc; simpl.
  - apply keeps_names_ret.
  - apply keeps_names_bind; [apply keeps_names_pop|]. intros v. apply IH.
Qed.

Lemma keeps_names_execute (host : Host.t) (i : Instruction.t) :
  keeps_names (VM.execute host i).
Proof.
  unfold VM.execute, VM.call_native, VM.call_function, VM.call_syscall, VM.jump,
    VM.global_id, VM.data_at, VM.peek, VM.alloc, VM.write_cell, VM.numeric_operands,
    VM.numeric_operand, VM.boolean_operands, VM.defined.
  destruct (Instruction.type i);
    repeat first [ apply keeps_names_pop | apply keeps_names_push | apply keeps_names_pop_args
                 | progress names_kept ].
Qed.

Lemma keeps_names_cycle (host : Host.t) : keeps_names (VM.cycle host).
Proof.
  unfold VM.cycle, VM.fetch.
  repeat first [ apply keeps_names_execute | progress names_kept ].
Qed.

Lemma keeps_names_loop (host : Host.t) (n : nat) : keeps_names (VM.loop host n).
Proof.
  induction n as [|n IH]; [apply keeps_names_ret|].
  intros s s' r H. simpl in H. destruct (VM.running (VM.this s)).
  - revert H. apply keeps_names_bind; [apply keeps_names_cycle | intros _; exact IH].
  - inversion H; subst. auto.
Qed.

(** [run] never changes the constants of the machine and never takes a name
    away from the globals, whether it returns an image or throws: in
    particular the names that [create] declares for the native functions and
    the syscalls stay declared, and a program cannot declare a global of such
    a name. *)
Theorem run_keeps_data_and_globals (host : Host.t) (steps : nat) (s s' : VM.State)
    (r : Result VMImage.t) :
  VM.run host steps s = (r, s') ->
  VM.data (VM.this s') = VM.data (VM.this s)
  /\ forall id : string,
       JsMap.has (VM.globals (VM.this s)) id = true ->
       JsMap.has (VM.globals (VM.this s')) id = true.
Proof.
  revert s s' r. change (keeps_names (VM.run host steps)). unfold VM.run.
  apply keeps_names_bind; [apply keeps_names_loop|]. intros _.
  apply keeps_names_bind; [apply keeps_names_gets|]. intros vm.
  apply keeps_names_same. intros s s' r H. unfold VM.serialize in H.
  destruct (VM.plain_vm s); inversion H; auto.
Qed.

(** [input();] up to the trap. *)
Lemma run_keeps_data_and_globals_witness :
  VM.data (VM.this Sample.trapped) = VM.data (VM.this Sample.fresh)
  /\ forall id : string,
       JsMap.has (VM.globals (VM.this Sample.fresh)) id = true ->
       JsMap.has (VM.globals (VM.this Sample.trapped)) id = true.
Proof.
  apply (run_keeps_data_and_globals Sample.host 2 Sample.fresh Sample.trapped
           (Ok (Sample.image_of Sample.trapped))).
  reflexivity.
Defined.

(** ** Local slots *)

(** [STORE i] copies the value on top of the stack to slot [i] and leaves it
    on top; a [LOAD i] after it pushes that value.  For a slot below the top
    the stack is otherwise the same. *)
Theorem store_load (host : Host.t) (h : Heap) (d : list Value)
    (rest : list CallFrame.t) (ip : Z) (st : list Slot) (text : list Instruction.t)
    (g : list (string * Slot)) (sc : option Syscall.t) (v : Slot) (i : nat)
    (line line' : nat) :
  (VM.execute host (Instruction.mk Opcode.STORE line (Some i))
   ≫= fun _ => VM.execute host (Instruction.mk Opcode.LOAD line' (Some i)))
    (machine h d rest ip (st ++ [v]) text g sc)
  = (Ok tt, machine h d rest ip (js_set (st ++ [v]) i v ++ [v]) text g sc)
  /\ ((i < length st)%nat -> js_set (st ++ [v]) i v = <[i := v]> st ++ [v]).
Proof.
  split.
  - rewrite bind_eq. unfold_execute.
    rewrite (bind_ok _ _ _ _ _ (peek_machine _ _ _ _ _ _ _ _)), last_snoc.
    rewrite update_top_frame_machine. cbv iota beta. unfold CallFrame.set_stack.
    cbn [CallFrame.stack CallFrame.ip CallFrame.text].
    change (mjoin (Some v)) with v.
    fold (machine h d rest ip (js_set (st ++ [v]) i v) text g sc).
    rewrite (bind_ok _ _ _ _ _ (top_frame_machine _ _ _ _ _ _ _ _)).
    cbn [CallFrame.stack mbind option_bind]. rewrite js_get_set. apply push_machine.
  - intros Hi. unfold js_set. rewrite length_app. cbn [length].
    destruct (decide (i < length st + 1)%nat); [|lia].
    apply insert_app_l. exact Hi.
Qed.

(** ** Jumps *)

Lemma fetch_machine (host : Host.t) (h : Heap) (d : list Value) (rest : list CallFrame.t)
    (ip : Z) (st : list Slot) (text : list Instruction.t) (g : list (string * Slot))
    (sc : option Syscall.t) (i : Instruction.t) :
  0 <= ip -> text !! Z.to_nat ip = Some i ->
  VM.fetch (machine h d rest ip st text g sc) = (Ok i, machine h d rest ip st text g sc).
Proof.
  intros Hip Hi. unfold VM.fetch.
  rewrite (bind_ok _ _ _ _ _ (top_frame_machine _ _ _ _ _ _ _ _)).
  cbn [CallFrame.ip CallFrame.text]. destruct (decide (0 <= ip)); [|contradiction].
  rewrite Hi. reflexivity.
Qed.

(** The end of a turn of the loop on a machine whose innermost frame stands
    at [ip]. *)
Lemma advance_machine (h : Heap) (d : list Value) (rest : list CallFrame.t)
    (ip : Z) (st : list Slot) (text : list Instruction.t) (g : list (string * Slot))
    (sc : option Syscall.t) :
  (VM.update_top_frame (fun f => CallFrame.set_ip (CallFrame.ip f + 1) f)
   ≫= fun _ => VM.top_frame ≫= fun f =>
      if decide (Z.of_nat (length (CallFrame.text f)) <= CallFrame.ip f)
      then modify (VM.on_this (fun vm => VM.set_frames (removelast (VM.frames vm)) vm))
      else mret tt)
    (machine h d rest ip st text g sc)
  = (Ok tt, goes_on_at (ip + 1) h d rest st text g sc).
Proof.
  rewrite (bind_ok _ _ _ _ _ (update_top_frame_machine _ _ _ _ _ _ _ _ _)).
  cbv beta. unfold CallFrame.set_ip. cbn [CallFrame.ip CallFrame.stack CallFrame.text].
  fold (machine h d rest (ip + 1) st text g sc).
  rewrite (bind_ok _ _ _ _ _ (top_frame_machine _ _ _ _ _ _ _ _)).
  cbn [CallFrame.ip CallFrame.text]. unfold goes_on_at.
  destruct (decide (Z.of_nat (length text) <= ip + 1)); [|reflexivity].
  unfold modify, VM.on_this, VM.set_frames, machine. cbn. rewrite removelast_last.
  reflexivity.
Qed.

(** A turn of the loop on [JUMP t] makes the instruction at index [t] the
    next one, and ends the frame when [t] is past its last instruction.
    [JUMPF t] and [JUMPT t] take the value on top of the stack and do the same
    when it is falsy, respectively truthy, in the sense of JavaScript, whatever
    its tag; otherwise the next instruction is the one after the jump. *)
Theorem cycle_jump (host : Host.t) (h : Heap) (d : list Value)
    (rest : list CallFrame.t) (ip : Z) (st : list Slot) (text : list Instruction.t)
    (g : list (string * Slot)) (sc : option Syscall.t) (op : Opcode.t) (t line : nat)
    (c : Value) :
  0 <= ip ->
  text !! Z.to_nat ip = Some (Instruction.mk op line (Some t)) ->
  (op = Opcode.JUMP ->
   VM.cycle host (machine h d rest ip st text g sc)
   = (Ok tt, goes_on_at (Z.of_nat t) h d rest st text g sc))
  /\ (op = Opcode.JUMPF ->
      VM.cycle host (machine h d rest ip (st ++ [Some c]) text g sc)
      = (Ok tt, goes_on_at (if truthy (value_of c) then ip + 1 else Z.of_nat t)
                  h d rest st text g sc))
  /\ (op = Opcode.JUMPT ->
      VM.cycle host (machine h d rest ip (st ++ [Some c]) text g sc)
      = (Ok tt, goes_on_at (if truthy (value_of c) then Z.of_nat t else ip + 1)
                  h d rest st text g sc)).
Proof.
  intros Hip Hi.
  assert (Hjump : forall st', VM.jump (Some t) (machine h d rest ip st' text g sc)
                    = (Ok tt, machine h d rest (Z.of_nat t - 1) st' text g sc)).
  { intros st'. unfold VM.jump. rewrite update_top_frame_machine. reflexivity. }
  repeat split; intros ->; unfold VM.cycle;
    rewrite (bind_ok _ _ _ _ _ (fetch_machine host _ _ _ _ _ _ _ _ _ Hip Hi)).
  - unfold_execute. rewrite (bind_ok _ _ _ _ _ (Hjump _)).
    rewrite advance_machine. replace (Z.of_nat t - 1 + 1) with (Z.of_nat t) by lia.
    reflexivity.
  - unfold_execute. rewrite bind_eq.
    rewrite (bind_ok _ _ _ _ _ (pop_machine _ _ _ _ _ _ _ _ _)). cbn [VM.defined].
    rewrite ret_bind. destruct (truthy (value_of c)).
    + change ((mret tt : M VM.State unit) (machine h d rest ip st text g sc))
        with (Ok tt, machine h d rest ip st text g sc).
      cbv iota beta. apply advance_machine.
    + rewrite Hjump. cbv iota beta. rewrite advance_machine.
      replace (Z.of_nat t - 1 + 1) with (Z.of_nat t) by lia. reflexivity.
  - unfold_execute. rewrite bind_eq.
    rewrite (bind_ok _ _ _ _ _ (pop_machine _ _ _ _ _ _ _ _ _)). cbn [VM.defined].
    rewrite ret_bind. destruct (truthy (value_of c)).
    + rewrite Hjump. cbv iota beta. rewrite advance_machine.
      replace (Z.of_nat t - 1 + 1) with (Z.of_nat t) by lia. reflexivity.
    + change ((mret tt : M VM.State unit) (machine h d rest ip st text g sc))
        with (Ok tt, machine h d rest ip st text g sc).
      cbv iota beta. apply advance_machine.
Qed.

(** [JUMPF 0] on Null in a text of two instructions. *)
Lemma cycle_jump_witness :
  let text := [Instruction.mk Opcode.NOP 1 None; Instruction.mk Opcode.JUMPF 1 (Some 0%nat)] in
  VM.cycle Sample.host (machine [] [] [] 1 [Some VNull] text [] None)
  = (Ok tt, machine [] [] [] 0 [] text [] None).
Proof.
  cbv zeta.
  apply (proj1 (proj2 (cycle_jump Sample.host [] [] [] 1 []
           [Instruction.mk Opcode.NOP 1 None; Instruction.mk Opcode.JUMPF 1 (Some 0%nat)]
           [] None Opcode.JUMPF 0 1 VNull ltac:(lia) eq_refl)) eq_refl).
Defined.

(** ** Lists and tuples *)

Lemma same_key_refl (k : option float) : same_key k k = true.
Proof. destruct k as [x|]; [|reflexivity]. apply FloatAxioms.Leibniz.eqb_spec. reflexivity. Qed.

Lemma prop_get_set (props : list (option float * Slot)) (k : option float) (v : Slot) :
  prop_get (prop_set props k v) k = v.
Proof.
  induction props as [|[k' v'] props IH]; cbn [prop_set prop_get].
  - rewrite same_key_refl. reflexivity.
  - destruct (same_key k' k) eqn:E; cbn [prop_get]; rewrite E; [reflexivity | exact IH].
Qed.

(** What was written at a key is what is read at that key. *)
Lemma array_get_set (items : list Slot) (props : list (option float * Slot))
    (k : option float) (v : Slot) :
  match array_set items props k v with
  | HArray items' props' => array_get items' props' k = v
  | HFunction _ => False
  end.
Proof.
  unfold array_set, array_get. destruct (k ≫= JsNumber.array_index) as [i|].
  - apply js_get_set.
  - apply prop_get_set.
Qed.

Lemma write_cell_machine (h : Heap) (d : list Value) (rest : list CallFrame.t) (ip : Z)
    (st : list Slot) (text : list Instruction.t) (g : list (string * Slot))
    (sc : option Syscall.t) (r : loc) (c : HeapCell) :
  VM.write_cell r c (machine h d rest ip st text g sc)
  = (Ok tt, machine (<[r := c]> h) d rest ip st text g sc).
Proof. reflexivity. Qed.

Lemma alloc_machine (h : Heap) (d : list Value) (rest : list CallFrame.t) (ip : Z)
    (st : list Slot) (text : list Instruction.t) (g : list (string * Slot))
    (sc : option Syscall.t) (c : HeapCell) :
  VM.alloc c (machine h d rest ip st text g sc)
  = (Ok (length h), machine (h ++ [c]) d rest ip st text g sc).
Proof. reflexivity. Qed.

(** [STORE_SUBSCRIPT] takes the key, the List and the value from the stack,
    writes the value into the array of the List at the key and pushes the value
    again.  It checks no bound and raises no IndexError: past the end the
    array grows.  The array then reads the value at that key, every value
    that refers to the array sees it, and no other object changes.  A Tuple in
    the place of the List raises InvalidType and the value stays on the stack;
    so does a key that is no Number, and the tag the error names as the actual
    one is then the tag of the List. *)
Theorem store_subscript (host : Host.t) (h : Heap) (d : list Value)
    (rest : list CallFrame.t) (ip : Z) (st : list Slot) (text : list Instruction.t)
    (g : list (string * Slot)) (sc : option Syscall.t) (r : loc) (items : list Slot)
    (props : list (option float * Slot)) (k : float) (x : Slot) (line : nat)
    (v : option nat) :
  h !! r = Some (HArray items props) ->
  let run (name key : Value) :=
    VM.execute host (Instruction.mk Opcode.STORE_SUBSCRIPT line v)
      (machine h d rest ip (st ++ [x; Some name; Some key]) text g sc) in
  let h' := <[r := array_set items props (Some k) x]> h in
  run (VList r) (VNumber k) = (Ok tt, machine h' d rest ip (st ++ [x]) text g sc)
  /\ (exists (items' : list Slot) (props' : list (option float * Slot)),
        h' !! r = Some (HArray items' props') /\ array_get items' props' (Some k) = x)
  /\ (forall r' : loc, r' <> r -> h' !! r' = h !! r')
  /\ run (VTuple r) (VNumber k)
     = (Throw (InvalidType line ValueType.LIST ValueType.TUPLE),
        machine h d rest ip (st ++ [x]) text g sc)
  /\ (forall key : Value,
        type_of key <> ValueType.NUMBER ->
        run (VList r) key
        = (Throw (InvalidType line ValueType.NUMBER ValueType.LIST),
           machine h d rest ip (st ++ [x]) text g sc)).
Proof.
  intros Hr. cbv zeta.
  assert (Hpop : forall name key (k' : Slot -> Slot -> M VM.State unit),
            (VM.pop ≫= fun key' => VM.pop ≫= fun name' => k' key' name')
              (machine h d rest ip (st ++ [x; Some name; Some key]) text g sc)
            = k' (Some key) (Some name) (machine h d rest ip (st ++ [x]) text g sc)).
  { intros name key k'.
    replace (st ++ [x; Some name; Some key]) with (((st ++ [x]) ++ [Some name]) ++ [Some key])
      by (rewrite <- !app_assoc; reflexivity).
    rewrite !(bind_ok _ _ _ _ _ (pop_machine _ _ _ _ _ _ _ _ _)). reflexivity. }
  split; [|split; [|split; [|split]]].
  - unfold_execute. rewrite Hpop. cbn [VM.defined]. rewrite !ret_bind. cbn [number_payload].
    rewrite (bind_ok _ _ _ _ _ (pop_machine _ _ _ _ _ _ _ _ _)).
    rewrite (bind_ok _ _ _ _ _ (read_array_machine _ _ _ _ _ _ _ _ _ _ _ Hr)).
    rewrite (bind_ok _ _ _ _ _ (write_cell_machine _ _ _ _ _ _ _ _ _ _)).
    apply push_machine.
  - pose proof (array_get_set items props (Some k) x) as Hgs.
    destruct (array_set items props (Some k) x) as [items' props'|]; [|contradiction].
    exists items', props'. split; [|exact Hgs].
    apply list_lookup_insert_eq. apply lookup_lt_is_Some. eauto.
  - intros r' Hne. apply list_lookup_insert_ne. congruence.
  - unfold_execute. rewrite Hpop. reflexivity.
  - intros key Hkey. unfold_execute. rewrite Hpop. cbn [VM.defined]. rewrite !ret_bind.
    destruct key; cbn [number_payload type_of] in Hkey |- *; try reflexivity; contradiction.
Qed.

(** [a[3] = true] for the list [[null]]. *)
Lemma store_subscript_witness :
  VM.execute Sample.host (Instruction.mk Opcode.STORE_SUBSCRIPT 1 None)
    (machine [HArray [Some VNull] []] [] [] 0
       [Some (VBoolean true); Some (VList 0); Some (VNumber 3)] [] [] None)
  = (Ok tt, machine [HArray [Some VNull; None; None; Some (VBoolean true)] []] [] [] 0
              [Some (VBoolean true)] [] [] None).
Proof.
  apply (store_subscript Sample.host [HArray [Some VNull] []] [] [] 0 [] [] [] None
           0%nat [Some VNull] [] 3%float (Some (VBoolean true)) 1 None eq_refl).
Defined.

Lemma pop_args_underflow (h : Heap) (d : list Value) (rest : list CallFrame.t) (ip : Z)
    (st : list Slot) (text : list Instruction.t) (g : list (string * Slot))
    (sc : option Syscall.t) (n : nat) (acc : list Slot) :
  (length st < n)%nat ->
  VM.pop_args n acc (machine h d rest ip st text g sc)
  = (Throw CompilerBug, machine h d rest ip [] text g sc).
Proof.
  revert n acc. induction st as [|x st IH] using rev_ind; intros n acc Hn.
  - destruct n as [|n]; [simpl in Hn; lia|]. cbn [VM.pop_args].
    rewrite (bind_throw _ _ _ _ _ (pop_machine_empty _ _ _ _ _ _ _)). reflexivity.
  - destruct n as [|n]; [lia|]. cbn [VM.pop_args].
    rewrite (bind_ok _ _ _ _ _ (pop_machine _ _ _ _ _ _ _ _ _)). apply IH.
    rewrite length_app in Hn. simpl in Hn. lia.
Qed.

(** [MAKE_LIST n] and [MAKE_TUPLE n] take the [n] values on top of the stack
    and push a List, respectively a Tuple, of a new array that holds them in
    the order they were pushed; no object that existed changes.  With fewer
    than [n] values on the stack they throw the CompilerBug of [Stack.pop]
    and leave the stack empty. *)
Theorem make_list_tuple (host : Host.t) (h : Heap) (d : list Value)
    (rest : list CallFrame.t) (ip : Z) (st : list Slot) (text : list Instruction.t)
    (g : list (string * Slot)) (sc : option Syscall.t) (elements : list Slot)
    (line : nat) :
  let run (op : Opcode.t) (n : nat) (stack : list Slot) :=
    VM.execute host (Instruction.mk op line (Some n)) (machine h d rest ip stack text g sc) in
  let h' := h ++ [HArray elements []] in
  run Opcode.MAKE_LIST (length elements) (st ++ elements)
  = (Ok tt, machine h' d rest ip (st ++ [Some (VList (length h))]) text g sc)
  /\ run Opcode.MAKE_TUPLE (length elements) (st ++ elements)
     = (Ok tt, machine h' d rest ip (st ++ [Some (VTuple (length h))]) text g sc)
  /\ h !! length h = None
  /\ (forall r : loc, (r < length h)%nat -> h' !! r = h !! r)
  /\ (forall n : nat, (length st < n)%nat ->
        run Opcode.MAKE_LIST n st = (Throw CompilerBug, machine h d rest ip [] text g sc)
        /\ run Opcode.MAKE_TUPLE n st = (Throw CompilerBug, machine h d rest ip [] text g sc)).
Proof.
  cbv zeta. split; [|split; [|split; [|split]]].
  - unfold_execute. cbn [default from_option]. unfold id.
    rewrite (bind_ok _ _ _ _ _ (pop_args_machine _ _ _ _ _ _ _ _ _ _)), app_nil_r.
    rewrite (bind_ok _ _ _ _ _ (alloc_machine _ _ _ _ _ _ _ _ _)). apply push_machine.
  - unfold_execute. cbn [default from_option]. unfold id.
    rewrite (bind_ok _ _ _ _ _ (pop_args_machine _ _ _ _ _ _ _ _ _ _)), app_nil_r.
    rewrite (bind_ok _ _ _ _ _ (alloc_machine _ _ _ _ _ _ _ _ _)). apply push_machine.
  - apply lookup_ge_None. lia.
  - intros r Hr. apply lookup_app_l. exact Hr.
  - intros n Hn. split; unfold_execute; cbn [default from_option]; unfold id;
      rewrite (bind_throw _ _ _ _ _ (pop_args_underflow _ _ _ _ _ _ _ _ _ _ Hn)); reflexivity.
Qed.

(** ** Calls *)



(** [CALL] on a value that is no Function, no Native and no Syscall raises
    InvalidType with the tag of the value, once the arguments and the value
    are gone from the stack. *)
Theorem execute_call_not_callable (host : Host.t) (h : Heap) (d : list Value)
    (rest : list CallFrame.t) (ip : Z) (st : list Slot) (text : list Instruction.t)
    (g : list (string * Slot)) (sc : option Syscall.t) (callee : Value) (args : list Slot)
    (line : nat) :
  type_of callee ∉ [ValueType.FUNCTION; ValueType.NATIVE; ValueType.SYSCALL] ->
  VM.execute host (Instruction.mk Opcode.CALL line (Some (length args)))
    (machine h d rest ip (st ++ [Some callee] ++ args) text g sc)
  = (Throw (InvalidType line ValueType.FUNCTION (type_of callee)),
     machine h d rest ip st text g sc).
Proof.
  intros Hty. rewrite app_assoc. unfold_execute. cbn [default from_option]. unfold id.
  rewrite (bind_ok _ _ _ _ _ (pop_args_machine _ _ _ _ _ _ _ _ _ _)).
  rewrite (bind_ok _ _ _ _ _ (pop_machine _ _ _ _ _ _ _ _ _)). cbn [VM.defined].
  rewrite ret_bind.
  destruct callee; try reflexivity; exfalso; apply Hty; cbn [type_of]; repeat constructor.
Qed.

(** [1(2)] *)
Lemma execute_call_not_callable_witness :
  VM.execute Sample.host (Instruction.mk Opcode.CALL 4 (Some 1%nat))
    (machine [] [] [] 0 [Some (VNumber 1); Some (VNumber 2)] [] [] None)
  = (Throw (InvalidType 4 ValueType.FUNCTION ValueType.NUMBER),
     machine [] [] [] 0 [] [] [] None).
Proof.
  apply (execute_call_not_callable Sample.host [] [] [] 0 [] [] [] None (VNumber 1)
           [Some (VNumber 2)] 4).
  intros H. repeat (apply elem_of_cons in H as [H|H]; [discriminate H|]). inversion H.
Defined.

(** ** Calls and returns in the loop of [run] *)

(** A turn of the loop on the [CALL] of a user function: the new frame goes
    on at its first instruction, and the frame of the caller still stands on
    the [CALL]. *)
Theorem cycle_call_function (host : Host.t) (h : Heap) (d : list Value)
    (rest : list CallFrame.t) (ip : Z) (st : list Slot) (text : list Instruction.t)
    (g : list (string * Slot)) (sc : option Syscall.t) (r : loc) (f : Function.t)
    (args : list Slot) (line : nat) :
  0 <= ip ->
  text !! Z.to_nat ip = Some (Instruction.mk Opcode.CALL line (Some (length args))) ->
  h !! r = Some (HFunction f) ->
  length (Function.args f) = length args ->
  VM.cycle host (machine h d rest ip (st ++ [Some (VFunction r)] ++ args) text g sc)
  = (Ok tt, goes_on_at 0 h d (rest ++ [CallFrame.mk ip st text])
              (Some (VFunction r) :: args) (Function.body f) g sc).
Proof.
  intros Hip Hi Hr Hn. unfold VM.cycle.
  rewrite (bind_ok _ _ _ _ _ (fetch_machine host _ _ _ _ _ _ _ _ _ Hip Hi)).
  rewrite bind_eq. rewrite app_assoc. unfold_execute. cbn [default from_option]. unfold id.
  rewrite (bind_ok _ _ _ _ _ (pop_args_machine _ _ _ _ _ _ _ _ _ _)).
  rewrite (bind_ok _ _ _ _ _ (pop_machine _ _ _ _ _ _ _ _ _)). cbn [VM.defined].
  rewrite ret_bind, app_nil_r. unfold VM.call_function.
  rewrite (bind_ok _ _ _ _ _ (read_function_machine _ _ _ _ _ _ _ _ _ _ Hr)).
  rewrite Hn. destruct (decide (Some (length args) = Some (length args))); [|contradiction].
  unfold modify, VM.on_this, VM.set_frames. cbn [VM.heap VM.this VM.data VM.frames
    VM.globals VM.syscall machine]. rewrite <- app_assoc. cbn [app].
  change (rest ++ [CallFrame.mk ip st text; CallFrame.mk (-1) (Some (VFunction r) :: args)
                     (Function.body f)])
    with (rest ++ [CallFrame.mk ip st text]
               ++ [CallFrame.mk (-1) (Some (VFunction r) :: args) (Function.body f)]).
  rewrite app_assoc.
  fold (machine h d (rest ++ [CallFrame.mk ip st text]) (-1) (Some (VFunction r) :: args)
          (Function.body f) g sc).
  apply advance_machine.
Qed.

(** Calling a function of no parameter whose body is [RET 0]. *)
Lemma cycle_call_function_witness :
  let f := Function.mk "f" [] [Instruction.mk Opcode.RET 1 (Some 0%nat)] in
  let text := [Instruction.mk Opcode.CALL 1 (Some 0%nat); Instruction.mk Opcode.POP 1 None] in
  VM.cycle Sample.host (machine [HFunction f] [] [] 0 [Some (VFunction 0)] text [] None)
  = (Ok tt, VM.mkState [HFunction f]
              (VM.mk [] [CallFrame.mk 0 [] text;
                         CallFrame.mk 0 [Some (VFunction 0)] (Function.body f)] [] None)).
Proof.
  cbv zeta.
  apply (cycle_call_function Sample.host
           [HFunction (Function.mk "f" [] [Instruction.mk Opcode.RET 1 (Some 0%nat)])]
           [] [] 0 []
           [Instruction.mk Opcode.CALL 1 (Some 0%nat); Instruction.mk Opcode.POP 1 None]
           [] None 0%nat _ [] 1%nat ltac:(lia) eq_refl eq_refl eq_refl).
Defined.

(** A turn of the loop on [RET] in a frame that has a caller: the value goes
    to the stack of the caller, the frame is dropped, and the caller goes on
    at the instruction after its [CALL]; the caller is dropped as well when
    the [CALL] was its last instruction. *)
Theorem cycle_ret (host : Host.t) (h : Heap) (d : list Value)
    (rest : list CallFrame.t) (caller : CallFrame.t) (ip : Z) (st : list Slot)
    (text : list Instruction.t) (g : list (string * Slot)) (sc : option Syscall.t)
    (x : Slot) (line : nat) (flag : option nat) :
  0 <= ip ->
  text !! Z.to_nat ip = Some (Instruction.mk Opcode.RET line flag) ->
  VM.cycle host (machine h d (rest ++ [caller]) ip (st ++ [x]) text g sc)
  = (Ok tt, goes_on_at (CallFrame.ip caller + 1) h d rest
              (CallFrame.stack caller ++ [if decide (flag = Some 1%nat) then x else Some VNull])
              (CallFrame.text caller) g sc).
Proof.
  intros Hip Hi. unfold VM.cycle.
  rewrite (bind_ok _ _ _ _ _ (fetch_machine host _ _ _ _ _ _ _ _ _ Hip Hi)).
  rewrite (bind_ok _ _ _ _ _ (ret_returns_to_caller _ _ _ _ _ _ _ _ _ _ _ _ _)).
  destruct caller as [cip cst ctext]. unfold CallFrame.set_stack.
  cbn [CallFrame.ip CallFrame.stack CallFrame.text].
  fold (machine h d rest cip (cst ++ [if decide (flag = Some 1%nat) then x else Some VNull])
          ctext g sc).
  apply advance_machine.
Qed.

(** [return 7;] to a caller that stands on its [CALL]. *)
Lemma cycle_ret_witness :
  let text := [Instruction.mk Opcode.CALL 1 (Some 0%nat); Instruction.mk Opcode.POP 1 None] in
  VM.cycle Sample.host
    (machine [] [] [CallFrame.mk 0 [] text] 0 [Some (VNumber 7)]
       [Instruction.mk Opcode.RET 2 (Some 1%nat)] [] None)
  = (Ok tt, machine [] [] [] 1 [Some (VNumber 7)] text [] None).
Proof.
  cbv zeta.
  apply (cycle_ret Sample.host [] [] []
           (CallFrame.mk 0 [] [Instruction.mk Opcode.CALL 1 (Some 0%nat);
                               Instruction.mk Opcode.POP 1 None])
           0 [] [Instruction.mk Opcode.RET 2 (Some 1%nat)] [] None
           (Some (VNumber 7)) 2 (Some 1%nat) ltac:(lia) eq_refl).
Defined.

(** ** The loop of [run] *)

Lemma loop_not_running (host : Host.t) (n : nat) (s : VM.State) :
  VM.running (VM.this s) = false -> VM.loop host n s = (Ok tt, s).
Proof. intros H. destruct n as [|n]; [reflexivity|]. simpl. rewrite H. reflexivity. Qed.

Lemma loop_add (host : Host.t) (n m : nat) (s : VM.State) :
  VM.loop host (n + m) s = (VM.loop host n ≫= fun _ => VM.loop host m) s.
Proof.
  revert s. induction n as [|n IH]; intros s; [reflexivity|].
  cbn [Nat.add VM.loop]. rewrite (bind_eq (fun s => if VM.running (VM.this s) then _ else _)).
  destruct (VM.running (VM.this s)) eqn:Hrun.
  - rewrite !bind_eq. destruct (VM.cycle host s) as [[[]|e] s1]; [|reflexivity].
    rewrite IH, bind_eq. reflexivity.
  - rewrite loop_not_running by exact Hrun. reflexivity.
Qed.

(** Steps add up: [run] for [n + m] steps is the loop of [run] for [n] steps
    followed by [run] for [m] steps on the machine as the loop has left it;
    the snapshot that [run] takes in between changes nothing. *)
Theorem run_add (host : Host.t) (n m : nat) (s : VM.State) :
  VM.run host (n + m) s = (VM.loop host n ≫= fun _ => VM.run host m) s
  /\ forall (image : VMImage.t) (s' : VM.State),
       VM.run host n s = (Ok image, s') ->
       VM.run host (n + m) s = VM.run host m s'.
Proof.
  assert (E : VM.run host (n + m) s = (VM.loop host n ≫= fun _ => VM.run host m) s).
  { unfold VM.run. rewrite (bind_eq (VM.loop host (n + m))), loop_add.
    rewrite !bind_eq. destruct (VM.loop host n s) as [[[]|e] s1]; [|reflexivity].
    rewrite bind_eq. reflexivity. }
  split; [exact E|]. intros image s' H. rewrite E. unfold VM.run in H.
  rewrite bind_eq in H |- *. destruct (VM.loop host n s) as [[[]|e] s1]; [|discriminate].
  rewrite gets_bind in H. unfold VM.serialize in H.
  destruct (VM.plain_vm s1); inversion H; subst. reflexivity.
Qed.

(** A program with no instruction does not halt: the machine that [create]
    makes for it has one frame, [run(0)] finds it not halted, and the first
    step throws a TypeError on the instruction that is not there. *)
Theorem empty_program_throws (host : Host.t) (h : Heap) (d : list Value) (steps : nat) :
  let s := VM.mkState h (VM.create host (Program.mk [] d)) in
  VM.halted (VM.this s) = false
  /\ VM.status_of (VM.this s) = VMStatus.RUNNING
  /\ VM.run host (S steps) s = (Throw TypeError, s).
Proof. cbv zeta. repeat split. Qed.

(** ** Instructions that do not transfer control *)

Section KeepsFrames.
Context {A : Type}.

Lemma keeps_frames_ret (a : A) : keeps_frames (mret a : M VM.State A).
Proof. apply keeps_frames_pure. intros s. eexists. reflexivity. Qed.

Lemma keeps_frames_throw (e : Error) : keeps_frames (throw e : M VM.State A).
Proof. apply keeps_frames_pure. intros s. eexists. reflexivity. Qed.

Lemma keeps_frames_gets (f : VM.State -> A) : keeps_frames (gets f).
Proof. apply keeps_frames_pure. intros s. eexists. reflexivity. Qed.

(** A computation that changes the heap and the globals at most. *)
Lemma keeps_frames_same (c : M VM.State A) :
  (forall s s' r, c s = (r, s') ->
     VM.frames (VM.this s') = VM.frames (VM.this s)
     /\ VM.syscall (VM.this s') = VM.syscall (VM.this s)) ->
  keeps_frames c.
Proof.
  intros Hc s s' r H. destruct (Hc _ _ _ H) as [Hf Hs]. split; [exact Hs|].
  intros rest f Hfs. exists (CallFrame.stack f). rewrite Hf, Hfs. destruct f; reflexivity.
Qed.

Lemma keeps_frames_lift_heap (c : M Heap A) : keeps_frames (VM.lift_heap c).
Proof.
  apply keeps_frames_same. intros s s' r H. unfold VM.lift_heap in H.
  destruct (c (VM.heap s)). inversion H. auto.
Qed.
End KeepsFrames.

Lemma keeps_frames_modify_heap (f : Heap -> Heap) : keeps_frames (modify (VM.on_heap f)).
Proof. apply keeps_frames_same. intros s s' r H. inversion H. auto. Qed.

Lemma keeps_frames_set_globals (f : VM.t -> list (string * Slot)) :
  keeps_frames (modify (VM.on_this (fun vm => VM.set_globals (f vm) vm))).
Proof. apply keeps_frames_same. intros s s' r H. inversion H. auto. Qed.

Lemma keeps_frames_read_array (r : loc) : keeps_frames (VM.read_array r).
Proof.
  apply keeps_frames_pure. intros s. unfold VM.read_array.
  destruct (VM.heap s !! r) as [[? ?|?]|]; eauto.
Qed.

(** Decompose a computation into primitives that change no frame but for the
    stack of the innermost. *)
Ltac frames_kept :=
  repeat first
    [ apply keeps_frames_pop
    | apply keeps_frames_push
    | apply keeps_frames_pop_args
    | apply keeps_frames_top_frame
    | apply keeps_frames_bind; [|intros]
    | apply keeps_frames_ret
    | apply keeps_frames_throw
    | apply keeps_frames_gets
    | apply keeps_frames_lift_heap
    | apply keeps_frames_modify_heap
    | apply keeps_frames_set_globals
    | apply keeps_frames_read_array
    | match goal with
      | |- keeps_frames (match ?x with _ => _ end) => destruct x
      end ].

Lemma keeps_frames_execute (host : Host.t) (i : Instruction.t) :
  Instruction.type i ∉ [Opcode.CALL; Opcode.RET; Opcode.JUMP; Opcode.JUMPF; Opcode.JUMPT] ->
  keeps_frames (VM.execute host i).
Proof.
  intros Hi.
  unfold VM.execute, VM.global_id, VM.data_at, VM.peek, VM.alloc, VM.write_cell,
    VM.numeric_operands, VM.numeric_operand, VM.boolean_operands, VM.defined.
  destruct (Instruction.type i);
    try solve [exfalso; apply Hi; repeat constructor];
    frames_kept.
  apply (keeps_frames_update_stack (fun st => js_set st _ _)).
Qed.

(** An instruction other than [CALL], [RET] and the jumps, when it ends
    without an exception, has changed no frame but for the stack of the
    innermost, nor the constants, nor the pending syscall; the frame goes on at
    the next instruction and is dropped when there is none.  When that frame
    was the only one the machine has halted. *)
Theorem cycle_straight_line (host : Host.t) (h : Heap) (d : list Value)
    (rest : list CallFrame.t) (ip : Z) (st : list Slot) (text : list Instruction.t)
    (g : list (string * Slot)) (sc : option Syscall.t) (i : Instruction.t) (s' : VM.State) :
  0 <= ip ->
  text !! Z.to_nat ip = Some i ->
  Instruction.type i ∉ [Opcode.CALL; Opcode.RET; Opcode.JUMP; Opcode.JUMPF; Opcode.JUMPT] ->
  VM.cycle host (machine h d rest ip st text g sc) = (Ok tt, s') ->
  (exists (h' : Heap) (st' : list Slot) (g' : list (string * Slot)),
     s' = goes_on_at (ip + 1) h' d rest st' text g' sc)
  /\ (rest = [] -> sc = None -> Z.of_nat (length text) <= ip + 1 ->
      VM.status_of (VM.this s') = VMStatus.HALTED).
Proof.
  intros Hip Hi Hop H. unfold VM.cycle in H.
  rewrite (bind_ok _ _ _ _ _ (fetch_machine host _ _ _ _ _ _ _ _ _ Hip Hi)) in H.
  apply bind_inv in H as [([] & s1 & He & H)|(e & _ & Habs)]; [|discriminate].
  destruct (keeps_frames_execute host i Hop _ _ _ He) as [Hsc Hfr].
  destruct (Hfr rest (CallFrame.mk ip st text) eq_refl) as [st' Hfr'].
  pose proof (proj1 (keeps_names_execute host i _ _ _ He)) as Hd.
  assert (Es1 : s1 = machine (VM.heap s1) d rest ip st' text (VM.globals (VM.this s1)) sc).
  { destruct s1 as [h1 [d1 fs1 g1 sc1]]. cbn in Hsc, Hfr', Hd. subst. reflexivity. }
  rewrite Es1, advance_machine in H. inversion H; subst s'. clear H. split.
  - eauto.
  - intros -> -> Hlen. unfold goes_on_at.
    destruct (decide (Z.of_nat (length text) <= ip + 1)); [reflexivity | contradiction].
Qed.

(** [POP] as the last instruction of a program. *)
Lemma cycle_straight_line_witness :
  VM.cycle Sample.host
    (machine [] [] [] 0 [Some VNull] [Instruction.mk Opcode.POP 1 None] [] None)
  = (Ok tt, VM.mkState [] (VM.mk [] [] [] None))
  /\ VM.status_of (VM.this (VM.mkState [] (VM.mk [] [] [] None))) = VMStatus.HALTED.
Proof.
  split; [reflexivity|].
  apply (cycle_straight_line Sample.host [] [] [] 0 [Some VNull]
           [Instruction.mk Opcode.POP 1 None] [] None (Instruction.mk Opcode.POP 1 None)
           (VM.mkState [] (VM.mk [] [] [] None)) ltac:(lia) eq_refl).
  - intros H. repeat (apply elem_of_cons in H as [H|H]; [discriminate H|]). inversion H.
  - reflexivity.
  - reflexivity.
  - reflexivity.
  - simpl. lia.
Defined.

(** ** A list that holds itself *)

Lemma result_map_throws {A B : Type} (f : A -> Result B) (l : list A) (x : A) (e : Error) :
  x ∈ l -> f x = Throw e -> exists e', result_map f l = Throw e'.
Proof.
  intros Hx Hf. induction l as [|y l IH]; [inversion Hx|]. cbn [result_map].
  apply elem_of_cons in Hx as [<-|Hx].
  - rewrite Hf. eauto.
  - destruct (f y); [|eauto]. destruct (IH Hx) as [e' ->]. eauto.
Qed.

(** The array of a List that holds the List has no tree. *)
Lemma plain_self_reference (fuel : nat) (h : Heap) (r : loc) (items : list Slot)
    (props : list (option float * Slot)) :
  h !! r = Some (HArray items props) ->
  Some (VList r) ∈ items ->
  exists e, plain_value fuel h [] (VList r) = Throw e.
Proof.
  intros Hr Hin. destruct fuel as [|fuel]; [simpl; eauto|].
  cbn [plain_value]. destruct (decide (r ∈ [])) as [H|_]; [inversion H|]. rewrite Hr.
  destruct (result_map_throws (result_option (plain_value fuel h [r])) items
              (Some (VList r)) CircularStructure Hin) as [e He].
  - destruct fuel as [|fuel]; [reflexivity|]. cbn [result_option plain_value].
    destruct (decide (r ∈ [r])) as [_|H]; [reflexivity|]. exfalso. apply H. constructor.
  - rewrite He. eauto.
Qed.

(** A List can be stored into itself, and the machine that holds such a List
    on a stack has no snapshot: after [a[i] = a], [run] throws on the circular
    structure even for no step, and no image is returned. *)
Theorem self_containing_list (host : Host.t) (h : Heap) (d : list Value)
    (rest : list CallFrame.t) (ip : Z) (st : list Slot) (text : list Instruction.t)
    (g : list (string * Slot)) (sc : option Syscall.t) (r : loc) (items : list Slot)
    (props : list (option float * Slot)) (k : float) (i : nat) (line : nat)
    (v : option nat) :
  h !! r = Some (HArray items props) ->
  JsNumber.array_index k = Some i ->
  exists s' : VM.State,
    VM.execute host (Instruction.mk Opcode.STORE_SUBSCRIPT line v)
      (machine h d rest ip (st ++ [Some (VList r); Some (VList r); Some (VNumber k)]) text g sc)
    = (Ok tt, s')
    /\ exists e : Error, VM.run host 0 s' = (Throw e, s').
Proof.
  intros Hr Hk.
  replace (st ++ [Some (VList r); Some (VList r); Some (VNumber k)])
    with (((st ++ [Some (VList r)]) ++ [Some (VList r)]) ++ [Some (VNumber k)])
    by (rewrite <- !app_assoc; reflexivity).
  eexists. split.
  - unfold_execute. rewrite !(bind_ok _ _ _ _ _ (pop_machine _ _ _ _ _ _ _ _ _)).
    cbn [VM.defined]. rewrite !ret_bind. cbn [number_payload].
    rewrite (bind_ok _ _ _ _ _ (pop_machine _ _ _ _ _ _ _ _ _)).
    rewrite (bind_ok _ _ _ _ _ (read_array_machine _ _ _ _ _ _ _ _ _ _ _ Hr)).
    rewrite (bind_ok _ _ _ _ _ (write_cell_machine _ _ _ _ _ _ _ _ _ _)).
    apply push_machine.
  - unfold array_set. cbn [mbind option_bind]. rewrite Hk.
    set (h' := <[r := HArray (js_set items i (Some (VList r))) props]> h).
    assert (Hr' : h' !! r = Some (HArray (js_set items i (Some (VList r))) props)).
    { apply list_lookup_insert_eq. apply lookup_lt_is_Some. eauto. }
    assert (Hin : Some (VList r) ∈ js_set items i (Some (VList r))).
    { apply list_elem_of_lookup. exists i. pose proof (js_get_set items i (Some (VList r))) as E.
      unfold js_get in E. destruct (js_set items i (Some (VList r)) !! i) as [x|]; [|discriminate].
      simpl in E. subst x. reflexivity. }
    destruct (plain_self_reference (S (length h')) h' r _ _ Hr' Hin) as [e He].
    assert (Hst : exists e', plain_slots h' (st ++ [Some (VList r)]) = Throw e').
    { unfold plain_slots. apply (result_map_throws _ _ (Some (VList r)) e).
      - apply elem_of_app. right. constructor.
      - cbn [result_option]. unfold plain. rewrite He. reflexivity. }
    destruct Hst as [e' Hst].
    assert (Hfr : exists e'', result_map (VM.plain_frame h')
                     (rest ++ [CallFrame.mk ip (st ++ [Some (VList r)]) text]) = Throw e'').
    { apply (result_map_throws _ _ (CallFrame.mk ip (st ++ [Some (VList r)]) text) e').
      - apply elem_of_app. right. constructor.
      - unfold VM.plain_frame. cbn [CallFrame.stack]. rewrite Hst. reflexivity. }
    destruct Hfr as [e'' Hfr].
    rewrite run_0. unfold VM.plain_vm, machine. cbn [VM.heap VM.this VM.data VM.frames].
    destruct (result_map (plain h') d); [|eauto]. rewrite Hfr. eauto.
Qed.

(** [a[0] = a] for the list [[1]]. *)
Lemma self_containing_list_witness :
  exists s' : VM.State,
    VM.execute Sample.host (Instruction.mk Opcode.STORE_SUBSCRIPT 1 None)
      (machine [HArray [Some (VNumber 1)] []] [] [] 0
         [Some (VList 0); Some (VList 0); Some (VNumber 0)] [] [] None)
    = (Ok tt, s')
    /\ exists e : Error, VM.run Sample.host 0 s' = (Throw e, s').
Proof.
  apply (self_containing_list Sample.host [HArray [Some (VNumber 1)] []] [] [] 0 [] [] []
           None 0%nat [Some (VNumber 1)] [] 0%float 0%nat 1 None); reflexivity.
Defined.

(** * Further properties of the compiler *)

(** ** Induction on syntax trees *)

Lemma node_size_elem (child : AST.ASTNode) (nodes : list AST.ASTNode) :
  child ∈ nodes -> (node_size child <= list_sum (List.map node_size nodes))%nat.
Proof.
  induction nodes as [|n nodes IH]; intros H; [inversion H|].
  apply elem_of_cons in H as [->|H]; simpl; [lia|]. specialize (IH H). lia.
Qed.

Lemma node_size_ind (P : AST.ASTNode -> Prop) :
  (forall node, (forall child, (node_size child < node_size node)%nat -> P child) -> P node) ->
  forall node, P node.
Proof.
  intros H node. remember (node_size node) as n eqn:E. revert node E.
  induction n as [n IH] using lt_wf_ind. intros node ->. apply H.
  intros child Hlt. eapply IH; [exact Hlt | reflexivity].
Qed.

(** ** Keeping a property of the state *)

Section Stable.
Context {A B : Type} (I : Compiler.State -> Prop).

Lemma stable_bind (c : M Compiler.State A) (k : A -> M Compiler.State B) :
  stable I c -> (forall a, stable I (k a)) -> stable I (c ≫= k).
Proof.
  intros Hc Hk s s' r HI H. apply bind_inv in H as [(a & s1 & H1 & H2)|(e & H1 & _)].
  - eapply Hk; [|exact H2]. eapply Hc; eauto.
  - eapply Hc; eauto.
Qed.

Lemma establishes_stable (c : M Compiler.State A) :
  stable I c -> establishes I c (fun _ => I).
Proof. intros Hc s s' a HI H. eapply Hc; eauto. Qed.

Lemma stable_ret (a : A) : stable I (mret a : M Compiler.State A).
Proof. intros s s' r HI H. inversion H; subst. exact HI. Qed.

Lemma stable_throw (e : Error) : stable I (throw e : M Compiler.State A).
Proof. intros s s' r HI H. inversion H; subst. exact HI. Qed.

Lemma stable_gets (f : Compiler.State -> A) : stable I (gets f).
Proof. intros s s' r HI H. inversion H; subst. exact HI. Qed.
End Stable.

Section Establishes.
Context {A B : Type}.

Lemma establishes_bind (P : Compiler.State -> Prop) (Q : A -> Compiler.State -> Prop)
    (R : B -> Compiler.State -> Prop) (c : M Compiler.State A) (k : A -> M Compiler.State B) :
  establishes P c Q -> (forall a, establishes (Q a) (k a) R) -> establishes P (c ≫= k) R.
Proof.
  intros Hc Hk s s' b HP H. apply bind_inv in H as [(a & s1 & H1 & H2)|(e & _ & Habs)];
    [|discriminate].
  eapply Hk; [|exact H2]. eapply Hc; eauto.
Qed.

Lemma establishes_ret (P : Compiler.State -> Prop) (a : A) :
  establishes P (mret a : M Compiler.State A) (fun _ => P).
Proof. intros s s' a' HP H. inversion H; subst. exact HP. Qed.

Lemma establishes_throw (P : Compiler.State -> Prop) (Q : A -> Compiler.State -> Prop)
    (e : Error) :
  establishes P (throw e : M Compiler.State A) Q.
Proof. intros s s' a HP H. discriminate. Qed.

Lemma establishes_gets (P : Compiler.State -> Prop) (f : Compiler.State -> A) :
  establishes P (gets f) (fun _ => P).
Proof. intros s s' a HP H. inversion H; subst. exact HP. Qed.
End Establishes.

Section StableSteps.
Context (I : Compiler.State -> Prop).

Lemma stable_modify (f : Compiler.State -> Compiler.State) :
  (forall s, I s -> I (f s)) -> stable I (modify f).
Proof. intros Hf s s' r HI H. inversion H; subst. apply Hf, HI. Qed.

Lemma stable_emitText (opcode : Opcode.t) (line : nat) (value : option nat) :
  (forall s, I s ->
     I (Compiler.on_this (fun c => Compiler.set_text
          (Compiler.text c ++ [Instruction.mk opcode line value]) c) s)) ->
  stable I (Compiler.emitText opcode line value).
Proof. intros Hf s s' r HI H. inversion H; subst. apply Hf, HI. Qed.

Lemma stable_pushData (constant : Value) :
  (forall s, I s ->
     I (Compiler.on_this (fun c => Compiler.set_data (Compiler.data c ++ [constant]) c) s)) ->
  stable I (Compiler.pushData constant).
Proof. intros Hf s s' r HI H. inversion H; subst. apply Hf, HI. Qed.

Lemma stable_leaveLoop :
  (forall s bs cs, I s ->
     I (Compiler.on_this (fun x => Compiler.set_continues cs (Compiler.set_breaks bs x)) s)) ->
  stable I Compiler.leaveLoop.
Proof.
  intros Hf s s' r HI H. unfold Compiler.leaveLoop in H.
  destruct (pop_last (Compiler.breaks (Compiler.this s))) as [[bs b]|];
    [destruct (pop_last (Compiler.continues (Compiler.this s))) as [[cs c]|]|];
    inversion H; subst; auto.
Qed.
End StableSteps.

Lemma stable_each (I : Compiler.State -> Prop) (parseFloat : string -> float)
    (nodes : list AST.ASTNode) :
  (forall child, child ∈ nodes -> stable I (Compiler.codegen parseFloat child)) ->
  stable I ((fix each (nodes : list AST.ASTNode) : M Compiler.State unit :=
               match nodes with
               | [] => mret tt
               | child :: rest => Compiler.codegen parseFloat child;; each rest
               end) nodes).
Proof.
  induction nodes as [|n nodes IH]; intros H.
  - apply stable_ret.
  - apply stable_bind; [apply H; constructor|]. intros _. apply IH.
    intros child Hc. apply H. constructor. exact Hc.
Qed.

Lemma stable_patch_all (I : Compiler.State -> Prop) (indices : list nat) (target : nat) :
  (forall index, stable I (Compiler.patch index target)) ->
  stable I (Compiler.patch_all indices target).
Proof.
  intros H. induction indices as [|i indices IH]; [apply stable_ret|].
  cbn [Compiler.patch_all]. apply stable_bind; [apply H | intros _; exact IH].
Qed.

Lemma stable_popLocals (I : Compiler.State -> Prop) (n line : nat) :
  (forall s rest l,
     I s -> Compiler.locals (Compiler.this s) = rest ++ [l] ->
     I (Compiler.on_this (Compiler.set_locals rest)
          (Compiler.on_this (fun c => Compiler.set_text
             (Compiler.text c ++ [Instruction.mk Opcode.POP line None]) c) s))) ->
  stable I (Compiler.popLocals n line).
Proof.
  intros Hstep. induction n as [|n IH]; [apply stable_ret|].
  intros s s' r HI H. cbn [Compiler.popLocals] in H. rewrite !gets_bind in H.
  destruct (pop_last (Compiler.locals (Compiler.this s))) as [[rest l]|] eqn:E.
  - apply pop_last_Some in E. destruct (decide _).
    + inversion H; subst. exact HI.
    + rewrite bind_eq in H. cbn [Compiler.emitText] in H. rewrite bind_eq in H.
      cbn [modify] in H. eapply IH; [|exact H]. apply (Hstep s rest l HI E).
  - inversion H; subst. exact HI.
Qed.

(** Decompose a computation of the compiler into its steps: [prim] proves
    the steps that change the state, [ih] the ones on parts of the syntax
    tree. *)
Ltac stable_steps prim ih :=
  repeat first
    [ prim
    | apply stable_ret | apply stable_throw | apply stable_gets
    | apply stable_patch_all; intros
    | ih
    | match goal with
      | |- stable _ (match ?x with _ => _ end) => destruct x
      | |- stable _ (if ?x then _ else _) => destruct x
      end
    | apply stable_bind; [|intros] ].

(** ** The program only grows *)

Lemma same_opcodes_refl (t : list Instruction.t) : same_opcodes t t.
Proof. intros i x H. eauto. Qed.

Lemma same_opcodes_trans (t1 t2 t3 : list Instruction.t) :
  same_opcodes t1 t2 -> same_opcodes t2 t3 -> same_opcodes t1 t3.
Proof.
  intros H12 H23 i x H. destruct (H12 _ _ H) as (y & Hy & Ht & Hl).
  destruct (H23 _ _ Hy) as (z & Hz & Ht' & Hl'). exists z. repeat split; congruence.
Qed.

Lemma same_opcodes_app (t : list Instruction.t) (more : list Instruction.t) :
  same_opcodes t (t ++ more).
Proof. intros i x H. exists x. split; [apply lookup_app_l_Some, H | auto]. Qed.

Lemma same_opcodes_patch (t : list Instruction.t) (index target : nat) :
  same_opcodes t
    (alter (fun i => Instruction.mk (Instruction.type i) (Instruction.lineNumber i)
                       (Some target)) index t).
Proof.
  intros i x H. destruct (decide (i = index)) as [->|Hne].
  - eexists. split; [|split].
    + rewrite list_lookup_alter_eq, H. reflexivity.
    + reflexivity.
    + reflexivity.
  - exists x. rewrite list_lookup_alter_ne by congruence. auto.
Qed.

(** The side conditions of the steps of the compiler for [grown_from]. *)
Ltac grown :=
  let s := fresh "s" in
  let Hd := fresh "Hd" in
  let Hh := fresh "Hh" in
  let Ht := fresh "Ht" in
  intros s; intros; match goal with H : grown_from _ _ _ _ |- _ => destruct H as (Hd & Hh & Ht) end;
  split; [|split]; cbn;
  first [ assumption
        | apply prefix_app_r; assumption
        | eapply same_opcodes_trans; [exact Ht|];
          first [ apply same_opcodes_app | apply same_opcodes_patch ] ].

Section Grows.
Variable parseFloat : string -> float.
Variables (d0 : list Value) (h0 : Heap) (t0 : list Instruction.t).

Lemma grown_patch (index target : nat) :
  stable (grown_from d0 h0 t0) (Compiler.patch index target).
Proof. apply stable_modify. grown. Qed.

Lemma grown_emitText (opcode : Opcode.t) (line : nat) (value : option nat) :
  stable (grown_from d0 h0 t0) (Compiler.emitText opcode line value).
Proof. apply stable_emitText. grown. Qed.

Lemma grown_pushData (constant : Value) :
  stable (grown_from d0 h0 t0) (Compiler.pushData constant).
Proof. apply stable_pushData. grown. Qed.

Lemma grown_set_locals (f : Compiler.t -> list Local.t) :
  stable (grown_from d0 h0 t0)
    (modify (Compiler.on_this (fun c => Compiler.set_locals (f c) c))).
Proof. apply stable_modify. grown. Qed.

Lemma grown_popLocals (n line : nat) :
  stable (grown_from d0 h0 t0) (Compiler.popLocals n line).
Proof. apply stable_popLocals. grown. Qed.
End Grows.

Ltac grown_prim :=
  first [ apply grown_emitText | apply grown_pushData | apply grown_patch
        | apply grown_popLocals | apply grown_set_locals
        | apply stable_leaveLoop; grown
        | apply stable_modify; grown ].

Lemma codegen_function_inv (parseFloat : string -> float) (name : Token.t)
    (params : list Token.t) (body : AST.ASTNode) (line : nat) (s s' : Compiler.State)
    (r : Result unit) :
  Compiler.codegen parseFloat (AST.FunctionDeclaration name params body line) s = (r, s') ->
  exists (r0 : Result unit) (inner : Compiler.State),
    Compiler.codegen parseFloat body (function_compiler name params s) = (r0, inner)
    /\ match r0 with
       | Ok _ =>
           (Compiler.emitText Opcode.DATA line
              (Some (length (Compiler.data (Compiler.this s))))
            ≫= fun _ => Compiler.declareVariable (Token.value name) line)
             (function_compiled name params line s inner)
           = (r, s')
       | Throw e =>
           r = Throw e
           /\ s' = Compiler.mkState (Compiler.heap inner)
                     (Compiler.set_data (Compiler.data (Compiler.this inner))
                        (Compiler.this s))
       end.
Proof.
  cbn [Compiler.codegen]. fold (function_compiler name params s).
  destruct (Compiler.codegen parseFloat body (function_compiler name params s))
    as [[[]|e] inner]; intros H.
  - exists (Ok tt), inner. split; [reflexivity | exact H].
  - exists (Throw e), inner. inversion H. auto.
Qed.

(** Writing a cell that is not among the first ones leaves those as they are. *)
Lemma prefix_insert (h0 h : Heap) (r : loc) (c : HeapCell) :
  h0 `prefix_of` h -> (length h0 <= r)%nat -> h0 `prefix_of` <[r := c]> h.
Proof.
  intros [k ->] Hr. rewrite insert_app_r_alt by exact Hr. apply prefix_app_r. reflexivity.
Qed.

Lemma codegen_grown (parseFloat : string -> float) (node : AST.ASTNode) :
  forall (d0 : list Value) (h0 : Heap) (t0 : list Instruction.t),
    stable (grown_from d0 h0 t0) (Compiler.codegen parseFloat node).
Proof.
  induction node as [node IH] using node_size_ind. intros d0 h0 t0.
  assert (IHs : forall nodes,
            (list_sum (List.map node_size nodes) < node_size node)%nat ->
            stable (grown_from d0 h0 t0)
              ((fix each (nodes : list AST.ASTNode) : M Compiler.State unit :=
                  match nodes with
                  | [] => mret tt
                  | child :: rest => Compiler.codegen parseFloat child;; each rest
                  end) nodes)).
  { intros nodes Hlt. apply stable_each. intros child Hc. apply IH.
    pose proof (node_size_elem _ _ Hc). lia. }
  destruct node; cbn [Compiler.codegen];
    unfold Compiler.loadVariable, Compiler.assignVariable, Compiler.declareVariable,
      Compiler.enterLoop;
    stable_steps grown_prim ltac:(first [ apply IH; cbn [node_size]; lia
                                        | apply IHs; cbn [node_size]; lia ]).
  intros s s' r HI H.
  apply codegen_function_inv in H as (r0 & inner & Hbody & H).
  assert (Hin : grown_from d0 h0 [] (function_compiler name params s)).
  { destruct HI as (Hd & Hh & _). split; [|split]; cbn.
    - apply prefix_app_r, Hd.
    - apply prefix_app_r, Hh.
    - intros i x Hx. discriminate. }
  apply (IH node ltac:(cbn [node_size]; lia) d0 h0 [] _ _ _ Hin) in Hbody.
  destruct HI as (Hd & Hh & Ht). destruct Hbody as (Hd' & Hh' & _).
  destruct r0 as [[]|e].
  - assert (Hst : stable (grown_from d0 h0 t0)
                    (Compiler.emitText Opcode.DATA lineNumber
                       (Some (length (Compiler.data (Compiler.this s))))
                     ≫= fun _ => Compiler.declareVariable (Token.value name) lineNumber))
      by (unfold Compiler.declareVariable; stable_steps grown_prim fail).
    apply (Hst _ _ _) in H; [exact H|].
    split; [|split]; cbn; [exact Hd' | | exact Ht].
    apply prefix_insert; [exact Hh'|]. apply prefix_length in Hh. lia.
  - destruct H as [-> ->]. split; [|split]; cbn; assumption.
Qed.

Lemma same_opcodes_length (t t' : list Instruction.t) :
  same_opcodes t t' -> (length t <= length t')%nat.
Proof.
  intros H. destruct (decide (length t <= length t')%nat) as [Hle|Hgt]; [exact Hle|].
  destruct (lookup_lt_is_Some_2 t (length t') ltac:(lia)) as [x Hx].
  destruct (H _ _ Hx) as (y & Hy & _). apply lookup_lt_Some in Hy. lia.
Qed.

(** [codegen] only adds to what the compiler holds, whether it ends with an
    exception or not: the constants keep their indices, the Function objects
    that were there keep their bodies, and the instructions keep their
    indices, opcodes and line numbers; patching changes operands only. *)
Theorem codegen_only_appends (parseFloat : string -> float) (node : AST.ASTNode)
    (s s' : Compiler.State) (r : Result unit) :
  Compiler.codegen parseFloat node s = (r, s') ->
  Compiler.data (Compiler.this s) `prefix_of` Compiler.data (Compiler.this s')
  /\ Compiler.heap s `prefix_of` Compiler.heap s'
  /\ same_opcodes (Compiler.text (Compiler.this s)) (Compiler.text (Compiler.this s'))
  /\ (length (Compiler.text (Compiler.this s)) <= length (Compiler.text (Compiler.this s')))%nat.
Proof.
  intros H.
  destruct (codegen_grown parseFloat node (Compiler.data (Compiler.this s)) (Compiler.heap s)
              (Compiler.text (Compiler.this s)) s s' r) as (Hd & Hh & Ht).
  - split; [|split]; [reflexivity | reflexivity | apply same_opcodes_refl].
  - exact H.
  - repeat split; try assumption. apply same_opcodes_length, Ht.
Qed.

(** [if (true) 1;] compiled by a new compiler: the [JUMPF] is patched. *)
Lemma codegen_only_appends_witness :
  let node := AST.If (AST.Literal (Token.mk TokenType.TRUE "true") 1)
                (AST.ExpressionStatement (Sample.number "1") 1) None 1 in
  let s := Compiler.mkState [] (Compiler.new [] []) in
  let s' := (Compiler.codegen Sample.parseFloat node s).2 in
  Compiler.data (Compiler.this s) `prefix_of` Compiler.data (Compiler.this s')
  /\ Compiler.heap s `prefix_of` Compiler.heap s'
  /\ same_opcodes (Compiler.text (Compiler.this s)) (Compiler.text (Compiler.this s'))
  /\ (length (Compiler.text (Compiler.this s)) <= length (Compiler.text (Compiler.this s')))%nat.
Proof.
  cbv zeta.
  apply (codegen_only_appends Sample.parseFloat
           (AST.If (AST.Literal (Token.mk TokenType.TRUE "true") 1)
              (AST.ExpressionStatement (Sample.number "1") 1) None 1)
           (Compiler.mkState [] (Compiler.new [] [])) _ (Ok tt)).
  reflexivity.
Defined.

(** ** The names of the locals *)

Lemma findIndex_None (locals : list Local.t) (name : string) :
  Compiler.findIndex locals name = None <-> name ∉ Local.name <$> locals.
Proof.
  induction locals as [|l locals IH]; cbn [Compiler.findIndex fmap list_fmap].
  - split; [intros _ H; inversion H | reflexivity].
  - destruct (decide (Local.name l = name)) as [E|E].
    + split; [discriminate|]. intros H. exfalso. apply H. rewrite E. constructor.
    + rewrite not_elem_of_cons. destruct (Compiler.findIndex locals name) as [i|].
      * split; [discriminate|]. intros [_ H]. apply IH in H. discriminate.
      * split; [|reflexivity]. intros _. split; [congruence | apply IH; reflexivity].
Qed.

(** Where no two locals have one name, the last local of a name is the first. *)
Lemma findLastIndex_unique (locals : list Local.t) (name : string) :
  NoDup (Local.name <$> locals) ->
  Compiler.findLastIndex locals name = Compiler.findIndex locals name.
Proof.
  induction locals as [|l locals IH]; [reflexivity|].
  cbn [Compiler.findIndex Compiler.findLastIndex fmap list_fmap]. intros Hnd.
  apply NoDup_cons in Hnd as [Hl Hnd]. rewrite (IH Hnd).
  destruct (decide (Local.name l = name)) as [E|E].
  - rewrite <- E in *. rewrite (proj2 (findIndex_None locals (Local.name l)) Hl). reflexivity.
  - destruct (Compiler.findIndex locals name); reflexivity.
Qed.

Ltac unique_prim :=
  let K := fresh "K" in
  first [ apply stable_emitText; intros ? K; exact K
        | apply stable_pushData; intros ? K; exact K
        | apply stable_leaveLoop; intros ? ? ? K; exact K
        | apply stable_modify; intros ? K; exact K ].

Lemma unique_declareVariable (name : string) (line : nat) :
  stable unique_names (Compiler.declareVariable name line).
Proof.
  intros s s' r HI H. unfold Compiler.declareVariable in H. rewrite gets_bind in H.
  destruct (decide (Compiler.depth (Compiler.this s) = 0%nat)).
  - assert (Hst : stable unique_names
                    (Compiler.pushData (VString name)
                     ≫= fun k => Compiler.emitText Opcode.DECLAREGL line (Some k)
                     ≫= fun _ => mret tt))
      by stable_steps unique_prim fail.
    exact (Hst s s' r HI H).
  - rewrite gets_bind in H.
    destruct (Compiler.findIndex (Compiler.locals (Compiler.this s)) name) eqn:E;
      inversion H; subst; [exact HI|].
    unfold unique_names. cbn. rewrite fmap_app. apply NoDup_app. split; [exact HI|].
    split; [|apply NoDup_singleton].
    intros x Hx Hx'. apply list_elem_of_singleton in Hx'. subst x.
    apply findIndex_None in E. contradiction.
Qed.

Lemma unique_popLocals (n line : nat) : stable unique_names (Compiler.popLocals n line).
Proof.
  apply stable_popLocals. intros s rest l HI E. unfold unique_names in *. cbn.
  rewrite E, fmap_app in HI. apply NoDup_app in HI as [HI _]. exact HI.
Qed.

Lemma codegen_unique (parseFloat : string -> float) (node : AST.ASTNode) :
  stable unique_names (Compiler.codegen parseFloat node).
Proof.
  induction node as [node IH] using node_size_ind.
  assert (IHs : forall nodes,
            (list_sum (List.map node_size nodes) < node_size node)%nat ->
            stable unique_names
              ((fix each (nodes : list AST.ASTNode) : M Compiler.State unit :=
                  match nodes with
                  | [] => mret tt
                  | child :: rest => Compiler.codegen parseFloat child;; each rest
                  end) nodes)).
  { intros nodes Hlt. apply stable_each. intros child Hc. apply IH.
    pose proof (node_size_elem _ _ Hc). lia. }
  destruct node; cbn [Compiler.codegen];
    unfold Compiler.loadVariable, Compiler.assignVariable, Compiler.enterLoop, Compiler.patch;
    stable_steps ltac:(first [ apply unique_declareVariable | apply unique_popLocals
                             | unique_prim ])
                 ltac:(first [ apply IH; cbn [node_size]; lia
                             | apply IHs; cbn [node_size]; lia ]).
  intros s s' r HI H.
  apply codegen_function_inv in H as (r0 & inner & _ & H).
  destruct r0 as [[]|e].
  - assert (Hst : stable unique_names
                    (Compiler.emitText Opcode.DATA lineNumber
                       (Some (length (Compiler.data (Compiler.this s))))
                     ≫= fun _ => Compiler.declareVariable (Token.value name) lineNumber))
      by (apply stable_bind; [unique_prim | intros _; apply unique_declareVariable]).
    apply (Hst _ _ _) in H; [exact H|]. exact HI.
  - destruct H as [-> ->]. exact HI.
Qed.

(** No declaration gives a second local the name of a local: whatever
    [codegen] compiles and however it ends, locals that had names of their own
    before have names of their own after. *)
Theorem codegen_keeps_names_unique (parseFloat : string -> float) (node : AST.ASTNode)
    (s s' : Compiler.State) (r : Result unit) :
  unique_names s ->
  Compiler.codegen parseFloat node s = (r, s') ->
  unique_names s'.
Proof. intros HI H. exact (codegen_unique parseFloat node s s' r HI H). Qed.

(** [{ let a = 1; { let a = 2; } }]: the second declaration is refused. *)
Lemma codegen_keeps_names_unique_witness :
  unique_names
    (Compiler.codegen Sample.parseFloat
       (AST.Block Sample.shadowing 1) (Compiler.mkState [] (Compiler.new [] []))).2.
Proof.
  apply (codegen_keeps_names_unique Sample.parseFloat (AST.Block Sample.shadowing 1)
           (Compiler.mkState [] (Compiler.new [] [])) _
           (Throw (VariableAlreadyDeclaredInScope 2 "a"))).
  - apply NoDup_nil_2.
  - reflexivity.
Defined.

(** Where no two locals have one name, an identifier that names a local is
    read from and written to one slot: inside a block [loadVariable] emits a
    [LOAD] and [assignVariable] a [STORE] of the same index, that of the one
    local of the name.  (The search of [loadVariable] is from the innermost
    local outwards, that of [assignVariable] from the outermost inwards.) *)
Theorem load_assign_same_slot (name : string) (line : nat) (i : nat) (s : Compiler.State) :
  unique_names s ->
  Compiler.depth (Compiler.this s) <> 0%nat ->
  Compiler.findIndex (Compiler.locals (Compiler.this s)) name = Some i ->
  Compiler.loadVariable name line s = (Ok tt, emitted Opcode.LOAD line (Some i) s)
  /\ Compiler.assignVariable name line s = (Ok tt, emitted Opcode.STORE line (Some i) s).
Proof.
  intros HI Hd Hi. split.
  - unfold Compiler.loadVariable. rewrite gets_bind, (findLastIndex_unique _ _ HI), Hi.
    reflexivity.
  - unfold Compiler.assignVariable. rewrite !gets_bind.
    destruct (decide (Compiler.depth (Compiler.this s) = 0%nat)); [contradiction|].
    rewrite Hi. reflexivity.
Qed.

(** The parameter [x] of a function [f]. *)
Lemma load_assign_same_slot_witness :
  let s := Compiler.mkState []
             (Compiler.mk [] [] [Local.mk "f" 0; Local.mk "x" 1] 1 [] []) in
  Compiler.loadVariable "x" 1 s = (Ok tt, emitted Opcode.LOAD 1 (Some 1%nat) s)
  /\ Compiler.assignVariable "x" 1 s = (Ok tt, emitted Opcode.STORE 1 (Some 1%nat) s).
Proof.
  cbv zeta.
  apply (load_assign_same_slot "x" 1 1
           (Compiler.mkState [] (Compiler.mk [] [] [Local.mk "f" 0; Local.mk "x" 1] 1 [] []))).
  - unfold unique_names. cbn. apply NoDup_cons_2; [|apply NoDup_singleton].
    intros K. apply list_elem_of_singleton in K. discriminate.
  - discriminate.
  - reflexivity.
Defined.

(** ** Scopes *)

Lemma establishes_each (I : Compiler.State -> Prop) (parseFloat : string -> float)
    (nodes : list AST.ASTNode) :
  (forall child, child ∈ nodes ->
     establishes I (Compiler.codegen parseFloat child) (fun _ => I)) ->
  establishes I
    ((fix each (nodes : list AST.ASTNode) : M Compiler.State unit :=
        match nodes with
        | [] => mret tt
        | child :: rest => Compiler.codegen parseFloat child;; each rest
        end) nodes)
    (fun _ => I).
Proof.
  induction nodes as [|n nodes IH]; intros H.
  - apply establishes_ret.
  - eapply establishes_bind; [apply H; constructor|]. intros ?. apply IH.
    intros child Hc. apply H. constructor. exact Hc.
Qed.

Lemma establishes_patch_all (I : Compiler.State -> Prop) (indices : list nat) (target : nat) :
  (forall index, stable I (Compiler.patch index target)) ->
  establishes I (Compiler.patch_all indices target) (fun _ => I).
Proof. intros H. apply establishes_stable, stable_patch_all, H. Qed.

(** Decompose a computation of the compiler that ends without an exception
    into its steps. *)
Ltac establish prim ih :=
  repeat first
    [ prim
    | apply establishes_throw | apply establishes_ret | apply establishes_gets
    | ih
    | match goal with
      | |- establishes _ (match ?x with _ => _ end) _ => destruct x
      | |- establishes _ (if ?x then _ else _) _ => destruct x
      end
    | eapply establishes_bind; [|intros] ].

(** The end of a block: the locals that are deeper than the compiler are
    dropped, one [POP] for each. *)
Lemma popLocals_drops (new : list Local.t) :
  forall (base : list Local.t) (s : Compiler.State) (n line : nat),
    Compiler.locals (Compiler.this s) = base ++ new ->
    Forall (fun l => (Compiler.depth (Compiler.this s) < Local.depth l)%nat) new ->
    Forall (fun l => (Local.depth l <= Compiler.depth (Compiler.this s))%nat) base ->
    (length new <= n)%nat ->
    Compiler.popLocals n line s
    = (Ok tt,
       Compiler.on_this (fun c =>
         Compiler.set_locals base
           (Compiler.set_text
              (Compiler.text c ++ replicate (length new) (Instruction.mk Opcode.POP line None))
              c)) s).
Proof.
  induction new as [|l new IH] using rev_ind; intros base s n line Hls Hnew Hbase Hn.
  - rewrite app_nil_r in Hls. cbn [length replicate]. 
    assert (Es : Compiler.on_this (fun c => Compiler.set_locals base
                   (Compiler.set_text (Compiler.text c ++ []) c)) s = s).
    { destruct s as [h [t d ls dp bs cs]]. cbn in Hls |- *. subst ls.
      unfold Compiler.on_this, Compiler.set_locals, Compiler.set_text. cbn.
      rewrite app_nil_r. reflexivity. }
    rewrite Es. destruct n as [|n]; [reflexivity|]. cbn [Compiler.popLocals].
    rewrite !gets_bind, Hls.
    destruct (pop_last base) as [[rest b]|] eqn:E; [|reflexivity].
    apply pop_last_Some in E. rewrite E in Hbase. apply Forall_app in Hbase as [_ Hb].
    rewrite Forall_singleton in Hb.
    destruct (decide _) as [_|Hgt]; [reflexivity | exfalso; apply Hgt; exact Hb].
  - destruct n as [|n]; [rewrite length_app in Hn; simpl in Hn; lia|].
    cbn [Compiler.popLocals]. rewrite !gets_bind, Hls, app_assoc, pop_last_snoc.
    apply Forall_app in Hnew as [Hnew Hl]. rewrite Forall_singleton in Hl.
    destruct (decide _) as [Hle|_]; [exfalso; apply (proj1 (Nat.lt_nge _ _) Hl Hle)|].
    rewrite bind_eq. cbn [Compiler.emitText]. rewrite bind_eq. cbn [modify].
    rewrite (IH base _ n line).
    + f_equal. destruct s as [h [t d ls dp bs cs]].
      unfold Compiler.on_this, Compiler.set_locals, Compiler.set_text. cbn.
      rewrite length_app. cbn [length]. rewrite Nat.add_comm. cbn [replicate Nat.add].
      rewrite <- app_assoc. cbn [app]. rewrite replicate_cons_app. reflexivity.
    + reflexivity.
    + exact Hnew.
    + exact Hbase.
    + rewrite length_app in Hn. simpl in Hn. lia.
Qed.

Section Scoped.
Variables (ls0 : list Local.t) (d nb nc : nat).

(** A step that changes neither the depth, nor the locals, nor how many loops
    the compiler is in. *)
Lemma scoped_same (s s' : Compiler.State) :
  Compiler.depth (Compiler.this s') = Compiler.depth (Compiler.this s) ->
  Compiler.locals (Compiler.this s') = Compiler.locals (Compiler.this s) ->
  length (Compiler.breaks (Compiler.this s')) = length (Compiler.breaks (Compiler.this s)) ->
  length (Compiler.continues (Compiler.this s'))
  = length (Compiler.continues (Compiler.this s)) ->
  scoped ls0 d nb nc s -> scoped ls0 d nb nc s'.
Proof.
  intros Hd Hl Hb Hc (H1 & H2 & H3 & H4). unfold scoped. rewrite Hd, Hl, Hb, Hc. auto.
Qed.

Lemma scoped_emitText (opcode : Opcode.t) (line : nat) (value : option nat) :
  stable (scoped ls0 d nb nc) (Compiler.emitText opcode line value).
Proof. apply stable_emitText. intros s. apply scoped_same; reflexivity. Qed.

Lemma scoped_pushData (constant : Value) :
  stable (scoped ls0 d nb nc) (Compiler.pushData constant).
Proof. apply stable_pushData. intros s. apply scoped_same; reflexivity. Qed.

Lemma scoped_patch (index target : nat) :
  stable (scoped ls0 d nb nc) (Compiler.patch index target).
Proof. apply stable_modify. intros s. apply scoped_same; reflexivity. Qed.

Lemma scoped_declareVariable (name : string) (line : nat) :
  establishes (scoped ls0 d nb nc) (Compiler.declareVariable name line)
    (fun _ => scoped ls0 d nb nc).
Proof.
  intros s s' a HI H. unfold Compiler.declareVariable in H. rewrite gets_bind in H.
  destruct (decide (Compiler.depth (Compiler.this s) = 0%nat)) as [E|E].
  - inversion H; subst. revert HI. apply scoped_same; reflexivity.
  - rewrite gets_bind in H.
    destruct (Compiler.findIndex (Compiler.locals (Compiler.this s)) name); [discriminate|].
    inversion H; subst. destruct HI as (Hd & Hb & Hc & new & Hl & Hnew & H0).
    split; [exact Hd|]. split; [exact Hb|]. split; [exact Hc|].
    exists (new ++ [Local.mk name (Compiler.depth (Compiler.this s))]). cbn.
    rewrite Hl, app_assoc. split; [reflexivity|]. split.
    + apply Forall_app. split; [exact Hnew|]. apply Forall_singleton. exact Hd.
    + intros ->. congruence.
Qed.
Lemma scoped_enterLoop :
  establishes (scoped ls0 d nb nc) Compiler.enterLoop (fun _ => scoped ls0 d (S nb) (S nc)).
Proof.
  intros s s' a (Hd & Hb & Hc & Hl) H. inversion H; subst. unfold scoped. cbn.
  rewrite !length_app. cbn. repeat split; try lia. exact Hl.
Qed.

Lemma scoped_leaveLoop :
  establishes (scoped ls0 d (S nb) (S nc)) Compiler.leaveLoop (fun _ => scoped ls0 d nb nc).
Proof.
  intros s s' a (Hd & Hb & Hc & Hl) H. unfold Compiler.leaveLoop in H.
  destruct (pop_last (Compiler.breaks (Compiler.this s))) as [[bs b]|] eqn:Eb;
    [|discriminate].
  destruct (pop_last (Compiler.continues (Compiler.this s))) as [[cs c]|] eqn:Ec;
    [|discriminate].
  apply pop_last_Some in Eb, Ec. rewrite Eb, length_app in Hb. rewrite Ec, length_app in Hc.
  cbn in Hb, Hc. inversion H; subst. unfold scoped. cbn. repeat split; try lia. exact Hl.
Qed.

(** [break] and [continue] inside a loop. *)
Lemma scoped_break (parseFloat : string -> float) (line : nat) :
  establishes (scoped ls0 d nb nc) (Compiler.codegen parseFloat (AST.BreakStatement line))
    (fun _ => scoped ls0 d nb nc).
Proof.
  intros s s' a HI H. cbn [Compiler.codegen] in H. rewrite gets_bind in H.
  destruct (pop_last (Compiler.breaks (Compiler.this s))) as [[outer innermost]|] eqn:E;
    [|discriminate].
  apply pop_last_Some in E. inversion H; subst. revert HI. apply scoped_same; cbn; try reflexivity.
  rewrite E, !length_app. reflexivity.
Qed.

Lemma scoped_continue (parseFloat : string -> float) (line : nat) :
  establishes (scoped ls0 d nb nc) (Compiler.codegen parseFloat (AST.ContinueStatement line))
    (fun _ => scoped ls0 d nb nc).
Proof.
  intros s s' a HI H. cbn [Compiler.codegen] in H. rewrite gets_bind in H.
  destruct (pop_last (Compiler.continues (Compiler.this s))) as [[outer innermost]|] eqn:E;
    [|discriminate].
  apply pop_last_Some in E. inversion H; subst. revert HI. apply scoped_same; cbn; try reflexivity.
  rewrite E, !length_app. reflexivity.
Qed.
End Scoped.

Ltac scoped_prim :=
  first [ apply establishes_stable;
          first [ apply scoped_emitText | apply scoped_pushData | apply scoped_patch ]
        | apply establishes_patch_all; intros; apply scoped_patch
        | apply scoped_declareVariable
        | apply scoped_enterLoop
        | apply scoped_leaveLoop ].

Lemma codegen_scoped (parseFloat : string -> float) (node : AST.ASTNode) :
  forall (ls0 : list Local.t) (d nb nc : nat),
    Forall (fun l => (Local.depth l <= d)%nat) ls0 ->
    establishes (scoped ls0 d nb nc) (Compiler.codegen parseFloat node)
      (fun _ => scoped ls0 d nb nc).
Proof.
  induction node as [node IH] using node_size_ind. intros ls0 d nb nc Hls0.
  assert (IHs : forall nodes ls0 d nb nc,
            Forall (fun l => (Local.depth l <= d)%nat) ls0 ->
            (list_sum (List.map node_size nodes) < node_size node)%nat ->
            establishes (scoped ls0 d nb nc)
              ((fix each (nodes : list AST.ASTNode) : M Compiler.State unit :=
                  match nodes with
                  | [] => mret tt
                  | child :: rest => Compiler.codegen parseFloat child;; each rest
                  end) nodes)
              (fun _ => scoped ls0 d nb nc)).
  { intros nodes ls1 d1 nb1 nc1 Hls1 Hlt. apply establishes_each. intros child Hc. apply IH.
    - pose proof (node_size_elem _ _ Hc). lia.
    - exact Hls1. }
  destruct node;
    try solve [ cbn [Compiler.codegen];
                unfold Compiler.loadVariable, Compiler.assignVariable;
                establish scoped_prim
                  ltac:(first [ apply IH; [cbn [node_size]; lia | exact Hls0]
                              | apply IHs; [exact Hls0 | cbn [node_size]; lia] ]) ].
  - (* Block *)
    intros s s' a (Hd & Hb & Hc & new & Hl & Hnew & H0) H. cbn [Compiler.codegen] in H.
    rewrite bind_eq in H. cbn [modify] in H.
    apply bind_inv in H as [([] & s2 & Heach & H)|(e & _ & Habs)]; [|discriminate].
    assert (Hpre : Forall (fun l => (Local.depth l <= S d)%nat) (ls0 ++ new)).
    { apply Forall_app. split.
      - eapply Forall_impl; [exact Hls0|]. cbn. intros l Hle. lia.
      - eapply Forall_impl; [exact Hnew|]. cbn. intros l ->. lia. }
    assert (Hin : scoped (ls0 ++ new) (S d) nb nc
                    (Compiler.on_this
                       (fun c => Compiler.set_depth (S (Compiler.depth c)) c) s)).
    { unfold scoped. cbn. rewrite Hd. repeat split; try assumption.
      exists []. rewrite app_nil_r. split; [exact Hl|]. split; [constructor | discriminate]. }
    pose proof (IHs nodes (ls0 ++ new) (S d) nb nc Hpre ltac:(cbn [node_size]; lia)
                  _ _ _ Hin Heach) as (Hd2 & Hb2 & Hc2 & new2 & Hl2 & Hnew2 & _).
    rewrite bind_eq in H. cbn [modify] in H. rewrite gets_bind in H.
    rewrite (popLocals_drops new2 (ls0 ++ new)) in H.
    + inversion H; subst s'. unfold scoped. cbn. rewrite Hd2. cbn.
      repeat split; try assumption. exists new. auto.
    + exact Hl2.
    + cbn. rewrite Hd2. cbn. eapply Forall_impl; [exact Hnew2|]. cbn. intros l ->. lia.
    + cbn. rewrite Hd2. cbn. apply Forall_app. split.
      * exact Hls0.
      * eapply Forall_impl; [exact Hnew|]. cbn. intros l ->. lia.
    + cbn. rewrite Hl2, !length_app. lia.
  - apply scoped_break.
  - apply scoped_continue.
  - (* FunctionDeclaration *)
    intros s s' a HI H.
    apply codegen_function_inv in H as (r0 & inner & _ & H).
    destruct r0 as [[]|e]; [|destruct H; discriminate].
    assert (Hst : establishes (scoped ls0 d nb nc)
                    (Compiler.emitText Opcode.DATA lineNumber
                       (Some (length (Compiler.data (Compiler.this s))))
                     ≫= fun _ => Compiler.declareVariable (Token.value name) lineNumber)
                    (fun _ => scoped ls0 d nb nc))
      by establish scoped_prim fail.
    apply (Hst _ _ _) in H; [exact H|]. revert HI. apply scoped_same; reflexivity.
Qed.

(** ** Blocks and loops are closed *)

Section Nested.
Variables (d nb nc : nat).

Lemma nested_same (s s' : Compiler.State) :
  Compiler.depth (Compiler.this s') = Compiler.depth (Compiler.this s) ->
  length (Compiler.breaks (Compiler.this s')) = length (Compiler.breaks (Compiler.this s)) ->
  length (Compiler.continues (Compiler.this s'))
  = length (Compiler.continues (Compiler.this s)) ->
  nested d nb nc s -> nested d nb nc s'.
Proof. intros Hd Hb Hc (H1 & H2 & H3). unfold nested. rewrite Hd, Hb, Hc. auto. Qed.

Lemma nested_emitText (opcode : Opcode.t) (line : nat) (value : option nat) :
  stable (nested d nb nc) (Compiler.emitText opcode line value).
Proof. apply stable_emitText. intros s. apply nested_same; reflexivity. Qed.

Lemma nested_pushData (constant : Value) :
  stable (nested d nb nc) (Compiler.pushData constant).
Proof. apply stable_pushData. intros s. apply nested_same; reflexivity. Qed.

Lemma nested_patch (index target : nat) :
  stable (nested d nb nc) (Compiler.patch index target).
Proof. apply stable_modify. intros s. apply nested_same; reflexivity. Qed.

Lemma nested_set_locals (f : Compiler.t -> list Local.t) :
  stable (nested d nb nc) (modify (Compiler.on_this (fun c => Compiler.set_locals (f c) c))).
Proof. apply stable_modify. intros s. apply nested_same; reflexivity. Qed.

Lemma nested_popLocals (n line : nat) : stable (nested d nb nc) (Compiler.popLocals n line).
Proof. apply stable_popLocals. intros s rest l HI _. revert HI. apply nested_same; reflexivity. Qed.

Lemma nested_enterLoop :
  establishes (nested d nb nc) Compiler.enterLoop (fun _ => nested d (S nb) (S nc)).
Proof.
  intros s s' a (Hd & Hb & Hc) H. inversion H; subst. unfold nested. cbn.
  rewrite !length_app. cbn. repeat split; lia.
Qed.

Lemma nested_leaveLoop :
  establishes (nested d (S nb) (S nc)) Compiler.leaveLoop (fun _ => nested d nb nc).
Proof.
  intros s s' a (Hd & Hb & Hc) H. unfold Compiler.leaveLoop in H.
  destruct (pop_last (Compiler.breaks (Compiler.this s))) as [[bs b]|] eqn:Eb;
    [|discriminate].
  destruct (pop_last (Compiler.continues (Compiler.this s))) as [[cs c]|] eqn:Ec;
    [|discriminate].
  apply pop_last_Some in Eb, Ec. rewrite Eb, length_app in Hb. rewrite Ec, length_app in Hc.
  cbn in Hb, Hc. inversion H; subst. unfold nested. cbn. repeat split; lia.
Qed.

Lemma nested_break (parseFloat : string -> float) (line : nat) :
  establishes (nested d nb nc) (Compiler.codegen parseFloat (AST.BreakStatement line))
    (fun _ => nested d nb nc).
Proof.
  intros s s' a HI H. cbn [Compiler.codegen] in H. rewrite gets_bind in H.
  destruct (pop_last (Compiler.breaks (Compiler.this s))) as [[outer innermost]|] eqn:E;
    [|discriminate].
  apply pop_last_Some in E. inversion H; subst. revert HI. apply nested_same; cbn; try reflexivity.
  rewrite E, !length_app. reflexivity.
Qed.

Lemma nested_continue (parseFloat : string -> float) (line : nat) :
  establishes (nested d nb nc) (Compiler.codegen parseFloat (AST.ContinueStatement line))
    (fun _ => nested d nb nc).
Proof.
  intros s s' a HI H. cbn [Compiler.codegen] in H. rewrite gets_bind in H.
  destruct (pop_last (Compiler.continues (Compiler.this s))) as [[outer innermost]|] eqn:E;
    [|discriminate].
  apply pop_last_Some in E. inversion H; subst. revert HI. apply nested_same; cbn; try reflexivity.
  rewrite E, !length_app. reflexivity.
Qed.

Lemma nested_enter_block :
  establishes (nested d nb nc)
    (modify (Compiler.on_this (fun c => Compiler.set_depth (S (Compiler.depth c)) c)))
    (fun _ => nested (S d) nb nc).
Proof. intros s s' a (Hd & Hb & Hc) H. inversion H; subst. unfold nested. cbn. auto. Qed.

Lemma nested_leave_block :
  establishes (nested (S d) nb nc)
    (modify (Compiler.on_this (fun c => Compiler.set_depth (pred (Compiler.depth c)) c)))
    (fun _ => nested d nb nc).
Proof.
  intros s s' a (Hd & Hb & Hc) H. inversion H; subst. unfold nested. cbn. rewrite Hd. auto.
Qed.
End Nested.

Ltac nested_prim :=
  first [ apply establishes_stable;
          first [ apply nested_emitText | apply nested_pushData | apply nested_patch
                | apply nested_popLocals | apply nested_set_locals ]
        | apply establishes_patch_all; intros; apply nested_patch
        | apply nested_enterLoop
        | apply nested_leaveLoop
        | apply nested_enter_block
        | apply nested_leave_block
        | apply nested_break
        | apply nested_continue ].

Lemma codegen_nested (parseFloat : string -> float) (node : AST.ASTNode) :
  forall d nb nc : nat,
    establishes (nested d nb nc) (Compiler.codegen parseFloat node) (fun _ => nested d nb nc).
Proof.
  induction node as [node IH] using node_size_ind. intros d nb nc.
  assert (IHs : forall nodes d nb nc,
            (list_sum (List.map node_size nodes) < node_size node)%nat ->
            establishes (nested d nb nc)
              ((fix each (nodes : list AST.ASTNode) : M Compiler.State unit :=
                  match nodes with
                  | [] => mret tt
                  | child :: rest => Compiler.codegen parseFloat child;; each rest
                  end) nodes)
              (fun _ => nested d nb nc)).
  { intros nodes d1 nb1 nc1 Hlt. apply establishes_each. intros child Hc. apply IH.
    pose proof (node_size_elem _ _ Hc). lia. }
  destruct node;
    try solve [ first [ apply nested_break | apply nested_continue ] ];
    try solve [ cbn [Compiler.codegen];
                unfold Compiler.loadVariable, Compiler.assignVariable,
                  Compiler.declareVariable;
                establish nested_prim
                  ltac:(first [ apply IH; cbn [node_size]; lia
                              | apply IHs; cbn [node_size]; lia ]) ].
  intros s s' a HI H.
  apply codegen_function_inv in H as (r0 & inner & _ & H).
  destruct r0 as [[]|e]; [|destruct H; discriminate].
  assert (Hst : establishes (nested d nb nc)
                  (Compiler.emitText Opcode.DATA lineNumber
                     (Some (length (Compiler.data (Compiler.this s))))
                   ≫= fun _ => Compiler.declareVariable (Token.value name) lineNumber)
                  (fun _ => nested d nb nc))
    by (unfold Compiler.declareVariable; establish nested_prim fail).
  apply (Hst _ _ _) in H; [exact H|]. revert HI. apply nested_same; reflexivity.
Qed.

(** When [codegen] ends without an exception the compiler is as deep in
    blocks and in loops as it was: every block it entered it has left, and
    every loop it opened for breaks and continues it has closed. *)
Theorem codegen_balanced (parseFloat : string -> float) (node : AST.ASTNode)
    (s s' : Compiler.State) :
  Compiler.codegen parseFloat node s = (Ok tt, s') ->
  Compiler.depth (Compiler.this s') = Compiler.depth (Compiler.this s)
  /\ length (Compiler.breaks (Compiler.this s')) = length (Compiler.breaks (Compiler.this s))
  /\ length (Compiler.continues (Compiler.this s'))
     = length (Compiler.continues (Compiler.this s)).
Proof.
  intros H. eapply (codegen_nested parseFloat node); [|exact H]. repeat split.
Qed.

(** [while (true) { break; }] *)
Lemma codegen_balanced_witness :
  let node := AST.While (AST.Literal (Token.mk TokenType.TRUE "true") 1)
                (AST.Block [AST.BreakStatement 1] 1) 1 in
  let s := Compiler.mkState [] (Compiler.new [] []) in
  let s' := (Compiler.codegen Sample.parseFloat node s).2 in
  Compiler.depth (Compiler.this s') = Compiler.depth (Compiler.this s)
  /\ length (Compiler.breaks (Compiler.this s')) = length (Compiler.breaks (Compiler.this s))
  /\ length (Compiler.continues (Compiler.this s'))
     = length (Compiler.continues (Compiler.this s)).
Proof.
  cbv zeta.
  apply (codegen_balanced Sample.parseFloat
           (AST.While (AST.Literal (Token.mk TokenType.TRUE "true") 1)
              (AST.Block [AST.BreakStatement 1] 1) 1)
           (Compiler.mkState [] (Compiler.new [] []))).
  reflexivity.
Defined.

Lemma codegen_each (parseFloat : string -> float) (nodes : list AST.ASTNode)
    (s : Compiler.State) :
  (fix each (nodes : list AST.ASTNode) : M Compiler.State unit :=
     match nodes with
     | [] => mret tt
     | child :: rest => Compiler.codegen parseFloat child;; each rest
     end) nodes s
  = Compiler.run_nodes parseFloat nodes s.
Proof.
  revert s. induction nodes as [|n nodes IH]; intros s; [reflexivity|].
  cbn [Compiler.run_nodes]. rewrite !bind_eq.
  destruct (Compiler.codegen parseFloat n s) as [[[]|e] s1]; [apply IH | reflexivity].
Qed.

(** What is declared in a block is gone after it.  The statements of a block
    are compiled one level deeper; the locals they declare, and the locals of
    that level that were there before (the parameters, in the block that is
    the body of a function), are dropped at its end; the locals of the levels
    above are the locals after it, and the block ends on one [POP] for each
    local it drops. *)
Theorem block_scope (parseFloat : string -> float) (nodes : list AST.ASTNode) (line : nat)
    (s s' : Compiler.State) (base params : list Local.t) :
  Compiler.locals (Compiler.this s) = base ++ params ->
  Forall (fun l => (Local.depth l <= Compiler.depth (Compiler.this s))%nat) base ->
  Forall (fun l => Local.depth l = S (Compiler.depth (Compiler.this s))) params ->
  Compiler.codegen parseFloat (AST.Block nodes line) s = (Ok tt, s') ->
  Compiler.locals (Compiler.this s') = base
  /\ Compiler.depth (Compiler.this s') = Compiler.depth (Compiler.this s)
  /\ exists (new : list Local.t) (inner : Compiler.State),
       Compiler.run_nodes parseFloat nodes
         (Compiler.on_this (fun c => Compiler.set_depth (S (Compiler.depth c)) c) s)
       = (Ok tt, inner)
       /\ Compiler.locals (Compiler.this inner) = base ++ params ++ new
       /\ Forall (fun l => Local.depth l = S (Compiler.depth (Compiler.this s))) new
       /\ Compiler.text (Compiler.this s')
          = Compiler.text (Compiler.this inner)
            ++ replicate (length params + length new) (Instruction.mk Opcode.POP line None).
Proof.
  intros Hl Hbase Hparams H. cbn [Compiler.codegen] in H.
  rewrite bind_eq in H. cbn [modify] in H.
  apply bind_inv in H as [([] & s2 & Heach & H)|(e & _ & Habs)]; [|discriminate].
  set (d := Compiler.depth (Compiler.this s)) in *.
  assert (Hpre : Forall (fun l => (Local.depth l <= S d)%nat) (base ++ params)).
  { apply Forall_app. split.
    - eapply Forall_impl; [exact Hbase|]. cbn. intros l Hle. lia.
    - eapply Forall_impl; [exact Hparams|]. cbn. intros l ->. lia. }
  assert (Hin : scoped (base ++ params) (S d)
                  (length (Compiler.breaks (Compiler.this s)))
                  (length (Compiler.continues (Compiler.this s)))
                  (Compiler.on_this
                     (fun c => Compiler.set_depth (S (Compiler.depth c)) c) s)).
  { unfold scoped. cbn. repeat split.
    exists []. rewrite app_nil_r. split; [exact Hl|]. split; [constructor | discriminate]. }
  assert (Hs2 : scoped (base ++ params) (S d)
                  (length (Compiler.breaks (Compiler.this s)))
                  (length (Compiler.continues (Compiler.this s))) s2).
  { refine (establishes_each _ parseFloat nodes _ _ _ _ Hin Heach).
    intros child _. apply codegen_scoped, Hpre. }
  destruct Hs2 as (Hd2 & _ & _ & new & Hl2 & Hnew & _).
  rewrite bind_eq in H. cbn [modify] in H. rewrite gets_bind in H.
  rewrite (popLocals_drops (params ++ new) base) in H.
  - inversion H; subst s'. cbn. rewrite Hd2. cbn. split; [reflexivity|].
    split; [reflexivity|]. exists new, s2. rewrite <- codegen_each.
    split; [exact Heach|]. split; [rewrite Hl2, app_assoc; reflexivity|].
    split; [exact Hnew|]. rewrite length_app. reflexivity.
  - cbn. rewrite Hl2, app_assoc. reflexivity.
  - cbn. rewrite Hd2. cbn. apply Forall_app. split.
    + eapply Forall_impl; [exact Hparams|]. cbn. intros l ->. lia.
    + eapply Forall_impl; [exact Hnew|]. cbn. intros l ->. lia.
  - cbn. rewrite Hd2. cbn. exact Hbase.
  - cbn. rewrite Hl2, !length_app. lia.
Qed.

(** [{ let a = 1; }] inside a block that has declared [b]. *)
Lemma block_scope_witness :
  let s := Compiler.mkState [] (Compiler.mk [] [] [Local.mk "b" 1] 1 [] []) in
  let s' := (Compiler.codegen Sample.parseFloat
               (AST.Block [AST.VariableDeclaration (Sample.name "a") (Sample.number "1") 1] 1)
               s).2 in
  Compiler.locals (Compiler.this s') = [Local.mk "b" 1]
  /\ Compiler.depth (Compiler.this s') = 1%nat.
Proof.
  cbv zeta.
  destruct (block_scope Sample.parseFloat
              [AST.VariableDeclaration (Sample.name "a") (Sample.number "1") 1] 1
              (Compiler.mkState [] (Compiler.mk [] [] [Local.mk "b" 1] 1 [] []))
              (Compiler.codegen Sample.parseFloat
                 (AST.Block [AST.VariableDeclaration (Sample.name "a") (Sample.number "1") 1] 1)
                 (Compiler.mkState [] (Compiler.mk [] [] [Local.mk "b" 1] 1 [] []))).2
              [Local.mk "b" 1] [])
    as (Hl & Hd & _).
  - reflexivity.
  - repeat constructor.
  - constructor.
  - reflexivity.
  - split; [exact Hl | exact Hd].
Defined.

(** The variable that the initialiser of a [for] declares is a local of the
    scope the [for] stands in, and outlives the loop: inside a block, once
    the loop is compiled, a declaration of the same name (as in a second
    [for] with the same variable) raises VariableAlreadyDeclaredInScope. *)
Theorem for_variable_outlives_loop (parseFloat : string -> float) (name : Token.t)
    (value condition update body : AST.ASTNode) (line line' line'' : nat)
    (s s' : Compiler.State) :
  Compiler.depth (Compiler.this s) <> 0%nat ->
  Forall (fun l => (Local.depth l <= Compiler.depth (Compiler.this s))%nat)
    (Compiler.locals (Compiler.this s)) ->
  Compiler.codegen parseFloat
    (AST.For (AST.VariableDeclaration name value line') condition update body line) s
  = (Ok tt, s') ->
  declared_in_locals (Compiler.this s') (Token.value name) = true
  /\ Compiler.declareVariable (Token.value name) line'' s'
     = (Throw (VariableAlreadyDeclaredInScope line'' (Token.value name)), s').
Proof.
  intros Hd Hls H.
  set (d := Compiler.depth (Compiler.this s)) in *.
  set (nb := length (Compiler.breaks (Compiler.this s))).
  set (nc := length (Compiler.continues (Compiler.this s))).
  cbn [Compiler.codegen] in H.
  apply bind_inv in H as [([] & s1 & Henter & H)|(e & _ & Habs)]; [|discriminate].
  assert (Hs1 : scoped (Compiler.locals (Compiler.this s)) d (S nb) (S nc) s1).
  { refine (scoped_enterLoop _ d nb nc _ _ _ _ Henter). unfold scoped. repeat split.
    exists []. rewrite app_nil_r. split; [reflexivity|]. split; [constructor|].
    intros E. contradiction. }
  apply bind_inv in H as [([] & s3 & Hinit & H)|(e & _ & Habs)]; [|discriminate].
  apply bind_inv in Hinit as [([] & s2 & Hvalue & Hdecl)|(e & _ & Habs)]; [|discriminate].
  pose proof (codegen_scoped parseFloat value _ d (S nb) (S nc) Hls _ _ _ Hs1 Hvalue)
    as (Hd2 & Hb2 & Hc2 & new & Hl2 & Hnew & _).
  unfold Compiler.declareVariable in Hdecl. rewrite gets_bind in Hdecl.
  destruct (decide (Compiler.depth (Compiler.this s2) = 0%nat)) as [E|_]; [congruence|].
  rewrite gets_bind in Hdecl.
  destruct (Compiler.findIndex (Compiler.locals (Compiler.this s2)) (Token.value name));
    [discriminate|].
  inversion Hdecl; subst s3; clear Hdecl.
  set (ls1 := Compiler.locals (Compiler.this s2) ++ [Local.mk (Token.value name) d]).
  assert (Hpre : Forall (fun l => (Local.depth l <= d)%nat) ls1).
  { unfold ls1. rewrite Hl2. rewrite !Forall_app. repeat split.
    - exact Hls.
    - eapply Forall_impl; [exact Hnew|]. cbn. intros l ->. lia.
    - apply Forall_singleton. cbn. lia. }
  assert (Hs3 : scoped ls1 d (S nb) (S nc)
                  (Compiler.on_this (fun c => Compiler.set_locals
                     (Compiler.locals c
                      ++ [Local.mk (Token.value name) (Compiler.depth (Compiler.this s2))]) c)
                     s2)).
  { unfold scoped. cbn. repeat split; try assumption.
    exists []. rewrite app_nil_r, Hd2. split; [reflexivity|]. split; [constructor|].
    intros E. contradiction. }
  assert (Hrest : forall start,
            establishes (scoped ls1 d (S nb) (S nc))
              (Compiler.codegen parseFloat condition
               ≫= fun _ =>
                  Compiler.emitText
                    (match condition with
                     | AST.EmptyStatement _ => Opcode.NOP
                     | _ => Opcode.JUMPF
                     end) line None
               ≫= fun jumpf =>
                  Compiler.codegen parseFloat body
               ≫= fun _ => gets (fun s => length (Compiler.text (Compiler.this s)))
               ≫= fun updateStart =>
                  Compiler.codegen parseFloat update
               ≫= fun _ => Compiler.emitText Opcode.JUMP line (Some start)
               ≫= fun _ => gets (fun s => length (Compiler.text (Compiler.this s)))
               ≫= fun exit =>
                  Compiler.patch jumpf exit
               ≫= fun _ => Compiler.leaveLoop
               ≫= fun '(bs, cs) =>
                  Compiler.patch_all bs exit
               ≫= fun _ => Compiler.patch_all cs updateStart)
              (fun _ => scoped ls1 d nb nc)).
  { intros start. establish scoped_prim ltac:(apply codegen_scoped; exact Hpre). }
  rewrite gets_bind in H.
  pose proof (Hrest _ _ _ _ Hs3 H) as (Hd' & _ & _ & new' & Hl' & _).
  assert (Hin : Token.value name ∈ Local.name <$> Compiler.locals (Compiler.this s')).
  { rewrite Hl'. unfold ls1. rewrite !fmap_app. cbn. apply elem_of_app. left.
    apply elem_of_app. right. constructor. }
  destruct (Compiler.findIndex (Compiler.locals (Compiler.this s')) (Token.value name))
    as [i|] eqn:Ei; [|apply findIndex_None in Ei; contradiction].
  split.
  - unfold declared_in_locals. apply findIndex_declared. rewrite Ei. eauto.
  - unfold Compiler.declareVariable. rewrite gets_bind.
    destruct (decide (Compiler.depth (Compiler.this s') = 0%nat)) as [E|_]; [congruence|].
    rewrite gets_bind, Ei. reflexivity.
Qed.

(** [{ for (let i = 0; ;) ; }] up to the end of the loop. *)
Lemma for_variable_outlives_loop_witness :
  let s := Compiler.mkState [] (Compiler.mk [] [] [] 1 [] []) in
  let s' := (Compiler.codegen Sample.parseFloat
               (AST.For (AST.VariableDeclaration (Sample.name "i") (Sample.number "0") 1)
                  (AST.EmptyStatement 1) (AST.EmptyStatement 1) (AST.EmptyStatement 1) 1)
               s).2 in
  declared_in_locals (Compiler.this s') "i" = true
  /\ Compiler.declareVariable "i" 2 s'
     = (Throw (VariableAlreadyDeclaredInScope 2 "i"), s').
Proof.
  cbv zeta.
  apply (for_variable_outlives_loop Sample.parseFloat (Sample.name "i") (Sample.number "0")
           (AST.EmptyStatement 1) (AST.EmptyStatement 1) (AST.EmptyStatement 1) 1 1 2
           (Compiler.mkState [] (Compiler.mk [] [] [] 1 [] []))).
  - discriminate.
  - constructor.
  - reflexivity.
Defined.

(** [break] and [continue] compile only inside a loop of the compiler at
    hand: with no loop open they raise a SyntaxError and change nothing.  The
    body of a function is compiled by a compiler of its own, which has no
    loop open: a [break] or a [continue] at the start of the body of a
    function raises the SyntaxError also where the declaration stands inside a
    loop. *)
Theorem break_outside_loop (parseFloat : string -> float) (s : Compiler.State) (line : nat)
    (name : Token.t) (params : list Token.t) (nodes : list AST.ASTNode) (lb lf : nat) :
  (Compiler.breaks (Compiler.this s) = [] ->
   Compiler.codegen parseFloat (AST.BreakStatement line) s = (Throw (SyntaxError line), s))
  /\ (Compiler.continues (Compiler.this s) = [] ->
      Compiler.codegen parseFloat (AST.ContinueStatement line) s
      = (Throw (SyntaxError line), s))
  /\ (exists s',
        Compiler.codegen parseFloat
          (AST.FunctionDeclaration name params (AST.Block (AST.BreakStatement line :: nodes) lb) lf)
          s
        = (Throw (SyntaxError line), s'))
  /\ (exists s',
        Compiler.codegen parseFloat
          (AST.FunctionDeclaration name params
             (AST.Block (AST.ContinueStatement line :: nodes) lb) lf)
          s
        = (Throw (SyntaxError line), s')).
Proof.
  split; [|split; [|split]].
  - intros E. cbn [Compiler.codegen]. rewrite gets_bind, E. reflexivity.
  - intros E. cbn [Compiler.codegen]. rewrite gets_bind, E. reflexivity.
  - eexists. cbn. reflexivity.
  - eexists. cbn. reflexivity.
Qed.

(** ** Function declarations *)

(** What a function declaration leaves when it compiles: a Function object
    with the name and the parameter names of the declaration, referred to by
    a new constant that a [DATA] instruction loads; its body is what a
    compiler of its own, whose locals are the function at depth 0 and the
    parameters at depth 1, emits for the body of the declaration, followed by
    a [RET 0], so that the body of no function ends without returning.  At
    depth 0 the function is declared as a global of its name, deeper as a
    local. *)
Theorem function_declaration (parseFloat : string -> float) (name : Token.t)
    (params : list Token.t) (body : AST.ASTNode) (line : nat) (s s' : Compiler.State) :
  Compiler.codegen parseFloat (AST.FunctionDeclaration name params body line) s = (Ok tt, s') ->
  let r := length (Compiler.heap s) in
  let index := length (Compiler.data (Compiler.this s)) in
  let d := Compiler.depth (Compiler.this s) in
  Compiler.data (Compiler.this s') !! index = Some (VFunction r)
  /\ (exists inner : Compiler.State,
        Compiler.codegen parseFloat body (function_compiler name params s) = (Ok tt, inner)
        /\ Compiler.heap s' !! r
           = Some (HFunction
                     (Function.mk (Token.value name) (Token.value <$> params)
                        (Compiler.text (Compiler.this inner)
                         ++ [Instruction.mk Opcode.RET line (Some 0%nat)]))))
  /\ (d <> 0%nat ->
      Compiler.text (Compiler.this s')
      = Compiler.text (Compiler.this s) ++ [Instruction.mk Opcode.DATA line (Some index)]
      /\ Compiler.locals (Compiler.this s')
         = Compiler.locals (Compiler.this s) ++ [Local.mk (Token.value name) d])
  /\ (d = 0%nat ->
      exists k : nat,
        Compiler.text (Compiler.this s')
        = Compiler.text (Compiler.this s)
          ++ [Instruction.mk Opcode.DATA line (Some index);
              Instruction.mk Opcode.DECLAREGL line (Some k)]
        /\ Compiler.data (Compiler.this s') !! k = Some (VString (Token.value name))
        /\ Compiler.locals (Compiler.this s') = Compiler.locals (Compiler.this s)).
Proof.
  intros H. cbv zeta.
  apply codegen_function_inv in H as (r0 & inner & Hbody & H).
  destruct r0 as [[]|e]; [|destruct H; discriminate].
  assert (Hg : grown_from
                 (Compiler.data (Compiler.this s) ++ [VFunction (length (Compiler.heap s))])
                 (Compiler.heap s
                  ++ [HFunction (Function.mk (Token.value name) (Token.value <$> params) [])])
                 [] inner).
  { refine (codegen_grown parseFloat body _ _ _ _ _ _ _ Hbody).
    split; [|split]; [reflexivity | reflexivity | intros i x Hx; discriminate]. }
  destruct Hg as (Hd & Hh & _).
  assert (Hindex : Compiler.data (Compiler.this inner)
                   !! length (Compiler.data (Compiler.this s))
                   = Some (VFunction (length (Compiler.heap s)))).
  { eapply prefix_lookup_Some; [|exact Hd]. apply list_lookup_middle. reflexivity. }
  assert (Hr : (length (Compiler.heap s) < length (Compiler.heap inner))%nat).
  { apply prefix_length in Hh. rewrite length_app in Hh. cbn in Hh. lia. }
  rewrite bind_eq in H. cbn [Compiler.emitText] in H.
  unfold Compiler.declareVariable in H. rewrite gets_bind in H. cbn in H.
  destruct (decide (Compiler.depth (Compiler.this s) = 0%nat)) as [E|E].
  - rewrite bind_eq in H. cbn [Compiler.pushData] in H. rewrite bind_eq in H.
    cbn [Compiler.emitText] in H. unfold mret, M_ret, ret in H. cbv beta in H.
    inversion H; subst s'; clear H. unfold function_compiled. cbn. split; [|split; [|split]].
    + apply lookup_app_l_Some. exact Hindex.
    + exists inner. split; [exact Hbody|]. apply list_lookup_insert_eq. exact Hr.
    + intros Hne. contradiction.
    + intros _. exists (length (Compiler.data (Compiler.this inner))).
      split; [rewrite <- app_assoc; reflexivity|]. split; [|reflexivity].
      apply list_lookup_middle. reflexivity.
  - rewrite gets_bind in H. cbn in H.
    destruct (Compiler.findIndex (Compiler.locals (Compiler.this s)) (Token.value name));
      [discriminate|].
    inversion H; subst s'; clear H. unfold function_compiled. cbn. split; [|split; [|split]].
    + exact Hindex.
    + exists inner. split; [exact Hbody|]. apply list_lookup_insert_eq. exact Hr.
    + intros _. split; reflexivity.
    + intros E0. contradiction.
Qed.

(** [function f(x) { }] at the top level. *)
Lemma function_declaration_witness :
  let node := AST.FunctionDeclaration (Sample.name "f") [Sample.name "x"] (AST.Block [] 1) 1 in
  let s := Compiler.mkState [] (Compiler.new [] []) in
  let s' := (Compiler.codegen Sample.parseFloat node s).2 in
  Compiler.data (Compiler.this s') !! 0%nat = Some (VFunction 0)
  /\ Compiler.heap s' !! 0%nat
     = Some (HFunction (Function.mk "f" ["x"%string]
                          [Instruction.mk Opcode.POP 1 None;
                           Instruction.mk Opcode.RET 1 (Some 0%nat)])).
Proof.
  cbv zeta.
  destruct (function_declaration Sample.parseFloat (Sample.name "f") [Sample.name "x"]
              (AST.Block [] 1) 1 (Compiler.mkState [] (Compiler.new [] []))
              (Compiler.codegen Sample.parseFloat
                 (AST.FunctionDeclaration (Sample.name "f") [Sample.name "x"] (AST.Block [] 1) 1)
                 (Compiler.mkState [] (Compiler.new [] []))).2 eq_refl)
    as (Hdata & _ & _ & _).
  split; [exact Hdata | reflexivity].
Defined.

(** ** Jumps *)

Lemma codegen_text_length (parseFloat : string -> float) (node : AST.ASTNode)
    (s s' : Compiler.State) (r : Result unit) :
  Compiler.codegen parseFloat node s = (r, s') ->
  (length (Compiler.text (Compiler.this s)) <= length (Compiler.text (Compiler.this s')))%nat.
Proof.
  intros H.
  destruct (codegen_grown parseFloat node [] [] (Compiler.text (Compiler.this s)) s s' r)
    as (_ & _ & Ht); [|exact H|apply same_opcodes_length, Ht].
  split; [|split]; [apply prefix_nil | apply prefix_nil | apply same_opcodes_refl].
Qed.

Section Pending.
Variable extra : list nat.

Lemma pending_weaken (extra' : list nat) (s : Compiler.State) :
  (forall i, i ∈ extra -> i ∈ extra') -> jumps_pending extra s -> jumps_pending extra' s.
Proof.
  intros Hsub H i x Hx Hj. specialize (H i x Hx Hj).
  destruct (Instruction.value x); [exact H|]. destruct H as [H|H]; auto.
Qed.

(** A step that changes neither the text nor the breaks and continues. *)
Lemma pending_same (s s' : Compiler.State) :
  Compiler.text (Compiler.this s') = Compiler.text (Compiler.this s) ->
  Compiler.breaks (Compiler.this s') = Compiler.breaks (Compiler.this s) ->
  Compiler.continues (Compiler.this s') = Compiler.continues (Compiler.this s) ->
  jumps_pending extra s -> jumps_pending extra s'.
Proof. intros Ht Hb Hc H. unfold jumps_pending. rewrite Ht, Hb, Hc. exact H. Qed.

Lemma pending_emitted (opcode : Opcode.t) (line : nat) (value : option nat)
    (s : Compiler.State) :
  jumps_pending extra s ->
  (jump_opcode opcode = true ->
   match value with
   | Some t => (t <= S (length (Compiler.text (Compiler.this s))))%nat
   | None => length (Compiler.text (Compiler.this s)) ∈ extra
   end) ->
  jumps_pending extra (emitted opcode line value s).
Proof.
  intros H Hnew i x Hx Hj. cbn in Hx |- *. rewrite length_app. cbn.
  apply lookup_app_Some in Hx as [Hx|[Hi Hx]].
  - specialize (H i x Hx Hj). destruct (Instruction.value x); [lia | exact H].
  - apply list_lookup_singleton_Some in Hx as [Hi' <-]. cbn in Hj |- *.
    specialize (Hnew Hj). destruct value; [lia|]. left.
    replace i with (length (Compiler.text (Compiler.this s))) by lia. exact Hnew.
Qed.

Lemma pending_patched (index target : nat) (s : Compiler.State) :
  jumps_pending (index :: extra) s ->
  (target <= length (Compiler.text (Compiler.this s)))%nat ->
  jumps_pending extra (patched index target s).
Proof.
  intros H Ht i x Hx Hj. cbn in Hx |- *. rewrite length_alter.
  destruct (decide (i = index)) as [->|Hne].
  - rewrite list_lookup_alter_eq in Hx.
    destruct (Compiler.text (Compiler.this s) !! index) as [y|]; [|discriminate].
    inversion Hx; subst x. cbn. exact Ht.
  - rewrite list_lookup_alter_ne in Hx by congruence. specialize (H i x Hx Hj).
    destruct (Instruction.value x); [exact H|].
    destruct H as [H|H]; [|auto]. apply elem_of_cons in H as [H|H]; [contradiction | auto].
Qed.
End Pending.

Lemma patch_all_patched (indices : list nat) :
  forall (extra : list nat) (target : nat) (s : Compiler.State),
    jumps_pending (indices ++ extra) s ->
    (target <= length (Compiler.text (Compiler.this s)))%nat ->
    exists s',
      Compiler.patch_all indices target s = (Ok tt, s')
      /\ jumps_pending extra s'
      /\ length (Compiler.text (Compiler.this s')) = length (Compiler.text (Compiler.this s)).
Proof.
  induction indices as [|i indices IH]; intros extra target s H Ht.
  - exists s. auto.
  - cbn [Compiler.patch_all]. rewrite bind_eq. cbn [Compiler.patch modify].
    fold (patched i target s).
    destruct (IH extra target (patched i target s)) as (s' & Hs' & Hp & Hlen).
    + apply pending_patched; assumption.
    + cbn. rewrite length_alter. exact Ht.
    + exists s'. split; [exact Hs'|]. split; [exact Hp|]. rewrite Hlen. cbn.
      apply length_alter.
Qed.

Lemma pending_leaveLoop (extra : list nat) (s s' : Compiler.State) (bs cs : list nat) :
  Compiler.leaveLoop s = (Ok (bs, cs), s') ->
  jumps_pending extra s ->
  jumps_pending (bs ++ cs ++ extra) s'
  /\ Compiler.text (Compiler.this s') = Compiler.text (Compiler.this s).
Proof.
  intros H Hp. unfold Compiler.leaveLoop in H.
  destruct (pop_last (Compiler.breaks (Compiler.this s))) as [[bs' b]|] eqn:Eb;
    [|discriminate].
  destruct (pop_last (Compiler.continues (Compiler.this s))) as [[cs' c]|] eqn:Ec;
    [|discriminate].
  apply pop_last_Some in Eb, Ec. inversion H; subst; clear H. split; [|reflexivity].
  intros i x Hx Hj. specialize (Hp i x Hx Hj). cbn in Hx |- *.
  destruct (Instruction.value x); [exact Hp|]. rewrite !elem_of_app.
  destruct Hp as [Hp|[(l & Hl & Hi)|(l & Hl & Hi)]].
  - auto.
  - rewrite Eb in Hl. apply elem_of_app in Hl as [Hl|Hl].
    + right. left. eauto.
    + apply list_elem_of_singleton in Hl. subst l. auto.
  - rewrite Ec in Hl. apply elem_of_app in Hl as [Hl|Hl].
    + right. right. eauto.
    + apply list_elem_of_singleton in Hl. subst l. auto.
Qed.

Lemma pending_enterLoop (extra : list nat) :
  stable (jumps_pending extra) Compiler.enterLoop.
Proof.
  apply stable_modify. intros s Hp i x Hx Hj. specialize (Hp i x Hx Hj). cbn in Hx |- *.
  destruct (Instruction.value x); [exact Hp|].
  destruct Hp as [Hp|[(l & Hl & Hi)|(l & Hl & Hi)]]; [auto | right; left | right; right];
    exists l; (split; [apply elem_of_app; auto | exact Hi]).
Qed.

Lemma pending_break (parseFloat : string -> float) (extra : list nat) (line : nat) :
  establishes (jumps_pending extra) (Compiler.codegen parseFloat (AST.BreakStatement line))
    (fun _ => jumps_pending extra).
Proof.
  intros s s' a Hp H. cbn [Compiler.codegen] in H. rewrite gets_bind in H.
  destruct (pop_last (Compiler.breaks (Compiler.this s))) as [[outer innermost]|] eqn:E;
    [|discriminate].
  apply pop_last_Some in E. inversion H; subst; clear H.
  intros i x Hx Hj. cbn in Hx |- *. rewrite length_app. cbn.
  apply lookup_app_Some in Hx as [Hx|[Hi Hx]].
  - specialize (Hp i x Hx Hj). destruct (Instruction.value x); [lia|].
    destruct Hp as [Hp|[(l & Hl & Hi)|Hp]]; [auto | | auto]. right. left.
    rewrite E in Hl. apply elem_of_app in Hl as [Hl|Hl].
    + exists l. split; [apply elem_of_app; auto | exact Hi].
    + apply list_elem_of_singleton in Hl. subst l.
      exists (innermost ++ [length (Compiler.text (Compiler.this s))]).
      split; [apply elem_of_app; right; constructor | apply elem_of_app; auto].
  - apply list_lookup_singleton_Some in Hx as [Hi' <-]. cbn. right. left.
    exists (innermost ++ [length (Compiler.text (Compiler.this s))]).
    split; [apply elem_of_app; right; constructor|]. apply elem_of_app. right.
    replace i with (length (Compiler.text (Compiler.this s))) by lia. constructor.
Qed.

Lemma pending_continue (parseFloat : string -> float) (extra : list nat) (line : nat) :
  establishes (jumps_pending extra) (Compiler.codegen parseFloat (AST.ContinueStatement line))
    (fun _ => jumps_pending extra).
Proof.
  intros s s' a Hp H. cbn [Compiler.codegen] in H. rewrite gets_bind in H.
  destruct (pop_last (Compiler.continues (Compiler.this s))) as [[outer innermost]|] eqn:E;
    [|discriminate].
  apply pop_last_Some in E. inversion H; subst; clear H.
  intros i x Hx Hj. cbn in Hx |- *. rewrite length_app. cbn.
  apply lookup_app_Some in Hx as [Hx|[Hi Hx]].
  - specialize (Hp i x Hx Hj). destruct (Instruction.value x); [lia|].
    destruct Hp as [Hp|[Hp|(l & Hl & Hi)]]; [auto | auto |]. right. right.
    rewrite E in Hl. apply elem_of_app in Hl as [Hl|Hl].
    + exists l. split; [apply elem_of_app; auto | exact Hi].
    + apply list_elem_of_singleton in Hl. subst l.
      exists (innermost ++ [length (Compiler.text (Compiler.this s))]).
      split; [apply elem_of_app; right; constructor | apply elem_of_app; auto].
  - apply list_lookup_singleton_Some in Hx as [Hi' <-]. cbn. right. right.
    exists (innermost ++ [length (Compiler.text (Compiler.this s))]).
    split; [apply elem_of_app; right; constructor|]. apply elem_of_app. right.
    replace i with (length (Compiler.text (Compiler.this s))) by lia. constructor.
Qed.

(** The steps that emit no jump. *)
Lemma pending_emitText (extra : list nat) (opcode : Opcode.t) (line : nat)
    (value : option nat) :
  jump_opcode opcode = false ->
  stable (jumps_pending extra) (Compiler.emitText opcode line value).
Proof.
  intros Hop. apply stable_emitText. intros s Hp. apply pending_emitted; [exact Hp|].
  intros Hj. congruence.
Qed.

Lemma pending_pushData (extra : list nat) (constant : Value) :
  stable (jumps_pending extra) (Compiler.pushData constant).
Proof. apply stable_pushData. intros s. apply pending_same; reflexivity. Qed.

Lemma pending_set_depth (extra : list nat) (f : Compiler.t -> nat) :
  stable (jumps_pending extra)
    (modify (Compiler.on_this (fun c => Compiler.set_depth (f c) c))).
Proof. apply stable_modify. intros s. apply pending_same; reflexivity. Qed.

Lemma pending_set_locals (extra : list nat) (f : Compiler.t -> list Local.t) :
  stable (jumps_pending extra)
    (modify (Compiler.on_this (fun c => Compiler.set_locals (f c) c))).
Proof. apply stable_modify. intros s. apply pending_same; reflexivity. Qed.

Lemma pending_popLocals (extra : list nat) (n line : nat) :
  stable (jumps_pending extra) (Compiler.popLocals n line).
Proof.
  apply stable_popLocals. intros s rest l Hp _.
  apply (pending_same extra (emitted Opcode.POP line None s)); try reflexivity.
  apply pending_emitted; [exact Hp|]. discriminate.
Qed.

Ltac pending_prim :=
  first [ apply establishes_stable;
          first [ apply pending_emitText; reflexivity | apply pending_pushData
                | apply pending_popLocals | apply pending_set_depth
                | apply pending_set_locals | apply pending_enterLoop ]
        | apply pending_break
        | apply pending_continue ].

Lemma emitText_eq (opcode : Opcode.t) (line : nat) (value : option nat) (s : Compiler.State) :
  Compiler.emitText opcode line value s
  = (Ok (length (Compiler.text (Compiler.this s))), emitted opcode line value s).
Proof. reflexivity. Qed.

Lemma patch_eq (index target : nat) (s : Compiler.State) :
  Compiler.patch index target s = (Ok tt, patched index target s).
Proof. reflexivity. Qed.

(** An emitted jump that waits for its target. *)
Lemma pending_emitted_jump (extra : list nat) (opcode : Opcode.t) (line : nat)
    (s : Compiler.State) :
  jumps_pending extra s ->
  jumps_pending (length (Compiler.text (Compiler.this s)) :: extra)
    (emitted opcode line None s).
Proof.
  intros Hp. apply pending_emitted.
  - revert Hp. apply pending_weaken. intros i Hi. constructor. exact Hi.
  - intros _. constructor.
Qed.

Lemma codegen_pending (parseFloat : string -> float) (node : AST.ASTNode) :
  forall extra : list nat,
    establishes (jumps_pending extra) (Compiler.codegen parseFloat node)
      (fun _ => jumps_pending extra).
Proof.
  induction node as [node IH] using node_size_ind. intros extra.
  assert (IHs : forall nodes extra,
            (list_sum (List.map node_size nodes) < node_size node)%nat ->
            establishes (jumps_pending extra)
              ((fix each (nodes : list AST.ASTNode) : M Compiler.State unit :=
                  match nodes with
                  | [] => mret tt
                  | child :: rest => Compiler.codegen parseFloat child;; each rest
                  end) nodes)
              (fun _ => jumps_pending extra)).
  { intros nodes extra1 Hlt. apply establishes_each. intros child Hc. apply IH.
    pose proof (node_size_elem _ _ Hc). lia. }
  destruct node;
    try match goal with
        | |- establishes _ (Compiler.codegen _ (AST.FunctionDeclaration _ _ _ _)) _ => idtac
        | op : Token.t |- _ => destruct op as [[] ?]
        end;
    try solve [ first [ apply pending_break | apply pending_continue ] ];
    try solve [ cbn [Compiler.codegen Token.type Compiler.binaryOpcode Compiler.unaryOpcode
                     Compiler.assignOpcode];
                unfold Compiler.loadVariable, Compiler.assignVariable,
                  Compiler.declareVariable;
                establish pending_prim
                  ltac:(first [ apply IH; cbn [node_size]; lia
                              | apply IHs; cbn [node_size]; lia ]) ].
  - (* If *)
    intros s s' a Hp H. cbn [Compiler.codegen] in H.
    apply bind_inv in H as [([] & s1 & Hcond & H)|(e & _ & Habs)]; [|discriminate].
    apply (IH node1 ltac:(cbn [node_size]; lia) extra _ _ _ Hp) in Hcond as Hp1.
    rewrite (bind_ok _ _ _ _ _ (emitText_eq _ _ _ _)) in H.
    set (jumpf := length (Compiler.text (Compiler.this s1))) in *.
    apply bind_inv in H as [([] & s3 & Hthen & H)|(e & _ & Habs)]; [|discriminate].
    pose proof (IH node2 ltac:(cbn [node_size]; lia) (jumpf :: extra) _ _ _
                  (pending_emitted_jump extra Opcode.JUMPF lineNumber s1 Hp1) Hthen) as Hp3.
    rewrite gets_bind in H. rewrite (bind_ok _ _ _ _ _ (patch_eq _ _ _)) in H.
    set (after_then := length (Compiler.text (Compiler.this s3))) in *.
    assert (Hp4 : jumps_pending extra (patched jumpf after_then s3))
      by (apply pending_patched; [exact Hp3 | reflexivity]).
    destruct else_ as [e|]; [|inversion H; subst; exact Hp4].
    rewrite (bind_ok _ _ _ _ _ (emitText_eq _ _ _ _)) in H.
    rewrite (bind_ok _ _ _ _ _ (patch_eq _ _ _)) in H.
    set (s4 := patched jumpf after_then s3) in *.
    set (jump := length (Compiler.text (Compiler.this s4))) in *.
    assert (Hlen4 : length (Compiler.text (Compiler.this s4)) = after_then)
      by (unfold s4; cbn; apply length_alter).
    clearbody s4.
    assert (Hp6 : jumps_pending (jump :: extra)
                    (patched jumpf (S after_then) (emitted Opcode.JUMP lineNumber None s4))).
    { apply pending_patched.
      - eapply pending_weaken; [|apply (pending_emitted_jump extra Opcode.JUMP lineNumber s4 Hp4)].
        intros i Hi. constructor. exact Hi.
      - cbn. rewrite length_app. cbn. lia. }
    apply bind_inv in H as [([] & s7 & Helse & H)|(e' & _ & Habs)]; [|discriminate].
    pose proof (IH e ltac:(cbn [node_size]; lia) (jump :: extra) _ _ _ Hp6 Helse) as Hp7.
    rewrite gets_bind, patch_eq in H. inversion H; subst.
    apply pending_patched; [exact Hp7 | reflexivity].
  - (* While *)
    intros s s' a Hp H. cbn [Compiler.codegen] in H.
    apply bind_inv in H as [([] & s1 & Henter & H)|(e & _ & Habs)]; [|discriminate].
    pose proof (pending_enterLoop extra _ _ _ Hp Henter) as Hp1.
    rewrite gets_bind in H. set (start := length (Compiler.text (Compiler.this s1))) in *.
    apply bind_inv in H as [([] & s2 & Hcond & H)|(e & _ & Habs)]; [|discriminate].
    pose proof (IH node1 ltac:(cbn [node_size]; lia) extra _ _ _ Hp1 Hcond) as Hp2.
    pose proof (codegen_text_length _ _ _ _ _ Hcond) as Hlen2.
    rewrite (bind_ok _ _ _ _ _ (emitText_eq _ _ _ _)) in H.
    set (jumpf := length (Compiler.text (Compiler.this s2))) in *.
    apply bind_inv in H as [([] & s4 & Hbody & H)|(e & _ & Habs)]; [|discriminate].
    pose proof (IH node2 ltac:(cbn [node_size]; lia) (jumpf :: extra) _ _ _
                  (pending_emitted_jump extra Opcode.JUMPF lineNumber s2 Hp2) Hbody) as Hp4.
    pose proof (codegen_text_length _ _ _ _ _ Hbody) as Hlen4.
    cbn in Hlen4. rewrite length_app in Hlen4. cbn in Hlen4.
    rewrite (bind_ok _ _ _ _ _ (emitText_eq _ _ _ _)) in H.
    rewrite gets_bind in H. rewrite (bind_ok _ _ _ _ _ (patch_eq _ _ _)) in H.
    set (s5 := emitted Opcode.JUMP lineNumber (Some start) s4) in *.
    set (exit := length (Compiler.text (Compiler.this s5))) in *.
    assert (Hexit : exit = S (length (Compiler.text (Compiler.this s4))))
      by (unfold exit, s5; cbn; rewrite length_app; cbn; lia).
    assert (Hp5 : jumps_pending (jumpf :: extra) s5).
    { apply pending_emitted; [exact Hp4|]. intros _. unfold start, jumpf in *. lia. }
    assert (Hp6 : jumps_pending extra (patched jumpf exit s5))
      by (apply pending_patched; [exact Hp5 | reflexivity]).
    apply bind_inv in H as [([bs cs] & s7 & Hleave & H)|(e & _ & Habs)]; [|discriminate].
    destruct (pending_leaveLoop extra _ _ _ _ Hleave Hp6) as [Hp7 Ht7].
    assert (Hlen7 : length (Compiler.text (Compiler.this s7)) = exit)
      by (rewrite Ht7; cbn; apply length_alter).
    destruct (patch_all_patched bs (cs ++ extra) exit s7 Hp7 ltac:(lia))
      as (s8 & Hs8 & Hp8 & Hlen8).
    rewrite (bind_ok _ _ _ _ _ Hs8) in H.
    destruct (patch_all_patched cs extra start s8 Hp8
                ltac:(unfold start, jumpf in *; lia)) as (s9 & Hs9 & Hp9 & _).
    rewrite Hs9 in H. inversion H; subst. exact Hp9.
  - (* For *)
    intros s s' a Hp H. cbn [Compiler.codegen] in H.
    apply bind_inv in H as [([] & s1 & Henter & H)|(e & _ & Habs)]; [|discriminate].
    pose proof (pending_enterLoop extra _ _ _ Hp Henter) as Hp1.
    apply bind_inv in H as [([] & s1' & Hinit & H)|(e & _ & Habs)]; [|discriminate].
    pose proof (IH node1 ltac:(cbn [node_size]; lia) extra _ _ _ Hp1 Hinit) as Hp1'.
    rewrite gets_bind in H. set (start := length (Compiler.text (Compiler.this s1'))) in *.
    apply bind_inv in H as [([] & s2 & Hcond & H)|(e & _ & Habs)]; [|discriminate].
    pose proof (IH node2 ltac:(cbn [node_size]; lia) extra _ _ _ Hp1' Hcond) as Hp2.
    pose proof (codegen_text_length _ _ _ _ _ Hcond) as Hlen2.
    rewrite (bind_ok _ _ _ _ _ (emitText_eq _ _ _ _)) in H.
    set (jumpf := length (Compiler.text (Compiler.this s2))) in *.
    set (op := match node2 with AST.EmptyStatement _ => Opcode.NOP | _ => Opcode.JUMPF end) in *.
    apply bind_inv in H as [([] & s4 & Hbody & H)|(e & _ & Habs)]; [|discriminate].
    pose proof (IH node4 ltac:(cbn [node_size]; lia) (jumpf :: extra) _ _ _
                  (pending_emitted_jump extra op lineNumber s2 Hp2) Hbody) as Hp4.
    pose proof (codegen_text_length _ _ _ _ _ Hbody) as Hlen4.
    cbn in Hlen4. rewrite length_app in Hlen4. cbn in Hlen4.
    rewrite gets_bind in H.
    set (updateStart := length (Compiler.text (Compiler.this s4))) in *.
    apply bind_inv in H as [([] & s4' & Hupdate & H)|(e & _ & Habs)]; [|discriminate].
    pose proof (IH node3 ltac:(cbn [node_size]; lia) (jumpf :: extra) _ _ _ Hp4 Hupdate)
      as Hp4'.
    pose proof (codegen_text_length _ _ _ _ _ Hupdate) as Hlen4'.
    rewrite (bind_ok _ _ _ _ _ (emitText_eq _ _ _ _)) in H.
    rewrite gets_bind in H. rewrite (bind_ok _ _ _ _ _ (patch_eq _ _ _)) in H.
    set (s5 := emitted Opcode.JUMP lineNumber (Some start) s4') in *.
    set (exit := length (Compiler.text (Compiler.this s5))) in *.
    assert (Hexit : exit = S (length (Compiler.text (Compiler.this s4'))))
      by (unfold exit, s5; cbn; rewrite length_app; cbn; lia).
    assert (Hp5 : jumps_pending (jumpf :: extra) s5).
    { apply pending_emitted; [exact Hp4'|]. intros _. unfold start, jumpf, updateStart in *. lia. }
    assert (Hp6 : jumps_pending extra (patched jumpf exit s5))
      by (apply pending_patched; [exact Hp5 | reflexivity]).
    apply bind_inv in H as [([bs cs] & s7 & Hleave & H)|(e & _ & Habs)]; [|discriminate].
    destruct (pending_leaveLoop extra _ _ _ _ Hleave Hp6) as [Hp7 Ht7].
    assert (Hlen7 : length (Compiler.text (Compiler.this s7)) = exit)
      by (rewrite Ht7; cbn; apply length_alter).
    destruct (patch_all_patched bs (cs ++ extra) exit s7 Hp7 ltac:(lia))
      as (s8 & Hs8 & Hp8 & Hlen8).
    rewrite (bind_ok _ _ _ _ _ Hs8) in H.
    destruct (patch_all_patched cs extra updateStart s8 Hp8
                ltac:(unfold updateStart in *; lia)) as (s9 & Hs9 & Hp9 & _).
    rewrite Hs9 in H. inversion H; subst. exact Hp9.
  - (* FunctionDeclaration *)
    intros s s' a Hp H.
    apply codegen_function_inv in H as (r0 & inner & _ & H).
    destruct r0 as [[]|e]; [|destruct H; discriminate].
    assert (Hst : establishes (jumps_pending extra)
                    (Compiler.emitText Opcode.DATA lineNumber
                       (Some (length (Compiler.data (Compiler.this s))))
                     ≫= fun _ => Compiler.declareVariable (Token.value name) lineNumber)
                    (fun _ => jumps_pending extra))
      by (unfold Compiler.declareVariable; establish pending_prim fail).
    apply (Hst _ _ _) in H; [exact H|]. revert Hp. apply pending_same; reflexivity.
Qed.


(** A compiler outside of every loop that holds no instruction to patch has
    patched every jump. *)
Lemma pending_closed (s : Compiler.State) :
  jumps_pending [] s ->
  length (Compiler.breaks (Compiler.this s)) = 0%nat ->
  length (Compiler.continues (Compiler.this s)) = 0%nat ->
  jumps_patched (Compiler.text (Compiler.this s)).
Proof.
  intros Hp Hb Hc i x Hx Hj. specialize (Hp i x Hx Hj).
  apply nil_length_inv in Hb, Hc. rewrite Hb, Hc in Hp.
  destruct (Instruction.value x) as [t|]; [eauto|].
  destruct Hp as [Hp|[(l & Hl & _)|(l & Hl & _)]]; inversion Hp || inversion Hl.
Qed.

Lemma jumps_patched_ret (text : list Instruction.t) (line : nat) (value : option nat) :
  jumps_patched text -> jumps_patched (text ++ [Instruction.mk Opcode.RET line value]).
Proof.
  intros H i x Hx Hj. rewrite length_app. cbn.
  apply lookup_app_Some in Hx as [Hx|[_ Hx]].
  - destruct (H i x Hx Hj) as (t & Ht & Hle). exists t. split; [exact Ht | lia].
  - apply list_lookup_singleton_Some in Hx as [_ <-]. discriminate.
Qed.

Lemma pending_new (locals : list Local.t) (data : list Value) (h : Heap) :
  jumps_pending [] (Compiler.mkState h (Compiler.new locals data)).
Proof. intros i x Hx. discriminate. Qed.

Ltac heap_prim :=
  first [ apply stable_emitText | apply stable_pushData | apply stable_leaveLoop
        | apply stable_modify | apply stable_popLocals ];
  intros; match goal with H : heap_patched _ |- _ => exact H end.

Lemma codegen_heap_patched (parseFloat : string -> float) (node : AST.ASTNode) :
  stable heap_patched (Compiler.codegen parseFloat node).
Proof.
  induction node as [node IH] using node_size_ind.
  assert (IHs : forall nodes,
            (list_sum (List.map node_size nodes) < node_size node)%nat ->
            stable heap_patched
              ((fix each (nodes : list AST.ASTNode) : M Compiler.State unit :=
                  match nodes with
                  | [] => mret tt
                  | child :: rest => Compiler.codegen parseFloat child;; each rest
                  end) nodes)).
  { intros nodes Hlt. apply stable_each. intros child Hc. apply IH.
    pose proof (node_size_elem _ _ Hc). lia. }
  destruct node; cbn [Compiler.codegen];
    unfold Compiler.loadVariable, Compiler.assignVariable, Compiler.declareVariable,
      Compiler.enterLoop, Compiler.patch;
    stable_steps heap_prim ltac:(first [ apply IH; cbn [node_size]; lia
                                       | apply IHs; cbn [node_size]; lia ]).
  intros s s' r HI H.
  apply codegen_function_inv in H as (r0 & inner & Hbody & H).
  assert (Hin : heap_patched (function_compiler name params s)).
  { intros l f Hl. cbn in Hl. apply lookup_app_Some in Hl as [Hl|[_ Hl]]; [exact (HI _ _ Hl)|].
    apply list_lookup_singleton_Some in Hl as [_ Hl]. inversion Hl; subst. cbn.
    intros i x Hx. discriminate. }
  pose proof (IH node ltac:(cbn [node_size]; lia) _ _ _ Hin Hbody) as Hinner.
  destruct r0 as [[]|e].
  - assert (Hst : stable heap_patched
                    (Compiler.emitText Opcode.DATA lineNumber
                       (Some (length (Compiler.data (Compiler.this s))))
                     ≫= fun _ => Compiler.declareVariable (Token.value name) lineNumber))
      by (unfold Compiler.declareVariable; stable_steps heap_prim fail).
    apply (Hst _ _ _) in H; [exact H|].
    intros l f Hl. cbn in Hl. apply list_lookup_insert_Some in Hl as [(_ & Hf & _)|[_ Hl]];
      [|exact (Hinner _ _ Hl)].
    inversion Hf; subst f. cbn. apply jumps_patched_ret.
    assert (Hn : nested 0 0 0 (function_compiler name params s)) by (repeat split).
    destruct (codegen_nested parseFloat node 0 0 0 _ _ _ Hn Hbody) as (_ & Hb & Hc).
    apply pending_closed; [|exact Hb|exact Hc].
    apply (codegen_pending parseFloat node [] _ _ _ (pending_new _ _ _) Hbody).
  - destruct H as [-> ->]. exact Hinner.
Qed.

(** The jumps of compiled code stay inside it.  In the program of a syntax
    tree every [JUMP], [JUMPF] and [JUMPT] has a target, which is an index of
    the text or the index after its last instruction; and so it is in the body
    of every function the compiler has put on the heap, when it was so for the
    functions that were there. *)
Theorem compile_jumps_patched (parseFloat : string -> float) (ast : list AST.ASTNode)
    (h h' : Heap) (program : Program.t) :
  functions_patched h ->
  Compiler.compile parseFloat ast h = (Ok program, h') ->
  jumps_patched (Program.text program) /\ functions_patched h'.
Proof.
  intros Hh H. unfold Compiler.compile in H.
  destruct (Compiler.run parseFloat ast (Compiler.mkState h (Compiler.new [] [])))
    as [r s] eqn:E.
  inversion H; subst; clear H. unfold Compiler.run in E.
  apply bind_inv in E as [([] & s1 & Hrun & E)|(e & _ & Habs)]; [|discriminate].
  rewrite <- codegen_each in Hrun.
  assert (Hn0 : nested 0 0 0 (Compiler.mkState h (Compiler.new [] []))) by (repeat split).
  assert (Hn : nested 0 0 0 s1).
  { refine (establishes_each (nested 0 0 0) parseFloat ast _ _ _ _ Hn0 Hrun).
    intros child _. apply codegen_nested. }
  rewrite gets_bind in E. inversion E; subst; clear E. cbn [Program.text].
  split.
  - apply pending_closed.
    + refine (establishes_each _ parseFloat ast _ _ _ _ (pending_new _ _ _) Hrun).
      intros child _. apply codegen_pending.
    + apply Hn.
    + apply Hn.
  - change (heap_patched s).
    refine (stable_each heap_patched parseFloat ast _
              (Compiler.mkState h (Compiler.new [] [])) _ _ Hh Hrun).
    intros child _. apply codegen_heap_patched.
Qed.

(** [function f() { while (true) { break; } }] *)
Lemma compile_jumps_patched_witness :
  exists (program : Program.t) (h' : Heap),
    Compiler.compile Sample.parseFloat
      [AST.FunctionDeclaration (Sample.name "f") []
         (AST.Block
            [AST.While (AST.Literal (Token.mk TokenType.TRUE "true") 1)
               (AST.Block [AST.BreakStatement 1] 1) 1] 1) 1] []
    = (Ok program, h')
    /\ jumps_patched (Program.text program) /\ functions_patched h'.
Proof.
  eexists _, _. split; [vm_compute; reflexivity|].
  apply (compile_jumps_patched Sample.parseFloat
           [AST.FunctionDeclaration (Sample.name "f") []
              (AST.Block
                 [AST.While (AST.Literal (Token.mk TokenType.TRUE "true") 1)
                    (AST.Block [AST.BreakStatement 1] 1) 1] 1) 1] []).
  - intros r f Hr. rewrite lookup_nil in Hr. discriminate.
  - vm_compute. reflexivity.
Defined.
